(** * Agentic email: the agent pipeline and the campaign scheduler

    A shallow embedding of
    - [AgentOrchestrator] (services/agent-orchestrator.service.ts): the
      registry of agents and [processEmailInternal], the loop that runs every
      registered agent over one email;
    - [CampaignService] (services/campaign.service.ts): the campaign and
      draft stores, the scheduler (one-time and recurring) and pause, resume
      and delete.

    Conventions.  A JavaScript object used as a record of named fields whose
    keys vary (an [Email], a [Partial<Email>]) is a [gmap string _]; object
    spread [{...a, ...b}] is the union that prefers [b].  A [Map] whose
    iteration order the code relies on (the agent registry) is a list in
    insertion order.  A thrown [Error] is its message.  The winston log
    lines are left out, and so are the timestamps and the elapsed-time figure
    of the pipeline.  In the campaign service the clock is a parameter [now],
    read once per call: it dates the updates and decides, in the one-time
    scheduler, between a delayed job and an immediate run. *)

From stdpp Require Import gmap strings list fin_maps pretty.
From Stdlib Require Import ZArith Lia Permutation Sorted Ascii String.
From Stdlib Require QArith.

Open Scope string_scope.
Open Scope list_scope.
Open Scope Z_scope.

(* ===================================================================== *)
(** * The agent pipeline *)
(* ===================================================================== *)

Module Orchestrator.

(** Field values of an email, held by value: the code of the orchestrator
    only copies and overwrites top-level fields. *)
Inductive JsValue : Type :=
  | JUndefined
  | JBool (b : bool)
  | JNum (n : Z)
  | JStr (s : string)
  | JStrs (l : list string).

(** [Email] (models/email.model.ts) and [Partial<Email>], keyed by field
    name. *)
Abbreviation Email := (gmap string JsValue).

(** [AgentProcessResult] (core/interfaces.ts).  The [actions] field is never
    read by the orchestrator and is left out. *)
Record AgentProcessResult : Type := mkResult {
  success : bool;
  modifications : option Email;
  error : option string
}.

(** What awaiting [agent.process(email)] gives: the promise resolves to a
    result, or rejects with a thrown value ([Some m] for an [Error] with
    message [m], [None] for any other thrown value). *)
Inductive Outcome : Type :=
  | Returned (r : AgentProcessResult)
  | Thrown (message : option string).

(** [IAgent] (core/interfaces.ts), with the numeric [priority] of the
    [AgentConfig] a [BaseAgent] is built from.  [process] is a function of
    the email: an agent that answers with a result or a throw and writes
    nothing in place.  Agents that write into what the email refers to are
    the subject of [SharedEmail] below. *)
Record IAgent : Type := mkAgent {
  id : string;
  name : string;
  type : string;
  priority : Z;
  process : Email -> Outcome
}.

Inductive TaskStatus : Type := pending | processing | completed | failed.

(** [AgentTask] (models/agent.model.ts).  [task_id] is the [uuidv4()] drawn
    for the task, taken from a counter; [parameters] is the email stored
    under [parameters.email]. *)
Record AgentTask : Type := mkTask {
  task_id : nat;
  agentId : string;
  emailId : option JsValue;
  action : string;
  parameters : Email;
  status : TaskStatus;
  result : option AgentProcessResult;
  task_error : option string
}.

(** [DatabaseService], as far as [saveAgentTask] goes: the handle [this.db]
    is there or not, and the [agent_tasks] table is keyed by task id. *)
Record Database : Type := mkDb {
  connected : bool;
  agent_tasks : gmap nat AgentTask
}.

(** [saveAgentTask]: throws when there is no handle, otherwise
    [INSERT OR REPLACE] by id. *)
Definition saveAgentTask (task : AgentTask) (d : Database) : Database + string :=
  if connected d
  then inl {| connected := true;
              agent_tasks := <[task_id task := task]> (agent_tasks d) |}
  else inr "Database not connected".

(** The table of [getAgentPriority]. *)
Definition priorityMap : gmap string Z :=
  list_to_map
    [ ("security", 100); ("filter", 90); ("categorizer", 80);
      ("prioritizer", 70); ("summarizer", 60); ("translator", 50);
      ("responder", 40); ("scheduler", 30) ].

(** The names an object literal inherits from [Object.prototype].  The
    lookup [priorityMap[t]] under one of them finds the inherited member (a
    function, or the prototype itself under [__proto__]) and not
    [undefined]. *)
Definition objectPrototypeMembers : list string :=
  [ "constructor"; "__defineGetter__"; "__defineSetter__"; "hasOwnProperty";
    "__lookupGetter__"; "__lookupSetter__"; "isPrototypeOf";
    "propertyIsEnumerable"; "toString"; "valueOf"; "__proto__";
    "toLocaleString" ].

(** What [getAgentPriority] returns: a number, or an inherited member of
    the table object. *)
Inductive JsPriority : Type :=
  | Numeric (n : Z)
  | Inherited.

#[global] Instance JsPriority_eq_dec : EqDecision JsPriority.
Proof. solve_decision. Defined.

(** [priorityMap[t] || 0]: an entry of the table (none of them is 0), an
    inherited member (an object, so truthy), or 0. *)
Definition typePriority (t : string) : JsPriority :=
  match priorityMap !! t with
  | Some n => if bool_decide (n = 0) then Numeric 0 else Numeric n
  | None =>
      if bool_decide (t ∈ objectPrototypeMembers) then Inherited
      else Numeric 0
  end.

Definition getAgentPriority (a : IAgent) : JsPriority :=
  typePriority (type a).

(** [x - y]: [NaN] ([None]) as soon as one side is not a number. *)
Definition minus (x y : JsPriority) : option Z :=
  match x, y with
  | Numeric m, Numeric n => Some (m - n)
  | _, _ => None
  end.

(** The comparator [(a, b) => priorityB - priorityA], on the types of [a]
    and [b]. *)
Definition comparePriority (ta tb : string) : option Z :=
  minus (typePriority tb) (typePriority ta).

(** [SortCompare] of [Array.prototype.sort]: a comparator's [NaN] counts
    as [+0]. *)
Definition sortCompare (v : option Z) : Z := default 0 v.

(** [Array.prototype.sort] with that comparator, written as insertion from
    the right: an element stays ahead of the ones that followed it unless the
    comparator puts it after them.  When the comparator is a consistent
    order (no type is the name of an inherited member) the sort is stable
    and this is the order every engine returns.  When it is not, the
    language leaves the order to the engine; the theorems that speak of the
    order of the table state that no type is such a name. *)
Section Sort.
Context {A : Type} (typeOf : A -> string).

Fixpoint insertByType (a : A) (l : list A) : list A :=
  match l with
  | [] => [a]
  | b :: l' =>
      if sortCompare (comparePriority (typeOf a) (typeOf b)) <=? 0
      then a :: b :: l'
      else b :: insertByType a l'
  end.

Fixpoint sortByType (l : list A) : list A :=
  match l with
  | [] => []
  | a :: l' => insertByType a (sortByType l')
  end.
End Sort.

Abbreviation insertAgent := (insertByType type).
Abbreviation sortAgents := (sortByType type).

(** The registry [this.agents], in insertion order. *)
Definition has_agent (i : string) (reg : list IAgent) : bool :=
  existsb (fun a => bool_decide (id a = i)) reg.

Definition registerAgent (a : IAgent) (reg : list IAgent) : list IAgent + string :=
  if has_agent (id a) reg
  then inr ("Agent " +:+ id a +:+ " is already registered")
  else inl (reg ++ [a]).

Definition unregisterAgent (i : string) (reg : list IAgent) : list IAgent + string :=
  if has_agent i reg
  then inl (filter (fun a => id a ≠ i) reg)
  else inr ("Agent " +:+ i +:+ " not found").

(** The state threaded through the loop of [processEmailInternal].
    [calls] lists the invocations of [agent.process] made so far, each with
    the agent's id and the email it was handed. *)
Record Run : Type := mkRun {
  db : Database;
  uuids : nat;
  agentResults : gmap string AgentProcessResult;
  processedEmail : Email;
  calls : list (string * Email)
}.

(** The result recorded by the [catch] block. *)
Definition caught (message : option string) : AgentProcessResult :=
  {| success := false;
     modifications := None;
     error := Some (default "Unknown error" message) |}.

(** [{ ...processedEmail, ...result.modifications }] under the guard
    [result.success && result.modifications]. *)
Definition merge (e : Email) (r : AgentProcessResult) : Email :=
  if success r
  then match modifications r with
       | Some m => m ∪ e
       | None => e
       end
  else e.

(** [!result.success && result.error]: an empty message is falsy. *)
Definition finalError (r : AgentProcessResult) : option string :=
  if success r then None
  else match error r with
       | Some m => if bool_decide (m = "") then None else Some m
       | None => None
       end.

(** One turn of the [for] loop: the [try] body and its [catch]. *)
Definition runAgent (email : Email) (st : Run) (agent : IAgent) : Run :=
  let task :=
    {| task_id := uuids st; agentId := id agent; emailId := email !! "id";
       action := "process"; parameters := processedEmail st;
       status := processing; result := None; task_error := None |} in
  match saveAgentTask task (db st) with
  | inr msg =>
      {| db := db st; uuids := S (uuids st);
         agentResults := <[id agent := caught (Some msg)]> (agentResults st);
         processedEmail := processedEmail st;
         calls := calls st |}
  | inl db1 =>
      let calls1 := calls st ++ [(id agent, processedEmail st)] in
      match process agent (processedEmail st) with
      | Thrown message =>
          {| db := db1; uuids := S (uuids st);
             agentResults := <[id agent := caught message]> (agentResults st);
             processedEmail := processedEmail st;
             calls := calls1 |}
      | Returned r =>
          let results1 := <[id agent := r]> (agentResults st) in
          let email1 := merge (processedEmail st) r in
          let task1 :=
            {| task_id := task_id task; agentId := agentId task;
               emailId := emailId task; action := action task;
               parameters := parameters task;
               status := if success r then completed else failed;
               result := Some r;
               task_error := finalError r |} in
          match saveAgentTask task1 db1 with
          | inl db2 =>
              {| db := db2; uuids := S (uuids st);
                 agentResults := results1;
                 processedEmail := email1;
                 calls := calls1 |}
          | inr msg =>
              {| db := db1; uuids := S (uuids st);
                 agentResults := <[id agent := caught (Some msg)]> results1;
                 processedEmail := email1;
                 calls := calls1 |}
          end
      end
  end.

(** [ProcessingResult] (core/interfaces.ts), without the elapsed time. *)
Record ProcessingResult : Type := mkProcessing {
  pr_email : Email;
  pr_agentResults : gmap string AgentProcessResult;
  finalEmail : Email
}.

(** The loop of [processEmailInternal] over the sorted registry, started
    from the copy [{ ...email }]. *)
Definition runPipeline (d : Database) (u : nat) (agents : list IAgent)
    (email : Email) : Run :=
  foldl (runAgent email)
        {| db := d; uuids := u; agentResults := ∅;
           processedEmail := email; calls := [] |}
        (sortAgents agents).

Definition processEmailInternal (d : Database) (u : nat)
    (agents : list IAgent) (email : Email) : ProcessingResult :=
  let st := runPipeline d u agents email in
  {| pr_email := email;
     pr_agentResults := agentResults st;
     finalEmail := processedEmail st |}.

(** ** The pipeline as the specification words it

    "Sequential application of each successful unit's modifications": a unit
    is successful on an email when [process] resolves with [success] set; the
    modifications it proposes are then laid over the email. *)

Definition successful_modifications (a : IAgent) (e : Email) : option Email :=
  match process a e with
  | Returned r => if success r then modifications r else None
  | Thrown _ => None
  end.

Definition apply_unit (e : Email) (a : IAgent) : Email :=
  match successful_modifications a e with
  | Some m => m ∪ e
  | None => e
  end.

Definition sequential_application (units : list IAgent) (e : Email) : Email :=
  foldl apply_unit e units.

(** The invocations such a run makes: each unit with the email accumulated
    before its turn. *)
Fixpoint accumulated_inputs (units : list IAgent) (e : Email)
    : list (string * Email) :=
  match units with
  | [] => []
  | a :: rest => (id a, e) :: accumulated_inputs rest (apply_unit e a)
  end.

(** ** The type table as the specification words it

    "security > filter > categorizer > prioritizer > summarizer > translator
    > responder > scheduler, descending": the types from first to last.  The
    rank of a type is the number of entries from it to the end of the table,
    and 0 for a type the table does not list. *)
Definition typePriorityTable : list string :=
  [ "security"; "filter"; "categorizer"; "prioritizer"; "summarizer";
    "translator"; "responder"; "scheduler" ].

Fixpoint rankIn (table : list string) (t : string) : nat :=
  match table with
  | [] => O
  | x :: rest =>
      if bool_decide (x = t) then S (List.length rest) else rankIn rest t
  end.

Definition tableRank (t : string) : nat := rankIn typePriorityTable t.

(** The number the code's table holds for a rank: 100 for the first type
    down to 30 for the eighth, and 0 outside the table. *)
Definition points (r : nat) : Z :=
  if (r =? 0)%nat then 0 else 20 + 10 * Z.of_nat r.

(** [a] runs no later than [b] as far as the type table decides. *)
Definition runs_before (a b : IAgent) : Prop :=
  (tableRank (type b) <= tableRank (type a))%nat.

(** A registry in which no type is the name of an inherited member of
    [Object.prototype]. *)
Definition ownTypes (agents : list IAgent) : Prop :=
  Forall (fun a => type a ∉ objectPrototypeMembers) agents.

(** The same agent with another numeric priority in its configuration. *)
Definition withPriority (p : IAgent -> Z) (a : IAgent) : IAgent :=
  {| id := id a; name := name a; type := type a; priority := p a;
     process := process a |}.

(** ** Sample agents and emails *)

Definition connectedDb : Database :=
  {| connected := true; agent_tasks := ∅ |}.

Definition inbound : Email :=
  {[ "id" := JStr "m-1"; "subject" := JStr "Quarterly report" ]}.

(** A security agent whose [process] rejects with [new Error('boom')]. *)
Definition thrower : IAgent :=
  {| id := "agent-sec"; name := "guard"; type := "security"; priority := 1;
     process := fun _ => Thrown (Some "boom") |}.

(** A summarizer that proposes a [snippet]. *)
Definition tagger : IAgent :=
  {| id := "agent-sum"; name := "digest"; type := "summarizer";
     priority := 99;
     process := fun _ =>
       Returned {| success := true;
                   modifications := Some {[ "snippet" := JStr "Q3" ]};
                   error := None |} |}.

Section ByType.
Context {A : Type} (typeOf : A -> string).

(** [ownTypes] and [runs_before] for whatever carries a type name. *)
Definition own (l : list A) : Prop :=
  Forall (fun a => typeOf a ∉ objectPrototypeMembers) l.

Definition ahead (a b : A) : Prop :=
  (tableRank (typeOf b) <= tableRank (typeOf a))%nat.
End ByType.

(** An agent that succeeds and proposes nothing. *)
Definition quiet (i t : string) : IAgent :=
  {| id := i; name := i; type := t; priority := 0;
     process := fun _ =>
       Returned {| success := true; modifications := None; error := None |} |}.

(** A responder, an agent whose type is the name of an inherited member,
    and a security agent, registered in this order. *)
Definition inheritedNameRegistry : list IAgent :=
  [ quiet "agent-r" "responder"; quiet "agent-t" "toString";
    quiet "agent-s" "security" ].

End Orchestrator.

(* ===================================================================== *)
(** * The email as an object on the heap

    The loop once more, for agents that can write in place.  The email is
    an object whose fields may refer to arrays and objects; the copy
    [{ ...email }] of [processEmailInternal] is a new object with the same
    fields, so what the fields refer to is shared with the caller's email. *)
(* ===================================================================== *)

Module SharedEmail.
Import Orchestrator.

(** What a field or an array slot holds: data held by value (a primitive,
    or a value of the model above, which nothing writes to), or a reference
    to an object or an array on the heap, which whoever holds the reference
    can write in place. *)
Inductive Value : Type :=
  | Prim (v : JsValue)
  | Ref (l : nat).

Inductive Cell : Type :=
  | Object (fields : gmap string Value)
  | Array (items : list Value).

Abbreviation Heap := (gmap nat Cell).

(** The own fields of the object at [l], as [{ ...x }] reads them; an
    [Email] is an object. *)
Definition fieldsOf (h : Heap) (l : nat) : gmap string Value :=
  match h !! l with
  | Some (Object f) => f
  | _ => ∅
  end.

(** A added object: it gets an address the heap does not use. *)
Definition alloc (h : Heap) (c : Cell) : nat * Heap :=
  let l := fresh (dom h) in (l, <[l := c]> h).

(** [AgentProcessResult], its [modifications] an object whose fields may
    hold references. *)
Record SharedResult : Type := mkSharedResult {
  s_success : bool;
  s_modifications : option (gmap string Value);
  s_error : option string
}.

Inductive Settlement : Type :=
  | Resolves (r : SharedResult)
  | Rejects (message : option string).

(** What a call of [agent.process(email)] does: the cells it writes, in
    order (an address in use is written in place, another one is a added
    object of the agent's), and how its promise settles. *)
Record Effect : Type := mkEffect {
  writes : list (nat * Cell);
  settles : Settlement
}.

(** An [IAgent] that is handed the address of the email and sees the
    heap. *)
Record SharedAgent : Type := mkSharedAgent {
  s_id : string;
  s_name : string;
  s_type : string;
  s_process : nat -> Heap -> Effect
}.

Definition store (h : Heap) (ws : list (nat * Cell)) : Heap :=
  foldl (fun h w => <[w.1 := w.2]> h) h ws.

(** An [AgentTask].  [st_parameters] is what [JSON.stringify] reads at the
    save: the object under [parameters.email] and the heap of that
    moment. *)
Record SharedTask : Type := mkSharedTask {
  st_id : nat;
  st_agentId : string;
  st_emailId : option Value;
  st_parameters : nat * Heap;
  st_status : TaskStatus;
  st_result : option SharedResult;
  st_error : option string
}.

Record Ledger : Type := mkLedger {
  writable : bool;
  tasks : gmap nat SharedTask
}.

Definition saveTask (t : SharedTask) (l : Ledger) : Ledger + string :=
  if writable l
  then inl {| writable := true; tasks := <[st_id t := t]> (tasks l) |}
  else inr "Database not connected".

(** One invocation: the agent, the address it was handed, what it did. *)
Record Turn : Type := mkTurn {
  turn_agent : string;
  handed : nat;
  effect : Effect
}.

Record SharedRun : Type := mkSharedRun {
  ledger : Ledger;
  heap : Heap;
  drawn : nat;
  results : gmap string SharedResult;
  working : nat;
  turns : list Turn
}.

Definition failure (message : option string) : SharedResult :=
  {| s_success := false; s_modifications := None;
     s_error := Some (default "Unknown error" message) |}.

Definition sharedFinalError (r : SharedResult) : option string :=
  if s_success r then None
  else match s_error r with
       | Some m => if bool_decide (m = "") then None else Some m
       | None => None
       end.

(** One turn of the loop of [processEmailInternal].  The merge
    [{ ...processedEmail, ...result.modifications }] makes a added object; the
    objects the orchestrator makes for its own use (the task, the entry of
    the result map) are reachable from no email and are left out of the
    heap. *)
Definition runShared (email : nat) (st : SharedRun) (agent : SharedAgent)
    : SharedRun :=
  let task :=
    {| st_id := drawn st; st_agentId := s_id agent;
       st_emailId := fieldsOf (heap st) email !! "id";
       st_parameters := (working st, heap st);
       st_status := processing; st_result := None; st_error := None |} in
  match saveTask task (ledger st) with
  | inr msg =>
      {| ledger := ledger st; heap := heap st; drawn := S (drawn st);
         results := <[s_id agent := failure (Some msg)]> (results st);
         working := working st; turns := turns st |}
  | inl l1 =>
      let eff := s_process agent (working st) (heap st) in
      let h1 := store (heap st) (writes eff) in
      let turns1 :=
        turns st ++ [ {| turn_agent := s_id agent; handed := working st;
                         effect := eff |} ] in
      match settles eff with
      | Rejects message =>
          {| ledger := l1; heap := h1; drawn := S (drawn st);
             results := <[s_id agent := failure message]> (results st);
             working := working st; turns := turns1 |}
      | Resolves r =>
          let results1 := <[s_id agent := r]> (results st) in
          let merged :=
            match (if s_success r then s_modifications r else None) with
            | Some m => alloc h1 (Object (m ∪ fieldsOf h1 (working st)))
            | None => (working st, h1)
            end in
          let task1 :=
            {| st_id := st_id task; st_agentId := st_agentId task;
               st_emailId := st_emailId task;
               st_parameters := (working st, merged.2);
               st_status := if s_success r then completed else failed;
               st_result := Some r;
               st_error := sharedFinalError r |} in
          match saveTask task1 l1 with
          | inl l2 =>
              {| ledger := l2; heap := merged.2; drawn := S (drawn st);
                 results := results1; working := merged.1;
                 turns := turns1 |}
          | inr msg =>
              {| ledger := l1; heap := merged.2; drawn := S (drawn st);
                 results := <[s_id agent := failure (Some msg)]> results1;
                 working := merged.1; turns := turns1 |}
          end
      end
  end.

(** [ProcessingResult]: [sp_email] and [sp_finalEmail] are addresses;
    [sp_heap] is the heap the run leaves and [sp_turns] the invocations it
    made. *)
Record SharedProcessing : Type := mkSharedProcessing {
  sp_email : nat;
  sp_results : gmap string SharedResult;
  sp_finalEmail : nat;
  sp_heap : Heap;
  sp_turns : list Turn
}.

(** [processEmailInternal(email)] for the email at address [email]:
    [{ ...email }] copies its fields into a added object, and what the fields
    refer to is shared between the two. *)
Definition processShared (l : Ledger) (u : nat) (agents : list SharedAgent)
    (email : nat) (h : Heap) : SharedProcessing :=
  let copy := alloc h (Object (fieldsOf h email)) in
  let st := foldl (runShared email)
              {| ledger := l; heap := copy.2; drawn := u; results := ∅;
                 working := copy.1; turns := [] |}
              (sortByType s_type agents) in
  {| sp_email := email; sp_results := results st;
     sp_finalEmail := working st; sp_heap := heap st;
     sp_turns := turns st |}.

(** The addresses a turn wrote. *)
Definition written (t : Turn) : list nat := map fst (writes (effect t)).

(** ** The agents of the model above, among these

    An agent that reads the fields held by value, writes nothing and
    proposes values held by value. *)
Definition readEmail (f : gmap string Value) : Email :=
  omap (fun v => match v with Prim x => Some x | Ref _ => None end) f.

Definition liftResult (r : AgentProcessResult) : SharedResult :=
  {| s_success := success r;
     s_modifications := (fun m : Email => Prim <$> m) <$> modifications r;
     s_error := error r |}.

Definition lift (a : IAgent) : SharedAgent :=
  {| s_id := id a; s_name := name a; s_type := type a;
     s_process := fun w h =>
       {| writes := [];
          settles := match process a (readEmail (fieldsOf h w)) with
                     | Returned r => Resolves (liftResult r)
                     | Thrown m => Rejects m
                     end |} |}.

(** The two loops side by side. *)
Definition alike (st : Run) (sh : SharedRun) : Prop :=
  connected (db st) = writable (ledger sh)
  /\ fieldsOf (heap sh) (working sh) = Prim <$> processedEmail st
  /\ results sh = liftResult <$> agentResults st.

(** ** A sample: an email whose labels are an array on the heap *)

Definition labelledHeap : Heap :=
  {[ 0%nat := Object {[ "id" := Prim (JStr "m-1"); "labels" := Ref 1 ]};
     1%nat := Array [Prim (JStr "inbox")] ]}.

(** An agent that does [email.labels.push('seen')] and proposes nothing. *)
Definition stamper : SharedAgent :=
  {| s_id := "agent-stamp"; s_name := "stamper"; s_type := "filter";
     s_process := fun w h =>
       {| writes :=
            match fieldsOf h w !! "labels" with
            | Some (Ref l) =>
                match h !! l with
                | Some (Array items) =>
                    [(l, Array (items ++ [Prim (JStr "seen")]))]
                | _ => []
                end
            | _ => []
            end;
          settles := Resolves {| s_success := true; s_modifications := None;
                                 s_error := None |} |} |}.

Definition openLedger : Ledger := {| writable := true; tasks := ∅ |}.

End SharedEmail.

(* ===================================================================== *)
(** * The campaign service *)
(* ===================================================================== *)

Module Campaigns.

(** ** Data (core/campaign.interfaces) *)

Inductive CampaignStatus : Type :=
  | st_draft | st_scheduled | st_active | st_paused | st_completed
  | st_cancelled.

Inductive DraftStatus : Type :=
  | ds_draft | ds_pending_approval | ds_approved | ds_rejected | ds_sent.

Inductive FrequencyType : Type := daily | weekly | monthly | custom.

Record ScheduleFrequency : Type := mkFrequency {
  freq_type : FrequencyType;
  interval : option Z;
  daysOfWeek : option (list Z);
  dayOfMonth : option Z;
  customCron : option string
}.

(** [CampaignSchedule]; dates are milliseconds since the epoch.
    [batchSize] and [throttleRate] are never read by the service. *)
Record CampaignSchedule : Type := mkSchedule {
  startDate : Z;
  endDate : option Z;
  timezone : string;
  sendTime : option string;
  frequency : option ScheduleFrequency
}.

Record ApprovalStatus : Type := mkApproval {
  required : bool;
  approved : bool;
  approvedBy : string;
  approvedAt : Z
}.

(** [EmailCampaign], with the fields the scheduler and the state changes
    read or write; [sent] is [metrics.sent]. *)
Record EmailCampaign : Type := mkCampaign {
  id : string;
  name : string;
  status : CampaignStatus;
  schedule : CampaignSchedule;
  sent : Z;
  updatedAt : Z;
  approvalStatus : option ApprovalStatus
}.

Record EmailDraft : Type := mkDraft {
  draft_id : string;
  campaignId : option string;
  draft_status : DraftStatus;
  draft_updatedAt : Z
}.

#[global] Instance CampaignStatus_eq_dec : EqDecision CampaignStatus.
Proof. solve_decision. Defined.

#[global] Instance DraftStatus_eq_dec : EqDecision DraftStatus.
Proof. solve_decision. Defined.

(** ** The Bull queue

    The queue is a library the service talks to, and its code is not part
    of the repository.  What the service relies on is modelled: [add]
    appends a job (one with a positive delay or a repeat rule waits in the
    delayed set), [getJobs] lists the jobs in the given states, [remove]
    takes a job out.  What the library decides by rules of its own is a
    parameter of the queue: what it makes of a repeat rule ([admits]) and
    what [moveToFailed] makes of a job ([onMoveToFailed]).  [fault] is the
    error with which Redis answers the commands of the queue, when it does:
    every call that reaches Redis then rejects with it and changes
    nothing. *)

Inductive JobState : Type :=
  | waiting | active | completed | failed | delayed | paused.

#[global] Instance JobState_eq_dec : EqDecision JobState.
Proof. solve_decision. Defined.

Record Backoff : Type := mkBackoff {
  backoff_type : string;
  backoff_delay : Z
}.

Inductive JobOptions : Type :=
  | DelayOpts (delay : Z) (attempts : Z) (backoff : Backoff)
  | RepeatOpts (cron : string) (tz : string) (from : Z) (to : option Z).

Record Job : Type := mkJob {
  job_id : nat;
  job_name : string;
  job_campaignId : string;
  opts : JobOptions;
  state : JobState;
  failedReason : option string
}.

(** What [add] makes of a repeat rule: the next occurrence is queued; or
    nothing is queued and the call resolves (the end date has passed, no
    occurrence is left, the occurrence is queued already); or the call
    rejects (the rule does not parse). *)
Inductive Admission : Type :=
  | Queues
  | Skips
  | Refuses (message : string).

(** What [moveToFailed] makes of a job: the job is left in a state, with a
    failure reason or none (failed, or delayed again when attempts are
    left); or the call rejects and the job is as it was. *)
Inductive Moved : Type :=
  | MovedTo (st : JobState) (reason : option string)
  | MoveRefused (message : string).

Record Queue : Type := mkQueue {
  fault : option string;
  admits : JobOptions -> Admission;
  onMoveToFailed : Job -> string -> Moved;
  jobs : list Job;
  next_job : nat
}.

(** The same queue and library with other jobs. *)
Definition withJobs (q : Queue) (js : list Job) (n : nat) : Queue :=
  {| fault := fault q; admits := admits q;
     onMoveToFailed := onMoveToFailed q; jobs := js; next_job := n |}.

(** ** The service state

    [executions] has one entry per run of the send step of
    [executeCampaign] (the step between its two store updates). *)
Record Service : Type := mkService {
  campaigns : gmap string EmailCampaign;
  drafts : gmap string EmailDraft;
  campaignQueue : Queue;
  executions : list string
}.

(** ** Promises over the service state

    An [async] method is a function from the state to a settled promise and
    the state it leaves; a rejection keeps every write made before it. *)

Inductive Settled (A : Type) : Type :=
  | Resolved (a : A)
  | Rejected (message : string).
Arguments Resolved {A} a.
Arguments Rejected {A} message.

Definition Async (A : Type) : Type := Service -> Settled A * Service.

Definition resolve {A} (a : A) : Async A := fun s => (Resolved a, s).

Definition throw {A} (message : string) : Async A :=
  fun s => (Rejected message, s).

Definition await {A B} (m : Async A) (k : A -> Async B) : Async B :=
  fun s =>
    match m s with
    | (Resolved a, s') => k a s'
    | (Rejected e, s') => (Rejected e, s')
    end.

Notation "'let*' x ':=' m 'in' k" := (await m (fun x => k))
  (at level 10, x pattern, m at level 100, k at level 200).

(** [try { m } catch (error) { throw new Error(prefix + error.message) }],
    the frame of every public method. *)
Definition rethrow {A} (prefix : string) (m : Async A) : Async A :=
  fun s =>
    match m s with
    | (Resolved a, s') => (Resolved a, s')
    | (Rejected e, s') => (Rejected (prefix +:+ e), s')
    end.

Definition withCampaigns (s : Service) (m : gmap string EmailCampaign) : Service :=
  {| campaigns := m; drafts := drafts s; campaignQueue := campaignQueue s;
     executions := executions s |}.

Definition withDrafts (s : Service) (m : gmap string EmailDraft) : Service :=
  {| campaigns := campaigns s; drafts := m; campaignQueue := campaignQueue s;
     executions := executions s |}.

Definition withQueue (s : Service) (q : Queue) : Service :=
  {| campaigns := campaigns s; drafts := drafts s; campaignQueue := q;
     executions := executions s |}.

Definition withExecutions (s : Service) (l : list string) : Service :=
  {| campaigns := campaigns s; drafts := drafts s;
     campaignQueue := campaignQueue s; executions := l |}.

(** [this.campaigns.set(i, c)], also the effect of assigning to fields of
    the object stored under [i]. *)
Definition setCampaign (i : string) (c : EmailCampaign) : Async unit :=
  fun s => (Resolved tt, withCampaigns s (<[i := c]> (campaigns s))).

(** [this.campaigns.delete(i)] *)
Definition removeCampaign (i : string) : Async unit :=
  fun s => (Resolved tt, withCampaigns s (delete i (campaigns s))).

(** [this.drafts.set(i, d)], also the effect of assigning to fields of the
    stored draft. *)
Definition setDraft (i : string) (d : EmailDraft) : Async unit :=
  fun s => (Resolved tt, withDrafts s (<[i := d]> (drafts s))).

Definition logExecution (i : string) : Async unit :=
  fun s => (Resolved tt, withExecutions s (executions s ++ [i])).

(** ** Queue calls *)

Definition queueCall {A} (f : Queue -> A * Queue) : Async A :=
  fun s =>
    match fault (campaignQueue s) with
    | Some e => (Rejected e, s)
    | None => let (a, q) := f (campaignQueue s) in (Resolved a, withQueue s q)
    end.

Definition initialState (o : JobOptions) : JobState :=
  match o with
  | DelayOpts d _ _ => if 0 <? d then delayed else waiting
  | RepeatOpts _ _ _ _ => delayed
  end.

Definition appendJob (nm cid : string) (o : JobOptions) (q : Queue) : Queue :=
  withJobs q
    (jobs q ++ [ {| job_id := next_job q; job_name := nm;
                    job_campaignId := cid; opts := o;
                    state := initialState o; failedReason := None |} ])
    (S (next_job q)).

(** [campaignQueue.add(name, { campaignId }, opts)].  A repeat rule is
    first put to the library. *)
Definition queueAdd (nm : string) (cid : string) (o : JobOptions) : Async unit :=
  match o with
  | DelayOpts _ _ _ => queueCall (fun q => (tt, appendJob nm cid o q))
  | RepeatOpts _ _ _ _ =>
      fun s =>
        match admits (campaignQueue s) o with
        | Queues => queueCall (fun q => (tt, appendJob nm cid o q)) s
        | Skips => (Resolved tt, s)
        | Refuses e => (Rejected e, s)
        end
  end.

(** [campaignQueue.getJobs(states)] *)
Definition getJobs (states : list JobState) : Async (list Job) :=
  queueCall (fun q =>
    (filter (fun j => state j ∈ states) (jobs q), q)).

(** [job.remove()] *)
Definition jobRemove (j : Job) : Async unit :=
  queueCall (fun q =>
    (tt, withJobs q (filter (fun x => job_id x ≠ job_id j) (jobs q))
           (next_job q))).

(** The job as [moveToFailed] leaves it. *)
Definition movedJob (st : JobState) (reason : option string) (x : Job) : Job :=
  {| job_id := job_id x; job_name := job_name x;
     job_campaignId := job_campaignId x; opts := opts x; state := st;
     failedReason := reason |}.

(** [job.moveToFailed({ message }, false)] *)
Definition jobMoveToFailed (j : Job) (reason : string) : Async unit :=
  fun s =>
    match onMoveToFailed (campaignQueue s) j reason with
    | MovedTo st r =>
        queueCall (fun q =>
          (tt, withJobs q
                 (map (fun x => if bool_decide (job_id x = job_id j)
                                then movedJob st r x else x) (jobs q))
                 (next_job q))) s
    | MoveRefused e => (Rejected e, s)
    end.

(** [for (const job of jobs) { if (job.data.campaignId === id) await f(job) }] *)
Fixpoint forMatching (cid : string) (f : Job -> Async unit) (l : list Job)
    : Async unit :=
  match l with
  | [] => resolve tt
  | j :: l' =>
      let* _ := (if bool_decide (job_campaignId j = cid) then f j
                 else resolve tt) in
      forMatching cid f l'
  end.

(** ** Campaign CRUD *)

(** [s || d] on an optional string: [undefined] and [''] are falsy. *)
Definition orString (s : option string) (d : string) : string :=
  match s with
  | Some x => if bool_decide (x = "") then d else x
  | None => d
  end.

(** [n || d] on an optional number: [undefined] and [0] are falsy. *)
Definition orNumber (n : option Z) (d : Z) : Z :=
  match n with
  | Some x => if bool_decide (x = 0) then d else x
  | None => d
  end.

(** [getCampaign]: the in-memory map, then [loadCampaignFromDatabase], which
    always gives [null]; its own [catch] turns any error into [null]. *)
Definition getCampaign (i : string) : Async (option EmailCampaign) :=
  fun s => (Resolved (campaigns s !! i), s).

(** [{ ...campaign, ...updates, updatedAt: new Date() }].  Every caller in
    the service passes a whole campaign as [updates]; an optional field
    absent from it keeps the stored one. *)
Definition spread (c updates : EmailCampaign) (now : Z) : EmailCampaign :=
  {| id := id updates; name := name updates; status := status updates;
     schedule := schedule updates; sent := sent updates;
     updatedAt := now;
     approvalStatus := match approvalStatus updates with
                       | Some a => Some a
                       | None => approvalStatus c
                       end |}.

Definition notFound (i : string) : string := "Campaign " +:+ i +:+ " not found".

Definition updateCampaign (now : Z) (i : string) (updates : EmailCampaign)
    : Async EmailCampaign :=
  rethrow "Failed to update campaign: "
    (let* c := getCampaign i in
     match c with
     | None => throw (notFound i)
     | Some c =>
         let updatedCampaign := spread c updates now in
         let* _ := setCampaign i updatedCampaign in
         resolve updatedCampaign
     end).

(** [createCampaign], for the fields kept here; [uuid] is the [uuidv4()]
    drawn for it.  The status of [campaignData] is never read. *)
Definition createCampaign (now : Z) (uuid : string) (nm : option string)
    (sch : option CampaignSchedule) : Async EmailCampaign :=
  rethrow "Failed to create campaign: "
    (let campaign :=
       {| id := uuid;
          name := orString nm "Untitled Campaign";
          status := st_draft;
          schedule := default {| startDate := now; endDate := None;
                                 timezone := "UTC"; sendTime := None;
                                 frequency := None |} sch;
          sent := 0; updatedAt := now; approvalStatus := None |} in
     let* _ := setCampaign uuid campaign in
     resolve campaign).

(** ** Execution and scheduling *)

Definition withStatus (c : EmailCampaign) (st : CampaignStatus) : EmailCampaign :=
  {| id := id c; name := name c; status := st; schedule := schedule c;
     sent := sent c; updatedAt := updatedAt c;
     approvalStatus := approvalStatus c |}.

Definition withSchedule (c : EmailCampaign) (sch : CampaignSchedule) : EmailCampaign :=
  {| id := id c; name := name c; status := status c; schedule := sch;
     sent := sent c; updatedAt := updatedAt c;
     approvalStatus := approvalStatus c |}.

Definition withSent (c : EmailCampaign) (n : Z) : EmailCampaign :=
  {| id := id c; name := name c; status := status c; schedule := schedule c;
     sent := n; updatedAt := updatedAt c;
     approvalStatus := approvalStatus c |}.

Definition withApproval (c : EmailCampaign) (a : ApprovalStatus) : EmailCampaign :=
  {| id := id c; name := name c; status := status c; schedule := schedule c;
     sent := sent c; updatedAt := updatedAt c;
     approvalStatus := Some a |}.

(** [campaign.metrics.sent += 100] reaches the stored campaign too: the copy
    made by [updateCampaign] shares the [metrics] object. *)
Definition bumpStoredSent (i : string) : Async unit :=
  fun s =>
    (Resolved tt,
     withCampaigns s
       (alter (fun c => withSent c (sent c + 100)) i (campaigns s))).

(** [executeCampaign].  An assignment to a field of [campaign] writes the
    stored object while [campaign] still is the stored object, that is until
    the first [updateCampaign] replaces it by a copy. *)
Definition executeCampaign (now : Z) (cid : string) : Async unit :=
  let* c := getCampaign cid in
  match c with
  | None => throw (notFound cid)
  | Some c =>
      let c1 := withStatus c st_active in
      let* _ := setCampaign cid c1 in
      let* _ := updateCampaign now cid c1 in
      let* _ := logExecution cid in
      let c2 := withSent c1 (sent c1 + 100) in
      let* _ := bumpStoredSent cid in
      let* _ := updateCampaign now cid c2 in
      resolve tt
  end.

(** [scheduleOneTimeCampaign]; [now] is the reading of [Date.now()]. *)
Definition scheduleOneTimeCampaign (now : Z) (cid : string)
    (sch : CampaignSchedule) : Async unit :=
  let delay := startDate sch - now in
  if 0 <? delay
  then queueAdd "send-campaign" cid
         (DelayOpts delay 3
            {| backoff_type := "exponential"; backoff_delay := 60000 |})
  else executeCampaign now cid.

(** [a.join(',')] on an array of integers. *)
Fixpoint join (sep : string) (l : list string) : string :=
  match l with
  | [] => ""
  | [x] => x
  | x :: l' => x +:+ sep +:+ join sep l'
  end.

(** The [switch] of [scheduleRecurringCampaign] that fills [cronPattern]. *)
Definition cronPattern (sch : CampaignSchedule) : string :=
  match frequency sch with
  | None => ""
  | Some f =>
      match freq_type f with
      | daily => "0 " +:+ orString (sendTime sch) "10:00" +:+ " * * *"
      | weekly =>
          let days :=
            orString (join "," <$> (map pretty <$> daysOfWeek f)) "1" in
          "0 " +:+ orString (sendTime sch) "10:00" +:+ " * * " +:+ days
      | monthly =>
          let day := orNumber (dayOfMonth f) 1 in
          "0 " +:+ orString (sendTime sch) "10:00" +:+ " " +:+ pretty day
            +:+ " * *"
      | custom => orString (customCron f) "0 10 * * *"
      end
  end.

Definition scheduleRecurringCampaign (cid : string) (sch : CampaignSchedule)
    : Async unit :=
  queueAdd "send-campaign" cid
    (RepeatOpts (cronPattern sch) (timezone sch) (startDate sch) (endDate sch)).

Definition scheduleCampaign (now : Z) (i : string) (sch : CampaignSchedule)
    : Async unit :=
  rethrow "Failed to schedule campaign: "
    (let* c := getCampaign i in
     match c with
     | None => throw (notFound i)
     | Some c =>
         let c1 := withStatus (withSchedule c sch) st_scheduled in
         let* _ := setCampaign i c1 in
         let* _ := updateCampaign now i c1 in
         match frequency sch with
         | Some _ => scheduleRecurringCampaign i sch
         | None => scheduleOneTimeCampaign now i sch
         end
     end).

(** ** Pause, resume, delete *)

Definition pauseCampaign (now : Z) (i : string) : Async unit :=
  rethrow "Failed to pause campaign: "
    (let* c := getCampaign i in
     match c with
     | None => throw (notFound i)
     | Some c =>
         let c1 := withStatus c st_paused in
         let* _ := setCampaign i c1 in
         let* _ := updateCampaign now i c1 in
         let* js := getJobs [waiting; delayed] in
         forMatching i (fun j => jobMoveToFailed j "Campaign paused") js
     end).

Definition resumeCampaign (now : Z) (i : string) : Async unit :=
  rethrow "Failed to resume campaign: "
    (let* c := getCampaign i in
     match c with
     | None => throw (notFound i)
     | Some c =>
         if bool_decide (status c ≠ st_paused)
         then throw "Campaign is not paused"
         else
           let c1 := withStatus c st_active in
           let* _ := setCampaign i c1 in
           let* _ := updateCampaign now i c1 in
           scheduleCampaign now i (schedule c1)
     end).

Definition cancelScheduledJobs (cid : string) : Async unit :=
  let* js := getJobs [waiting; delayed] in
  forMatching cid jobRemove js.

Definition deleteCampaign (i : string) : Async bool :=
  rethrow "Failed to delete campaign: "
    (let* c := getCampaign i in
     match c with
     | None => resolve false
     | Some c =>
         let* _ := (if bool_decide (status c = st_scheduled)
                    then cancelScheduledJobs i
                    else resolve tt) in
         let* _ := removeCampaign i in
         resolve true
     end).

(** ** Drafts *)

Definition getDraft (i : string) : Async (option EmailDraft) :=
  fun s => (Resolved (drafts s !! i), s).

Definition createDraft (now : Z) (uuid : string) (cid : option string)
    : Async EmailDraft :=
  rethrow "Failed to create draft: "
    (let draft := {| draft_id := uuid; campaignId := cid;
                     draft_status := ds_draft; draft_updatedAt := now |} in
     let* _ := setDraft uuid draft in
     resolve draft).

Definition decided (d : EmailDraft) (st : DraftStatus) (now : Z) : EmailDraft :=
  {| draft_id := draft_id d; campaignId := campaignId d;
     draft_status := st; draft_updatedAt := now |}.

Definition draftNotFound (i : string) : string :=
  "Draft " +:+ i +:+ " not found".

(** [if (draft.campaignId)]: [undefined] and [''] are falsy. *)
Definition linkedCampaign (d : EmailDraft) : option string :=
  match campaignId d with
  | Some c => if bool_decide (c = "") then None else Some c
  | None => None
  end.

Definition approveDraft (now : Z) (draftId approver : string) : Async unit :=
  rethrow "Failed to approve draft: "
    (let* d := getDraft draftId in
     match d with
     | None => throw (draftNotFound draftId)
     | Some d =>
         let* _ := setDraft draftId (decided d ds_approved now) in
         match linkedCampaign d with
         | None => resolve tt
         | Some cid =>
             let* c := getCampaign cid in
             match c with
             | None => resolve tt
             | Some c =>
                 let c1 := withApproval c
                             {| required := true; approved := true;
                                approvedBy := approver; approvedAt := now |} in
                 let* _ := setCampaign cid c1 in
                 let* _ := updateCampaign now cid c1 in
                 resolve tt
             end
         end
     end).

Definition rejectDraft (now : Z) (draftId reason : string) : Async unit :=
  rethrow "Failed to reject draft: "
    (let* d := getDraft draftId in
     match d with
     | None => throw (draftNotFound draftId)
     | Some d => setDraft draftId (decided d ds_rejected now)
     end).

(** ** Vocabulary of the properties *)

(** The jobs of a campaign that can still fire: what
    [getJobs(['waiting', 'delayed'])] lists for it. *)
Definition pendingJobsFor (cid : string) (q : Queue) : list Job :=
  filter (fun j => state j ∈ [waiting; delayed] ∧ job_campaignId j = cid)
         (jobs q).

(** A call that, on a reachable queue, resolves and touches nothing but the
    queue, which it leaves reachable. *)
Definition queueOnly (m : Async unit) : Prop :=
  forall s, fault (campaignQueue s) = None ->
    exists q, m s = (Resolved tt, withQueue s q) /\ fault q = None.

(** What [scheduleCampaign] has written when it turns to the queue: the
    new schedule and the status [scheduled]. *)
Definition scheduledState (now : Z) (i : string) (sch : CampaignSchedule)
    (c : EmailCampaign) (s : Service) : Service :=
  let c1 := withStatus (withSchedule c sch) st_scheduled in
  withCampaigns s (<[i := spread c1 c1 now]> (campaigns s)).

(** The job [scheduleOneTimeCampaign] submits: delayed, three attempts,
    exponential backoff from one minute. *)
Definition delayedJob (n : nat) (cid : string) (delay : Z) : Job :=
  {| job_id := n; job_name := "send-campaign"; job_campaignId := cid;
     opts := DelayOpts delay 3
               {| backoff_type := "exponential"; backoff_delay := 60000 |};
     state := delayed; failedReason := None |}.

(** The options of the job [scheduleCampaign] submits for a schedule. *)
Definition submitted (now : Z) (sch : CampaignSchedule) : JobOptions :=
  match frequency sch with
  | Some _ =>
      RepeatOpts (cronPattern sch) (timezone sch) (startDate sch) (endDate sch)
  | None =>
      DelayOpts (startDate sch - now) 3
        {| backoff_type := "exponential"; backoff_delay := 60000 |}
  end.

(** The error with which [add] rejects a job, if it does. *)
Definition addError (q : Queue) (o : JobOptions) : option string :=
  match o with
  | DelayOpts _ _ _ => fault q
  | RepeatOpts _ _ _ _ =>
      match admits q o with
      | Queues => fault q
      | Skips => None
      | Refuses e => Some e
      end
  end.

(** The four operations on the status of a campaign. *)
Inductive Operation : Type :=
  | OpSchedule (sch : CampaignSchedule)
  | OpPause
  | OpResume
  | OpDelete.

Definition perform (now : Z) (i : string) (op : Operation) : Async unit :=
  match op with
  | OpSchedule sch => scheduleCampaign now i sch
  | OpPause => pauseCampaign now i
  | OpResume => resumeCampaign now i
  | OpDelete => let* _ := deleteCampaign i in resolve tt
  end.

Definition statusOf (i : string) (s : Service) : option CampaignStatus :=
  status <$> campaigns s !! i.

Definition draftStatusOf (i : string) (s : Service) : option DraftStatus :=
  draft_status <$> drafts s !! i.

(** The state a call leaves, and two calls in a row. *)
Definition after {A} (s : Service) (m : Async A) : Service := snd (m s).

(** *** Crontab syntax

    A recurrence rule is five fields separated by blanks: minute, hour, day
    of month, month, day of week.  The hour field is made of digits and of
    the signs of lists, ranges, steps and the wildcard. *)

Fixpoint splitOn (sep : ascii) (s : string) : list string :=
  match s with
  | EmptyString => [""]
  | String c s' =>
      if bool_decide (c = sep) then "" :: splitOn sep s'
      else match splitOn sep s' with
           | [] => [String c ""]
           | w :: ws => String c w :: ws
           end
  end.

Definition cronFields (pattern : string) : list string :=
  splitOn " "%char pattern.

Definition hourFieldChar (c : ascii) : bool :=
  bool_decide (c ∈ list_ascii_of_string "0123456789*,-/").

Definition wellFormedHourField (f : string) : bool :=
  negb (bool_decide (f = ""))
  && forallb hourFieldChar (list_ascii_of_string f).

(** ** Sample schedules and states *)

Definition oneTimeAt (t : Z) : CampaignSchedule :=
  {| startDate := t; endDate := None; timezone := "UTC"; sendTime := None;
     frequency := None |}.

(** Weekly on Monday, Wednesday and Friday at 09:00, New York time. *)
Definition weeklyExample : CampaignSchedule :=
  {| startDate := 1000; endDate := None; timezone := "America/New_York";
     sendTime := Some "09:00";
     frequency := Some {| freq_type := weekly; interval := None;
                          daysOfWeek := Some [1; 3; 5]; dayOfMonth := None;
                          customCron := None |} |}.

(** Every day at 10:00, by a recurrence rule of the caller. *)
Definition customExample : CampaignSchedule :=
  {| startDate := 1000; endDate := None; timezone := "UTC";
     sendTime := None;
     frequency := Some {| freq_type := custom; interval := None;
                          daysOfWeek := None; dayOfMonth := None;
                          customCron := Some "0 10 * * *" |} |}.

(** A library for the samples.  It refuses a repeat rule whose second
    field, the hour, is not an hour field, with the message of cron-parser,
    and queues every other rule; its [moveToFailed] leaves the job failed
    with the reason given. *)
Definition sampleAdmits (o : JobOptions) : Admission :=
  match o with
  | RepeatOpts cron _ _ _ =>
      match cronFields cron with
      | _ :: hour :: _ =>
          if wellFormedHourField hour then Queues
          else Refuses ("Invalid characters, got value: " +:+ hour)
      | _ => Refuses ("Invalid cron expression")
      end
  | DelayOpts _ _ _ => Queues
  end.

Definition sampleMoveToFailed (j : Job) (reason : string) : Moved :=
  MovedTo failed (Some reason).

Definition emptyService : Service :=
  {| campaigns := ∅; drafts := ∅;
     campaignQueue := {| fault := None; admits := sampleAdmits;
                         onMoveToFailed := sampleMoveToFailed;
                         jobs := []; next_job := 0 |};
     executions := [] |}.

(** The same service while Redis answers every command with an error. *)
Definition offlineService : Service :=
  {| campaigns := ∅; drafts := ∅;
     campaignQueue := {| fault := Some "NOAUTH Authentication required.";
                         admits := sampleAdmits;
                         onMoveToFailed := sampleMoveToFailed;
                         jobs := []; next_job := 0 |};
     executions := [] |}.

(** A campaign created at 0, still a draft. *)
Definition draftService : Service :=
  after emptyService (createCampaign 0 "c-1" (Some "Launch") None).

Definition draftLaunch : EmailCampaign :=
  {| id := "c-1"; name := "Launch"; status := st_draft;
     schedule := oneTimeAt 0; sent := 0; updatedAt := 0;
     approvalStatus := None |}.

(** The same campaign scheduled at 1000 for 5000. *)
Definition scheduledService : Service :=
  after draftService (scheduleCampaign 1000 "c-1" (oneTimeAt 5000)).

Definition scheduledLaunch : EmailCampaign :=
  {| id := "c-1"; name := "Launch"; status := st_scheduled;
     schedule := oneTimeAt 5000; sent := 0; updatedAt := 1000;
     approvalStatus := None |}.

(** A campaign created at 0, scheduled at 1000 for 5000 and paused at
    2000. *)
Definition pausedService : Service :=
  after (after (after emptyService
    (createCampaign 0 "c-1" (Some "Launch") None))
    (scheduleCampaign 1000 "c-1" (oneTimeAt 5000)))
    (pauseCampaign 2000 "c-1").

(** A recurring campaign created at 0 and scheduled at 1000, whose job fired at
    2000: the queue processor ran [executeCampaign], and the repeat job
    waits for its next occurrence. *)
Definition activeService : Service :=
  after (after (after emptyService
    (createCampaign 0 "c-1" (Some "Digest") None))
    (scheduleCampaign 1000 "c-1" customExample))
    (executeCampaign 2000 "c-1").

(** A campaign in [draft], created while Redis answers with an error. *)
Definition offlineDraftService : Service :=
  after offlineService (createCampaign 0 "c-1" (Some "Launch") None).

(** A draft created at 0 and approved at 10. *)
Definition approvedDraftService : Service :=
  after (after emptyService (createDraft 0 "d-1" None))
    (approveDraft 10 "d-1" "lead@example.com").

End Campaigns.

(* ===================================================================== *)
(** * Further vocabulary: the registry, the ledger, the queue *)
(* ===================================================================== *)

Module Registry.
Import Orchestrator.

(** A call on the registry of the orchestrator. *)
Inductive RegistryCall : Type :=
  | Register (a : IAgent)
  | Unregister (i : string).

(** The registry after a call; a call that throws leaves it as it was. *)
Definition afterCall (reg : list IAgent) (c : RegistryCall) : list IAgent :=
  match c with
  | Register a =>
      match registerAgent a reg with inl reg' => reg' | inr _ => reg end
  | Unregister i =>
      match unregisterAgent i reg with inl reg' => reg' | inr _ => reg end
  end.

(** [getAgents]: the values of the map, in insertion order. *)
Definition getAgents (reg : list IAgent) : list IAgent := reg.

(** [this.agents.get(agentId)] *)
Definition getAgent (i : string) (reg : list IAgent) : option IAgent :=
  List.find (fun a => bool_decide (id a = i)) reg.

(** What the pipeline records for an agent: its result, or the failure the
    [catch] block makes of a throw. *)
Definition recorded (o : Outcome) : AgentProcessResult :=
  match o with
  | Returned r => r
  | Thrown m => caught m
  end.

(** The ledger entry of a turn once the turn is over. *)
Definition ledgerEntry (n : nat) (a : IAgent) (email input : Email) : AgentTask :=
  match process a input with
  | Returned r =>
      {| task_id := n; agentId := id a; emailId := email !! "id";
         action := "process"; parameters := input;
         status := if success r then completed else failed;
         result := Some r; task_error := finalError r |}
  | Thrown _ =>
      {| task_id := n; agentId := id a; emailId := email !! "id";
         action := "process"; parameters := input;
         status := processing; result := None; task_error := None |}
  end.

(** A database handle that was never connected. *)
Definition offlineDb : Database :=
  {| connected := false; agent_tasks := ∅ |}.

End Registry.

Module Relations.
Import Campaigns.

(** The queue hands out each job id once. *)
Definition distinctJobIds (q : Queue) : Prop :=
  NoDup (map job_id (jobs q))
  /\ Forall (fun j => (job_id j < next_job q)%nat) (jobs q).

(** The jobs that carry a campaign id, in queue order. *)
Definition jobsOf (cid : string) (q : Queue) : list Job :=
  filter (fun j => job_campaignId j = cid) (jobs q).

(** A state that differs from another at most in the campaign stored under
    [i], in the queue and in the execution log. *)
Definition sameElsewhere (i : string) (s s' : Service) : Prop :=
  drafts s' = drafts s
  /\ forall j, j ≠ i -> campaigns s' !! j = campaigns s !! j.

(** What the loop of [pauseCampaign] makes of a job [x]: it is as it was,
    or, if the loop reached it, [moveToFailed] left it in some state, with
    its id, name, campaign and options. *)
Definition moved_or_kept (reached : Job -> Prop) (x y : Job) : Prop :=
  y = x \/ (reached x /\ exists st m, y = movedJob st m x).

(** A call that leaves every state related by [R] to the state it started
    from, whether it resolves or rejects. *)
Definition keeps (R : Service -> Service -> Prop) {A} (m : Async A) : Prop :=
  forall s, R s (snd (m s)).

(** A job that [getJobs(['waiting', 'delayed'])] lists for a campaign. *)
Definition pendingFor (cid : string) (j : Job) : Prop :=
  state j ∈ [waiting; delayed] ∧ job_campaignId j = cid.

#[export] Instance pendingFor_dec cid j : Decision (pendingFor cid j).
Proof. unfold pendingFor. apply _. Defined.

(** The ids of the jobs of a list that carry a campaign id. *)
Definition idsOf (cid : string) (l : list Job) : list nat :=
  map job_id (filter (fun j => job_campaignId j = cid) l).

(** A call repeated [n] times. *)
Fixpoint times (n : nat) (m : Async unit) : Async unit :=
  match n with
  | O => resolve tt
  | S n' => let* _ := m in times n' m
  end.

(** A draft written at 5 for the campaign created at 0. *)
Definition linkedDraftService : Service :=
  after draftService (createDraft 5 "d-1" (Some "c-1")).

Definition linkedDraft : EmailDraft :=
  {| draft_id := "d-1"; campaignId := Some "c-1"; draft_status := ds_draft;
     draft_updatedAt := 5 |}.

End Relations.

(** * Listing campaigns and mock recipients *)

Module Listing.
Import Campaigns.

Inductive CampaignType : Type :=
  | one_time | recurring | drip | triggered | ab_test.

#[export] Instance CampaignType_eq_dec : EqDecision CampaignType.
Proof. solve_decision. Defined.

(** A campaign as [listCampaigns] reads it: the campaign kept in the store
    and the fields of [EmailCampaign] that only the filters and the sort
    look at ([targetAudience.tags], [metrics.engagementScore]). *)
Record ListedCampaign : Type := mkListed {
  campaign : EmailCampaign;
  ctype : CampaignType;
  createdBy : string;
  createdAt : Z;
  audienceTags : list string;
  engagementScore : QArith_base.Q
}.

Inductive SortKey : Type := created | updated | by_name | performance.
Inductive SortOrder : Type := asc | desc.

(** [CampaignFilter] (core/campaign.interfaces). *)
Record CampaignFilter : Type := mkFilter {
  f_status : option (list CampaignStatus);
  f_type : option (list CampaignType);
  f_createdBy : option string;
  dateFrom : option Z;
  dateTo : option Z;
  f_tags : option (list string);
  limit : option Z;
  offset : option Z;
  sortBy : option SortKey;
  sortOrder : option SortOrder
}.

(** [Array.prototype.slice(start, end)] on integer arguments: a negative
    index counts from the end, and both are clamped to the array. *)
Definition sliceIndex (len k : Z) : Z :=
  if k <? 0 then Z.max (len + k) 0 else Z.min k len.

Definition slice {A} (start finish : Z) (l : list A) : list A :=
  let len := Z.of_nat (List.length l) in
  let k := sliceIndex len start in
  let fin := sliceIndex len finish in
  take (Z.to_nat (fin - k)) (drop (Z.to_nat k) l).

Section Collation.
(** [a.localeCompare(b)], by its sign. *)
Variable localeCompare : string -> string -> comparison.

(** The sign of [compareValue] in the comparator of the sort. *)
Definition compareValue (k : SortKey) (a b : ListedCampaign) : comparison :=
  match k with
  | created => createdAt a ?= createdAt b
  | updated => updatedAt (campaign a) ?= updatedAt (campaign b)
  | by_name => localeCompare (name (campaign a)) (name (campaign b))
  | performance =>
      QArith_base.Qcompare (engagementScore a) (engagementScore b)
  end.

(** [filter.sortOrder === 'desc' ? -compareValue : compareValue] *)
Definition comparator (k : SortKey) (o : option SortOrder)
    (a b : ListedCampaign) : comparison :=
  match o with
  | Some desc => CompOpp (compareValue k a b)
  | _ => compareValue k a b
  end.

(** [Array.prototype.sort], stable: an element stays ahead of the ones
    that followed it unless the comparator puts it after them. *)
Fixpoint insertBy (cmp : ListedCampaign -> ListedCampaign -> comparison)
    (a : ListedCampaign) (l : list ListedCampaign) : list ListedCampaign :=
  match l with
  | [] => [a]
  | b :: l' =>
      match cmp a b with
      | Gt => b :: insertBy cmp a l'
      | _ => a :: b :: l'
      end
  end.

Fixpoint sortCampaigns (cmp : ListedCampaign -> ListedCampaign -> comparison)
    (l : list ListedCampaign) : list ListedCampaign :=
  match l with
  | [] => []
  | a :: l' => insertBy cmp a (sortCampaigns cmp l')
  end.

(** The filters of [listCampaigns], in the order of the code. *)
Definition byStatus (f : CampaignFilter) (l : list ListedCampaign) :=
  match f_status f with
  | Some (x :: xs) => filter (fun c => status (campaign c) ∈ x :: xs) l
  | _ => l
  end.

Definition byType (f : CampaignFilter) (l : list ListedCampaign) :=
  match f_type f with
  | Some (x :: xs) => filter (fun c => ctype c ∈ x :: xs) l
  | _ => l
  end.

Definition byCreator (f : CampaignFilter) (l : list ListedCampaign) :=
  match f_createdBy f with
  | Some who =>
      if bool_decide (who = "") then l
      else filter (fun c => createdBy c = who) l
  | None => l
  end.

Definition byDateFrom (f : CampaignFilter) (l : list ListedCampaign) :=
  match dateFrom f with
  | Some d => filter (fun c => d <= createdAt c) l
  | None => l
  end.

Definition byDateTo (f : CampaignFilter) (l : list ListedCampaign) :=
  match dateTo f with
  | Some d => filter (fun c => createdAt c <= d) l
  | None => l
  end.

Definition byTags (f : CampaignFilter) (l : list ListedCampaign) :=
  match f_tags f with
  | Some (x :: xs) =>
      filter (fun c => Exists (fun t => t ∈ audienceTags c) (x :: xs)) l
  | _ => l
  end.

Definition sorted (f : CampaignFilter) (l : list ListedCampaign) :=
  match sortBy f with
  | Some k => sortCampaigns (comparator k (sortOrder f)) l
  | None => l
  end.

Definition paged (f : CampaignFilter) (l : list ListedCampaign) :=
  match offset f, limit f with
  | Some o, Some n => slice o (o + n) l
  | _, _ => l
  end.

(** [listCampaigns(filter?)] over the values of the campaign map, in
    insertion order. *)
Definition listCampaigns (filter : option CampaignFilter)
    (all : list ListedCampaign) : list ListedCampaign :=
  match filter with
  | None => all
  | Some f =>
      paged f (sorted f (byTags f (byDateTo f (byDateFrom f
        (byCreator f (byType f (byStatus f all)))))))
  end.
End Collation.

(** The six filters together. *)
Definition filtered (f : CampaignFilter) (l : list ListedCampaign) :=
  byTags f (byDateTo f (byDateFrom f (byCreator f (byType f (byStatus f l))))).

(** A campaign that every filter in force lets through. *)
Definition passes (f : CampaignFilter) (c : ListedCampaign) : Prop :=
  (forall x xs, f_status f = Some (x :: xs) -> status (campaign c) ∈ x :: xs)
  /\ (forall x xs, f_type f = Some (x :: xs) -> ctype c ∈ x :: xs)
  /\ (forall who, f_createdBy f = Some who -> who ≠ "" -> createdBy c = who)
  /\ (forall d, dateFrom f = Some d -> d <= createdAt c)
  /\ (forall d, dateTo f = Some d -> createdAt c <= d)
  /\ (forall x xs, f_tags f = Some (x :: xs) ->
        exists t, t ∈ x :: xs /\ t ∈ audienceTags c).

(** The same filter without a page. *)
Definition unpaged (f : CampaignFilter) : CampaignFilter :=
  {| f_status := f_status f; f_type := f_type f;
     f_createdBy := f_createdBy f; dateFrom := dateFrom f;
     dateTo := dateTo f; f_tags := f_tags f; limit := None;
     offset := None; sortBy := sortBy f; sortOrder := sortOrder f |}.

(** ** [generateMockRecipients] *)

(** A mock recipient; [preferences] and [engagementHistory] are the same
    constants for all of them. *)
Record MockRecipient : Type := mkRecipient {
  r_email : string;
  r_name : string;
  r_company : string;
  r_title : option string;
  r_linkedinUrl : string;
  r_industry : option string
}.

Definition mockRecipient (i : nat) : MockRecipient :=
  {| r_email := "user" +:+ pretty i +:+ "@example.com";
     r_name := "User " +:+ pretty i;
     r_company := "Company " +:+ pretty (i mod 10)%nat;
     r_title := ["CEO"; "CTO"; "Manager"; "Developer"] !! (i mod 4)%nat;
     r_linkedinUrl := "https://linkedin.com/in/user" +:+ pretty i;
     r_industry := ["Tech"; "Finance"; "Healthcare"] !! (i mod 3)%nat |}.

(** [for (let i = 0; i < count; i++) recipients.push(...)], for an integer
    [count]. *)
Definition generateMockRecipients (count : Z) : list MockRecipient :=
  map mockRecipient (seq 0 (Z.to_nat count)).

(** ** Sample campaigns and filter *)

(** Two stored campaigns and a filter: drafts only, by creation date, the
    first page of one. *)
Definition listedLaunch : ListedCampaign :=
  {| campaign := draftLaunch; ctype := one_time; createdBy := "ana";
     createdAt := 10; audienceTags := ["beta"];
     engagementScore := QArith_base.Qmake 0 1 |}.

Definition listedDigest : ListedCampaign :=
  {| campaign := scheduledLaunch; ctype := recurring; createdBy := "bo";
     createdAt := 20; audienceTags := [];
     engagementScore := QArith_base.Qmake 0 1 |}.

Definition draftsFirstPage : CampaignFilter :=
  {| f_status := Some [st_draft]; f_type := None; f_createdBy := None;
     dateFrom := None; dateTo := None; f_tags := None;
     limit := Some 1; offset := Some 0;
     sortBy := Some created; sortOrder := None |}.

End Listing.

(** * The base agent and the categorizer *)

Module Agents.
Import Orchestrator.

#[export] Instance JsValue_eq_dec : EqDecision JsValue.
Proof. solve_decision. Defined.

(** ** [BaseAgent] (agents/base.agent.ts) *)

(** What an awaited operation gives: a value, or a thrown value ([Some m]
    for an [Error] with message [m]). *)
Inductive Attempt (A : Type) : Type :=
  | Done (a : A)
  | Raised (message : option string).
Arguments Done {A} a.
Arguments Raised {A} message.

Record Metrics : Type := mkMetrics {
  processedCount : Z;
  errorCount : Z;
  totalTime : Z
}.

(** The fields of a [BaseAgent] that change after construction. *)
Record BaseAgent : Type := mkBase {
  isActive : bool;
  currentTask : option string;
  metrics : Metrics
}.

(** [measurePerformance(task, operation)]; [startTime] and [finishTime] are
    the two readings of [Date.now()], the second taken only when the
    operation resolves. *)
Definition measurePerformance {A} (task : string) (startTime finishTime : Z)
    (operation : Attempt A) (st : BaseAgent) : Attempt A * BaseAgent :=
  match operation with
  | Done result =>
      let duration := finishTime - startTime in
      (Done result,
       {| isActive := isActive st; currentTask := None;
          metrics := {| processedCount := processedCount (metrics st) + 1;
                        errorCount := errorCount (metrics st);
                        totalTime := totalTime (metrics st) + duration |} |})
  | Raised e =>
      (Raised e,
       {| isActive := isActive st; currentTask := None;
          metrics := {| processedCount := processedCount (metrics st);
                        errorCount := errorCount (metrics st) + 1;
                        totalTime := totalTime (metrics st) |} |})
  end.

(** A measured run: its two clock readings and what the operation gave. *)
Record Measured (A : Type) : Type := mkMeasured {
  started : Z;
  finished : Z;
  gave : Attempt A
}.
Arguments started {A} _.
Arguments finished {A} _.
Arguments gave {A} _.

Definition measure {A} (task : string) (st : BaseAgent) (m : Measured A)
    : BaseAgent :=
  snd (measurePerformance task (started m) (finished m) (gave m) st).

Definition resolved {A} (m : Measured A) : bool :=
  match gave m with Done _ => true | Raised _ => false end.

(** ** [CategorizerAgent] (agents/categorizer.agent.ts) *)

(** A [Set] of strings, in insertion order. *)
Definition setAdd (x : string) (l : list string) : list string :=
  if bool_decide (x ∈ l) then l else l ++ [x].

Definition newSet (l : list string) : list string :=
  foldl (fun acc x => setAdd x acc) [] l.

Definition setDelete (x : string) (l : list string) : list string :=
  filter (fun y => y ≠ x) l.

(** [updateLabels(currentLabels, category)] *)
Definition updateLabels (currentLabels : list string) (category : string)
    : list string :=
  let labels := setAdd category (newSet currentLabels) in
  if bool_decide (category = "spam") then setDelete "inbox" labels
  else labels.

(** [email.labels], an array of strings by the type of [Email]. *)
Definition labelsOf (email : Email) : list string :=
  match email !! "labels" with
  | Some (JStrs l) => l
  | _ => []
  end.

(** The operation that [process] hands to [measurePerformance].
    [categorizeEmail], which rests on regular expressions and on a trained
    classifier, is a parameter: it gives a category or throws. *)
Definition categorize (categorizeEmail : Email -> Attempt string)
    (email : Email) : AgentProcessResult :=
  match categorizeEmail email with
  | Done category =>
      if bool_decide (Some (JStr category) ≠ email !! "category")
      then {| success := true;
              modifications :=
                Some {[ "category" := JStr category;
                        "labels" := JStrs (updateLabels (labelsOf email)
                                             category) ]};
              error := None |}
      else {| success := true; modifications := None; error := None |}
  | Raised m =>
      {| success := false; modifications := None;
         error := Some (default "Unknown error" m) |}
  end.

(** [process(email)]: the operation under [measurePerformance]. *)
Definition categorizerRun (categorizeEmail : Email -> Attempt string)
    (startTime finishTime : Z) (email : Email) (st : BaseAgent)
    : Attempt AgentProcessResult * BaseAgent :=
  measurePerformance "categorize-email" startTime finishTime
    (Done (categorize categorizeEmail email)) st.

Definition outcomeOf (a : Attempt AgentProcessResult) : Outcome :=
  match a with
  | Done r => Returned r
  | Raised m => Thrown m
  end.

Definition idle : BaseAgent :=
  {| isActive := true; currentTask := None;
     metrics := {| processedCount := 0; errorCount := 0; totalTime := 0 |} |}.

(** A categorizer as the orchestrator holds it.  What [process] resolves to
    depends neither on the clock nor on the counters, so they are fixed. *)
Definition categorizerAgent (i n : string) (p : Z)
    (categorizeEmail : Email -> Attempt string) : IAgent :=
  {| id := i; name := n; type := "categorizer"; priority := p;
     process := fun email =>
       outcomeOf (fst (categorizerRun categorizeEmail 0 0 email idle)) |}.

(** The sum of the durations of the runs that resolved. *)
Definition resolvedTime {A} (runs : list (Measured A)) : Z :=
  foldr (fun m acc => if resolved m then finished m - started m + acc else acc)
        0 runs.

Definition countIf {A} (p : A -> bool) (l : list A) : Z :=
  Z.of_nat (List.length (List.filter p l)).

(** A categorizer whose classifier files everything under work. *)
Definition sorter : IAgent :=
  categorizerAgent "agent-cat" "sorter" 5 (fun _ => Done "work").

End Agents.

(** * The draft generator (services/draft-generator.service.ts) *)

Module DraftGeneratorService.
Import Campaigns Listing Agents.

(** [GenerationOptions]; an absent field is [None] or [false]. *)
Record GenerationOptions : Type := mkOptions {
  tone : option string;
  opt_length : option string;
  includeLinkedIn : bool;
  includeNews : bool;
  personalizationLevel : option string;
  optimizeForEngagement : bool;
  abTestVariations : option Z
}.

(** [options = {}], the default of [generateDraft]. *)
Definition noOptions : GenerationOptions :=
  {| tone := None; opt_length := None; includeLinkedIn := false;
     includeNews := false; personalizationLevel := None;
     optimizeForEngagement := false; abTestVariations := None |}.

(** The options with which [CampaignService.generateDrafts] calls
    [generateBulkDrafts]. *)
Definition draftsOptions : GenerationOptions :=
  {| tone := Some "professional"; opt_length := None;
     includeLinkedIn := true; includeNews := true;
     personalizationLevel := Some "high"; optimizeForEngagement := true;
     abTestVariations := None |}.

(** [preferences.topics] of a mock recipient. *)
Definition mockTopics : list string := ["technology"; "innovation"; "business"].

(** [initializeTemplates]: the three templates of the service. *)
Definition introductionTemplate : string :=
  "
Dear {{name}},

I hope this message finds you well. {{personalized_intro}}

{{main_content}}

{{call_to_action}}

Best regards,
{{sender_name}}
    ".

Definition newsletterTemplate : string :=
  "
Hi {{name}}!

{{news_digest}}

{{linkedin_insights}}

{{main_content}}

{{footer}}
    ".

Definition followUpTemplate : string :=
  "
Hi {{name}},

I wanted to follow up on our previous conversation about {{topic}}.

{{main_content}}

{{next_steps}}

Looking forward to hearing from you.

Best,
{{sender_name}}
    ".

Definition templates : gmap string string :=
  {[ "introduction" := introductionTemplate;
     "newsletter" := newsletterTemplate;
     "follow_up" := followUpTemplate ]}.

(** [selectTemplate(campaignType)] *)
Definition selectTemplate (campaignType : string) : string :=
  if bool_decide (campaignType = "newsletter") then "newsletter"
  else if bool_decide (campaignType = "follow_up") then "follow_up"
  else "introduction".

(** [this.templates.get(templateKey) || this.templates.get('introduction')!] *)
Definition templateFor (campaignType : string) : string :=
  orString (templates !! selectTemplate campaignType)
    (default "" (templates !! "introduction")).

(** Reading a name that nothing in scope binds throws a [ReferenceError]. *)
Definition referenceError (x : string) : string := x +:+ " is not defined".

(** [generatePersonalizedIntro(_data, level)].  The parameter is [_data];
    the object literal [intros] is built before [level] is looked at, and
    its entry 'medium' reads [data.company], a name that neither the method
    nor the module binds. *)
Definition generatePersonalizedIntro (level : string) : Attempt string :=
  Raised (Some (referenceError "data")).

Section Services.
(** What the LinkedIn and the news service hand back. *)
Variable Fetched : Type.

(** A value of the personalization data. *)
Inductive Datum : Type :=
  | Text (s : string)
  | Undefined
  | Remote (v : Fetched).

(** [Record<string, any>]: the own keys in insertion order. *)
Definition Data : Type := list (string * Datum).

(** [data.key = v] and a key of an object literal: an own key keeps its
    place and takes the value, a new one goes last. *)
Definition setKey (k : string) (v : Datum) (d : Data) : Data :=
  if bool_decide (k ∈ d.*1)
  then map (fun kv => if bool_decide (kv.1 = k) then (k, v) else kv) d
  else d ++ [(k, v)].

(** The integrations: [linkedInService.fetchProfile] and
    [generateInsights], [newsService.fetchArticles] and [generateDigest],
    [articles.slice(0, 5)]. *)
Variable fetchProfile : string -> Attempt Fetched.
Variable generateInsights : Fetched -> Attempt Fetched.
Variable fetchArticles : list string -> Attempt Fetched.
Variable generateDigest : Fetched -> Z -> Attempt Fetched.
Variable firstFive : Fetched -> Fetched.

(** [new RegExp(source, 'g')]: the message of the [SyntaxError] when the
    engine refuses the source. *)
Variable regExpError : string -> option string.

(** [content.replace(placeholder, data[key] || '')] for the key, and
    [content.replace(search, value)] for a string to search. *)
Variable replaceKey : string -> Datum -> string -> string.
Variable replaceFirst : string -> string -> string -> string.

(** [content.replace(/{{[^}]+}}/g, '').trim()] *)
Variable cleanUp : string -> string.

(** [campaign.type] and [campaign.content.body || ''], fields that
    [EmailCampaign] above does not carry. *)
Variable campaignType : EmailCampaign -> string.
Variable mainContent : EmailCampaign -> string.

(** What [generateContent] and [generateDraft] do with the personalized
    text: subject line, preheader, calls to action, HTML, optimization,
    metrics, a fresh id and the dates. *)
Variable compose :
  EmailCampaign -> MockRecipient -> GenerationOptions -> Data -> string ->
  Attempt EmailDraft.

(** [{ ...recipient.customFields, name: recipient.name || 'there',
       company: recipient.company, title: recipient.title }] *)
Definition ownFields (r : MockRecipient) : Data :=
  setKey "title" (from_option Text Undefined (r_title r))
    (setKey "company" (Text (r_company r))
       (setKey "name" (Text (orString (Some (r_name r)) "there"))
          [("industry", from_option Text Undefined (r_industry r))])).

(** The two [try] blocks of [gatherPersonalizationData]: a failure of an
    integration is logged and leaves the data as they were. *)
Definition withLinkedIn (r : MockRecipient) (o : GenerationOptions)
    (data : Data) : Data :=
  if includeLinkedIn o && bool_decide (r_linkedinUrl r ≠ "")
  then match fetchProfile (r_linkedinUrl r) with
       | Done profile =>
           match generateInsights profile with
           | Done insights =>
               setKey "linkedinProfile" (Remote profile)
                 (setKey "linkedinInsights" (Remote insights) data)
           | Raised _ => data
           end
       | Raised _ => data
       end
  else data.

Definition withNews (o : GenerationOptions) (data : Data) : Data :=
  if includeNews o && bool_decide (0 < List.length mockTopics)%nat
  then match fetchArticles mockTopics with
       | Done articles =>
           match generateDigest articles 3 with
           | Done digest =>
               setKey "newsArticles" (Remote (firstFive articles))
                 (setKey "newsDigest" (Remote digest) data)
           | Raised _ => data
           end
       | Raised _ => data
       end
  else data.

(** [gatherPersonalizationData(recipient, options)]; the engagement history
    of a mock recipient is empty, so no engagement level is added. *)
Definition gatherPersonalizationData (r : MockRecipient)
    (o : GenerationOptions) : Data :=
  withNews o (withLinkedIn r o (ownFields r)).

(** [Object.keys(data).forEach(key => ...)] in [applyPersonalizations]. *)
Fixpoint replaceKeys (data : Data) (content : string) : Attempt string :=
  match data with
  | [] => Done content
  | (key, v) :: rest =>
      match regExpError ("{{" +:+ key +:+ "}}") with
      | Some m => Raised (Some m)
      | None => replaceKeys rest (replaceKey key v content)
      end
  end.

(** [applyPersonalizations(template, campaignContent, data, options)] *)
Definition applyPersonalizations (template body : string) (data : Data)
    (o : GenerationOptions) : Attempt string :=
  match replaceKeys data template with
  | Raised m => Raised m
  | Done content =>
      let content := replaceFirst "{{main_content}}" body content in
      let introLevel := orString (personalizationLevel o) "medium" in
      match generatePersonalizedIntro introLevel with
      | Raised m => Raised m
      | Done intro =>
          Done (cleanUp (replaceFirst "{{personalized_intro}}" intro content))
      end
  end.

(** [generateDraft(campaign, recipient, options)]: the data, the
    personalized text of [generateContent] (whose [catch] logs and throws
    the error on), the rest, and the [catch] of [generateDraft]. *)
Definition generateDraft (campaign : EmailCampaign) (r : MockRecipient)
    (o : GenerationOptions) : Attempt EmailDraft :=
  let personalizationData := gatherPersonalizationData r o in
  let attempt :=
    match applyPersonalizations (templateFor (campaignType campaign))
            (mainContent campaign) personalizationData o with
    | Raised m => Raised m
    | Done personalizedContent =>
        compose campaign r o personalizationData personalizedContent
    end in
  match attempt with
  | Done draft => Done draft
  | Raised m =>
      Raised (Some ("Failed to generate draft: "
                    +:+ default "Unknown error" m))
  end.
End Services.

Arguments Text {Fetched} s.
Arguments Undefined {Fetched}.
Arguments Remote {Fetched} v.

(** Integrations that are out of reach, an engine that takes every
    pattern, and a rest that writes a draft for the recipient. *)
Definition sampleGenerateDraft (c : EmailCampaign) (r : MockRecipient)
    : Attempt EmailDraft :=
  generateDraft unit
    (fun _ => Raised None) (fun _ => Raised None)
    (fun _ => Raised None) (fun _ _ => Raised None) (fun x => x)
    (fun _ => None) (fun _ _ s => s) (fun _ _ s => s) (fun s => s)
    (fun _ => "one-time") (fun _ => "")
    (fun c r _ _ _ =>
       Done {| draft_id := "draft-" +:+ r_email r; campaignId := Some (id c);
               draft_status := ds_draft; draft_updatedAt := 0 |})
    c r draftsOptions.

End DraftGeneratorService.

(** * Generating drafts in bulk *)

Module Drafting.
Import Campaigns Listing Agents.

(** [Promise.all] over promises that have settled.  When several reject,
    which one rejects first is a matter of timing; they are taken here in
    the order of the array. *)
Fixpoint promiseAll {A} (l : list (Attempt A)) : Attempt (list A) :=
  match l with
  | [] => Done []
  | Done a :: l' =>
      match promiseAll l' with
      | Done rest => Done (a :: rest)
      | Raised m => Raised m
      end
  | Raised m :: _ => Raised m
  end.

Section Generator.
(** The loop and its callers, for whatever [this.generateDraft] answers
    for a recipient under the options of the caller.  The method of the
    source is [DraftGeneratorService.generateDraft] above. *)
Variable generateDraft : EmailCampaign -> MockRecipient -> Attempt EmailDraft.

(** The loop of [generateBulkDrafts], batches of ten; [None] when the
    fuel runs out before the loop ends. *)
Fixpoint bulkLoop (fuel : nat) (campaign : EmailCampaign)
    (recipients : list MockRecipient) (i : nat) (drafts : list EmailDraft)
    : option (Attempt (list EmailDraft)) :=
  match fuel with
  | O => None
  | S fuel' =>
      if (i <? List.length recipients)%nat
      then
        let batch := take 10 (drop i recipients) in
        match promiseAll (map (generateDraft campaign) batch) with
        | Done batchDrafts =>
            bulkLoop fuel' campaign recipients (i + 10)
              (drafts ++ batchDrafts)
        | Raised m => Some (Raised m)
        end
      else Some (Done drafts)
  end.

(** [generateBulkDrafts(campaign, recipients, options)] with its
    [catch].  One round of fuel per recipient and one more is enough (see
    [bulkLoop_ends]), so the last case does not arise. *)
Definition generateBulkDrafts (campaign : EmailCampaign)
    (recipients : list MockRecipient) : Attempt (list EmailDraft) :=
  match bulkLoop (S (List.length recipients)) campaign recipients 0 [] with
  | Some (Done ds) => Done ds
  | Some (Raised m) =>
      Raised (Some ("Failed to generate bulk drafts: "
                    +:+ default "Unknown error" m))
  | None => Raised None
  end.

(** [drafts.forEach(draft => this.drafts.set(draft.id, draft))] *)
Definition storeDrafts (l : list EmailDraft) : Async unit :=
  fun s =>
    (Resolved tt,
     withDrafts s (foldl (fun m d => <[draft_id d := d]> m) (drafts s) l)).

(** [CampaignService.generateDrafts(campaignId, count)] *)
Definition generateDrafts (campaignId : string) (count : Z)
    : Async (list EmailDraft) :=
  rethrow "Failed to generate drafts: "
    (let* c := getCampaign campaignId in
     match c with
     | None => throw (notFound campaignId)
     | Some campaign =>
         let recipients := generateMockRecipients count in
         match generateBulkDrafts campaign recipients with
         | Done ds => let* _ := storeDrafts ds in resolve ds
         | Raised m => throw (default "Unknown error" m)
         end
     end).
End Generator.

(** A generator that writes a draft for every recipient. *)
Definition draftFor (r : MockRecipient) : EmailDraft :=
  {| draft_id := "draft-" +:+ r_email r; campaignId := Some "c-1";
     draft_status := ds_draft; draft_updatedAt := 0 |}.

End Drafting.

(* ===================================================================== *)
(** * Properties of the agent pipeline *)
(* ===================================================================== *)

Module PipelineProofs.
Import Orchestrator Registry.

(** ** The loop, one turn at a time *)

Lemma runAgent_step email st a :
  connected (db st) = true ->
  connected (db (runAgent email st a)) = true
  /\ processedEmail (runAgent email st a) = apply_unit (processedEmail st) a
  /\ calls (runAgent email st a) = calls st ++ [(id a, processedEmail st)].
Proof.
  intros Hc.
  unfold runAgent, saveAgentTask, apply_unit, successful_modifications, merge.
  rewrite Hc. destruct (process a (processedEmail st)) as [r|m]; simpl.
  - destruct (success r), (modifications r); simpl; auto.
  - auto.
Qed.

Lemma foldl_runAgent email l : forall st,
  connected (db st) = true ->
  connected (db (foldl (runAgent email) st l)) = true
  /\ processedEmail (foldl (runAgent email) st l)
     = sequential_application l (processedEmail st)
  /\ calls (foldl (runAgent email) st l)
     = calls st ++ accumulated_inputs l (processedEmail st).
Proof.
  induction l as [|a l IH]; intros st Hc; simpl.
  - rewrite app_nil_r. auto.
  - destruct (runAgent_step email st a Hc) as (Hc' & He & Hk).
    destruct (IH _ Hc') as (H1 & H2 & H3).
    split; [exact H1|]. split.
    + rewrite H2, He. reflexivity.
    + rewrite H3, Hk, He, <- app_assoc. reflexivity.
Qed.

Lemma accumulated_inputs_ids l : forall e,
  map fst (accumulated_inputs l e) = map id l.
Proof. induction l as [|a l IH]; intros e; simpl; [|rewrite IH]; reflexivity. Qed.

(** A turn reads only the [id] and the [process] of the agent. *)
Lemma runAgent_withPriority p email st a :
  runAgent email st (withPriority p a) = runAgent email st a.
Proof. reflexivity. Qed.

Lemma foldl_runAgent_withPriority p email l : forall st,
  foldl (runAgent email) st (map (withPriority p) l)
  = foldl (runAgent email) st l.
Proof.
  induction l as [|a l IH]; intros st; simpl; [reflexivity|].
  rewrite runAgent_withPriority. apply IH.
Qed.

(** ** The sort *)

(** For a type that is not an inherited name, the code's table and the
    table of the specification agree. *)
Lemma typePriority_own t :
  t ∉ objectPrototypeMembers ->
  typePriority t = Numeric (points (tableRank t)).
Proof.
  intros Hown.
  destruct (decide (t = "security")) as [->|H1]; [reflexivity|].
  destruct (decide (t = "filter")) as [->|H2]; [reflexivity|].
  destruct (decide (t = "categorizer")) as [->|H3]; [reflexivity|].
  destruct (decide (t = "prioritizer")) as [->|H4]; [reflexivity|].
  destruct (decide (t = "summarizer")) as [->|H5]; [reflexivity|].
  destruct (decide (t = "translator")) as [->|H6]; [reflexivity|].
  destruct (decide (t = "responder")) as [->|H7]; [reflexivity|].
  destruct (decide (t = "scheduler")) as [->|H8]; [reflexivity|].
  unfold typePriority, tableRank, typePriorityTable, rankIn, priorityMap.
  simpl. rewrite !lookup_insert_ne by congruence. rewrite lookup_empty.
  rewrite bool_decide_eq_false_2 by exact Hown.
  rewrite !bool_decide_eq_false_2 by congruence. reflexivity.
Qed.

Lemma typePriority_inherited t :
  t ∈ objectPrototypeMembers -> typePriority t = Inherited.
Proof.
  unfold objectPrototypeMembers. rewrite !elem_of_cons, elem_of_nil.
  intros H. repeat (destruct H as [->|H]; [reflexivity|]). destruct H.
Qed.

Lemma typePriority_numeric t n :
  typePriority t = Numeric n -> n = points (tableRank t).
Proof.
  intros E. destruct (decide (t ∈ objectPrototypeMembers)) as [Hin|Hown].
  - rewrite (typePriority_inherited t Hin) in E. discriminate.
  - rewrite (typePriority_own t Hown) in E. congruence.
Qed.

Lemma points_le r1 r2 : points r1 <= points r2 <-> (r1 <= r2)%nat.
Proof.
  unfold points.
  destruct (Nat.eqb_spec r1 0), (Nat.eqb_spec r2 0); lia.
Qed.

(** The test of the insertion, on two types of the registry's own. *)
Lemma keeps_ahead_own ta tb :
  ta ∉ objectPrototypeMembers ->
  tb ∉ objectPrototypeMembers ->
  (sortCompare (comparePriority ta tb) <=? 0)
  = bool_decide (tableRank tb <= tableRank ta)%nat.
Proof.
  intros Ha Hb. unfold comparePriority.
  rewrite (typePriority_own ta Ha), (typePriority_own tb Hb). simpl.
  pose proof (points_le (tableRank tb) (tableRank ta)) as Hp.
  destruct (Z.leb_spec (points (tableRank tb) - points (tableRank ta)) 0);
    case_bool_decide; try reflexivity; lia.
Qed.

Section SortFacts.
Context {A : Type} (typeOf : A -> string).

Lemma insertByType_perm a l : Permutation (insertByType typeOf a l) (a :: l).
Proof.
  induction l as [|b l IH]; simpl; [reflexivity|].
  destruct (_ <=? _); [reflexivity|].
  rewrite IH. apply perm_swap.
Qed.

Lemma sortByType_perm l : Permutation (sortByType typeOf l) l.
Proof.
  induction l as [|a l IH]; simpl; [reflexivity|].
  rewrite insertByType_perm. by constructor.
Qed.

Lemma own_perm l l' : Permutation l l' -> own typeOf l -> own typeOf l'.
Proof. intros Hp. unfold own. by rewrite Hp. Qed.

Lemma insertByType_sorted a l :
  own typeOf (a :: l) ->
  StronglySorted (ahead typeOf) l ->
  StronglySorted (ahead typeOf) (insertByType typeOf a l).
Proof.
  intros Hown Hs. induction Hs as [|b l Hs IH Hall]; simpl.
  - repeat constructor.
  - apply Forall_cons in Hown as [Ha Hl].
    pose proof Hl as Hl'. apply Forall_cons in Hl' as [Hb Hl'].
    rewrite keeps_ahead_own by assumption. case_bool_decide as Hle.
    + constructor; [by constructor|]. constructor; [exact Hle|].
      eapply Forall_impl; [exact Hall|]. unfold ahead. intros; lia.
    + constructor; [apply IH; by constructor|].
      rewrite (insertByType_perm a l).
      constructor; [unfold ahead; lia|exact Hall].
Qed.

Lemma sortByType_sorted l :
  own typeOf l -> StronglySorted (ahead typeOf) (sortByType typeOf l).
Proof.
  induction l as [|a l IH]; intros Hown; simpl; [constructor|].
  pose proof Hown as Hown'. apply Forall_cons in Hown' as [Ha Hl].
  apply insertByType_sorted; [|by apply IH].
  constructor; [exact Ha|].
  apply (own_perm l); [apply Permutation_sym, sortByType_perm|exact Hl].
Qed.

Lemma insertByType_map (g : A -> A) a l :
  (forall x, typeOf (g x) = typeOf x) ->
  insertByType typeOf (g a) (map g l) = map g (insertByType typeOf a l).
Proof.
  intros Hg. induction l as [|b l IH]; simpl; [reflexivity|].
  rewrite !Hg. destruct (_ <=? _); simpl; [reflexivity|]. by rewrite IH.
Qed.

Lemma sortByType_map (g : A -> A) l :
  (forall x, typeOf (g x) = typeOf x) ->
  sortByType typeOf (map g l) = map g (sortByType typeOf l).
Proof.
  intros Hg. induction l as [|a l IH]; simpl; [reflexivity|].
  rewrite IH. by apply insertByType_map.
Qed.

(** Taking one element out of the registry takes it out of the sorted list
    and moves nobody else. *)
Lemma insertByType_head a l :
  own typeOf (a :: l) ->
  Forall (fun x => ahead typeOf a x) l ->
  insertByType typeOf a l = a :: l.
Proof.
  intros Hown Hall. destruct l as [|c l]; simpl; [reflexivity|].
  apply Forall_cons in Hown as [Ha Hl]. apply Forall_cons in Hl as [Hc _].
  apply Forall_cons in Hall as [Hle _].
  rewrite keeps_ahead_own by assumption.
  by rewrite bool_decide_eq_true_2.
Qed.

Lemma insertByType_around a b s1 : forall s2,
  own typeOf (a :: s1 ++ b :: s2) ->
  StronglySorted (ahead typeOf) (s1 ++ b :: s2) ->
  exists t1 t2,
    insertByType typeOf a (s1 ++ b :: s2) = t1 ++ b :: t2
    /\ insertByType typeOf a (s1 ++ s2) = t1 ++ t2.
Proof.
  induction s1 as [|c s1 IH]; intros s2 Hown Hs; simpl in *.
  - apply Forall_cons in Hown as [Ha Hl].
    pose proof Hl as Hl'. apply Forall_cons in Hl' as [Hb Hs2own].
    inversion Hs as [|? ? Hs2 Hall]; subst.
    rewrite keeps_ahead_own by assumption. case_bool_decide as Hle.
    + exists [a], s2. split; [reflexivity|]. simpl.
      apply insertByType_head; [by constructor|].
      eapply Forall_impl; [exact Hall|]. unfold ahead. intros; lia.
    + exists [], (insertByType typeOf a s2). split; reflexivity.
  - apply Forall_cons in Hown as [Ha Hl].
    pose proof Hl as Hl'. apply Forall_cons in Hl' as [Hc Hrest].
    inversion Hs as [|? ? Hs' Hall]; subst.
    destruct (sortCompare (comparePriority (typeOf a) (typeOf c)) <=? 0).
    + exists (a :: c :: s1), s2. split; reflexivity.
    + destruct (IH s2) as (t1 & t2 & E1 & E2);
        [by constructor|exact Hs'|].
      exists (c :: t1), t2. rewrite E1, E2. split; reflexivity.
Qed.

Lemma sortByType_without b l1 : forall l2,
  own typeOf (l1 ++ b :: l2) ->
  exists s1 s2,
    sortByType typeOf (l1 ++ b :: l2) = s1 ++ b :: s2
    /\ sortByType typeOf (l1 ++ l2) = s1 ++ s2.
Proof.
  induction l1 as [|a l1 IH]; intros l2 Hown; simpl.
  - induction (sortByType typeOf l2) as [|c s IHs]; simpl.
    + exists [], []. split; reflexivity.
    + destruct (_ <=? _).
      * exists [], (c :: s). split; reflexivity.
      * destruct IHs as (s1 & s2 & E1 & E2).
        exists (c :: s1), s2. simpl. rewrite E1, E2. split; reflexivity.
  - simpl in Hown. apply Forall_cons in Hown as [Ha Hl].
    destruct (IH l2 Hl) as (s1 & s2 & E1 & E2). rewrite E1, E2.
    apply insertByType_around.
    + constructor; [exact Ha|]. rewrite <- E1.
      apply (own_perm (l1 ++ b :: l2));
        [apply Permutation_sym, sortByType_perm|exact Hl].
    + rewrite <- E1. by apply sortByType_sorted.
Qed.

(** Elements of one table rank keep the order they had. *)
Lemma insertByType_filter (P : A -> Prop) `{forall x, Decision (P x)} a l :
  (forall x y, P x -> P y ->
     sortCompare (comparePriority (typeOf x) (typeOf y)) = 0) ->
  filter P (insertByType typeOf a l) = filter P (a :: l).
Proof.
  intros Hsame. induction l as [|b l IH]; simpl; [reflexivity|].
  destruct (Z.leb_spec (sortCompare (comparePriority (typeOf a) (typeOf b))) 0)
    as [Hle|Hgt]; [reflexivity|].
  rewrite filter_cons, IH, !filter_cons.
  destruct (decide (P b)), (decide (P a)); try reflexivity.
  rewrite Hsame in Hgt by assumption. lia.
Qed.

End SortFacts.

Lemma sortAgents_perm l : Permutation (sortAgents l) l.
Proof. apply sortByType_perm. Qed.

Lemma sortAgents_sorted l :
  ownTypes l -> StronglySorted runs_before (sortAgents l).
Proof. apply (sortByType_sorted type). Qed.

Lemma sortAgents_map (g : IAgent -> IAgent) l :
  (forall x, type (g x) = type x) ->
  sortAgents (map g l) = map g (sortAgents l).
Proof. apply sortByType_map. Qed.

Lemma sortAgents_without b l1 l2 :
  ownTypes (l1 ++ b :: l2) ->
  exists s1 s2,
    sortAgents (l1 ++ b :: l2) = s1 ++ b :: s2
    /\ sortAgents (l1 ++ l2) = s1 ++ s2.
Proof. apply (sortByType_without type). Qed.

Lemma sequential_application_skip b s1 s2 e :
  (forall x, successful_modifications b x = None) ->
  sequential_application (s1 ++ b :: s2) e = sequential_application (s1 ++ s2) e.
Proof.
  intros Hb. unfold sequential_application. rewrite !foldl_app. simpl.
  unfold apply_unit at 2. rewrite Hb. reflexivity.
Qed.

Lemma pipeline_order_aux d u l email :
  connected d = true ->
  calls (runPipeline d u l email) = accumulated_inputs (sortAgents l) email
  /\ processedEmail (runPipeline d u l email)
     = sequential_application (sortAgents l) email.
Proof.
  intros Hc. unfold runPipeline.
  pose proof (foldl_runAgent email (sortAgents l)
    {| db := d; uuids := u; agentResults := ∅;
       processedEmail := email; calls := [] |} Hc) as (_ & He & Hk).
  simpl in He, Hk. split; assumption.
Qed.

(** Without a database handle the first [saveAgentTask] of every turn
    throws: no agent is called and the email comes back as it went in. *)
Lemma runAgent_disconnected email st a :
  connected (db st) = false ->
  connected (db (runAgent email st a)) = false
  /\ processedEmail (runAgent email st a) = processedEmail st
  /\ calls (runAgent email st a) = calls st.
Proof.
  intros Hc. unfold runAgent, saveAgentTask. rewrite Hc. simpl. auto.
Qed.

Lemma foldl_runAgent_disconnected email l : forall st,
  connected (db st) = false ->
  calls (foldl (runAgent email) st l) = calls st
  /\ processedEmail (foldl (runAgent email) st l) = processedEmail st.
Proof.
  induction l as [|a l IH]; intros st H; simpl; [auto|].
  destruct (runAgent_disconnected email st a H) as (H1 & H2 & H3).
  destruct (IH _ H1) as [-> ->]. auto.
Qed.

Lemma pipeline_disconnected d u l email :
  connected d = false ->
  calls (runPipeline d u l email) = []
  /\ processedEmail (runPipeline d u l email) = email.
Proof.
  intros Hc. unfold runPipeline.
  exact (foldl_runAgent_disconnected email (sortAgents l)
           {| db := d; uuids := u; agentResults := ∅;
              processedEmail := email; calls := [] |} Hc).
Qed.

(** ** The pipeline contract *)

(** Agents of one table rank keep the order of the registry. *)
Lemma sortAgents_rank_stable r l :
  filter (fun a => tableRank (type a) = r) (sortAgents l)
  = filter (fun a => tableRank (type a) = r) l.
Proof.
  induction l as [|a l IH]; simpl; [reflexivity|].
  rewrite insertByType_filter, !filter_cons, IH; [reflexivity|].
  intros x y Hx Hy. unfold comparePriority.
  destruct (typePriority (type y)) as [n|] eqn:Ey; [|reflexivity].
  destruct (typePriority (type x)) as [m|] eqn:Ex; [|reflexivity].
  apply typePriority_numeric in Ex, Ey. rewrite Ex, Ey, Hx, Hy. simpl. lia.
Qed.

(** C1, counterexample.  Without a database handle the first save of every
    turn throws inside the [try]: a summarizer whose [process] would succeed
    is registered, it is never invoked, and the email returned is the
    caller's and not the one its modifications give. *)
Lemma ledger_down_no_unit_invoked :
  connected offlineDb = false
  /\ calls (runPipeline offlineDb 0 [tagger] inbound) = []
  /\ finalEmail (processEmailInternal offlineDb 0 [tagger] inbound) = inbound
  /\ sequential_application [tagger] inbound <> inbound.
Proof.
  split; [reflexivity|]. split; [reflexivity|]. split; [reflexivity|].
  intros H. apply (f_equal (fun m : Email => m !! "snippet")) in H.
  vm_compute in H. discriminate.
Qed.

(** C1, amended.  With the task ledger writable and no type that is the
    name of an inherited member, the pipeline invokes every registered agent
    once, in the order of the type table (a permutation of the registry in
    which no agent comes before one of a higher rank, agents of one rank in
    registration order), each with the email accumulated so far; the email
    it returns is the sequential application, in that order, of the
    modifications of the agents that succeeded; and an agent that never
    succeeds can be taken out of the registry without changing the returned
    email. *)
Theorem pipeline_sequential_application d u agents email :
  connected d = true ->
  ownTypes agents ->
  exists order,
    Permutation order agents
    /\ StronglySorted runs_before order
    /\ (forall r, filter (fun a => tableRank (type a) = r) order
                  = filter (fun a => tableRank (type a) = r) agents)
    /\ calls (runPipeline d u agents email) = accumulated_inputs order email
    /\ finalEmail (processEmailInternal d u agents email)
       = sequential_application order email
    /\ (forall l1 b l2,
          agents = l1 ++ b :: l2 ->
          (forall e, successful_modifications b e = None) ->
          finalEmail (processEmailInternal d u agents email)
          = finalEmail (processEmailInternal d u (l1 ++ l2) email)).
Proof.
  intros Hc Hown. exists (sortAgents agents).
  destruct (pipeline_order_aux d u agents email Hc) as [Hcalls Hfinal].
  split; [apply sortAgents_perm|].
  split; [by apply sortAgents_sorted|].
  split; [intros r; apply sortAgents_rank_stable|].
  split; [exact Hcalls|]. split; [exact Hfinal|].
  intros l1 b l2 -> Hb.
  unfold processEmailInternal, finalEmail. rewrite Hfinal.
  destruct (pipeline_order_aux d u (l1 ++ l2) email Hc) as [_ ->].
  destruct (sortAgents_without b l1 l2 Hown) as (s1 & s2 & -> & ->).
  by apply sequential_application_skip.
Qed.

Lemma pipeline_sequential_application_witness :
  connected connectedDb = true
  /\ ownTypes [tagger; thrower]
  /\ exists order,
       Permutation order [tagger; thrower]
       /\ StronglySorted runs_before order
       /\ calls (runPipeline connectedDb 0 [tagger; thrower] inbound)
          = accumulated_inputs order inbound
       /\ finalEmail (processEmailInternal connectedDb 0 [tagger; thrower]
                        inbound)
          = sequential_application order inbound.
Proof.
  assert (Hown : ownTypes [tagger; thrower]).
  { refine (bool_decide_unpack _ _). vm_compute. exact I. }
  split; [reflexivity|]. split; [exact Hown|].
  destruct (pipeline_sequential_application connectedDb 0 [tagger; thrower]
              inbound eq_refl Hown)
    as (order & H1 & H2 & _ & H3 & H4 & _).
  exists order. split; [exact H1|]. split; [exact H2|].
  split; [exact H3|exact H4].
Defined.

(** What a turn leaves in the ledger when [process] rejects: the task saved
    before the call, still [processing], without an error. *)
Lemma thrown_task_left_processing email st a m :
  connected (db st) = true ->
  process a (processedEmail st) = Thrown m ->
  agent_tasks (db (runAgent email st a)) !! uuids st
  = Some {| task_id := uuids st; agentId := id a; emailId := email !! "id";
            action := "process"; parameters := processedEmail st;
            status := processing; result := None; task_error := None |}.
Proof.
  intros Hc Hp. unfold runAgent, saveAgentTask. rewrite Hc, Hp. simpl.
  apply lookup_insert_eq.
Qed.

(** Later turns draw later task ids and leave the earlier tasks alone, so
    the task of a turn that threw is [processing] at the end of the run. *)
Lemma runAgent_uuids email st a : uuids (runAgent email st a) = S (uuids st).
Proof.
  unfold runAgent. destruct (saveAgentTask _ (db st)); [|reflexivity].
  destruct (process a (processedEmail st)); [|reflexivity].
  destruct (saveAgentTask _ _); reflexivity.
Qed.

Lemma runAgent_older_tasks email st a k :
  (k < uuids st)%nat ->
  agent_tasks (db (runAgent email st a)) !! k = agent_tasks (db st) !! k.
Proof.
  intros Hk. unfold runAgent, saveAgentTask.
  destruct (connected (db st)); [|reflexivity]. simpl.
  destruct (process a (processedEmail st)); simpl;
    rewrite ?lookup_insert_ne by lia; reflexivity.
Qed.

Lemma foldl_runAgent_older_tasks email l : forall st k,
  (k < uuids st)%nat ->
  agent_tasks (db (foldl (runAgent email) st l)) !! k
  = agent_tasks (db st) !! k.
Proof.
  induction l as [|a l IH]; intros st k Hk; simpl; [reflexivity|].
  rewrite IH by (rewrite runAgent_uuids; lia).
  by apply runAgent_older_tasks.
Qed.

Lemma thrown_task_never_finalized email st a m rest :
  connected (db st) = true ->
  process a (processedEmail st) = Thrown m ->
  status <$> agent_tasks (db (foldl (runAgent email) st (a :: rest))) !! uuids st
  = Some processing.
Proof.
  intros Hc Hp. simpl.
  rewrite foldl_runAgent_older_tasks by (rewrite runAgent_uuids; lia).
  by rewrite (thrown_task_left_processing email st a m Hc Hp).
Qed.

(** C2.  A security agent that throws runs before a summarizer.  The
    summarizer is still called, with the email unchanged, but the ledger
    entry of the agent that threw stays [processing] with no error: only the
    result map records the failure. *)
Theorem thrown_agent_task_not_finalized :
  let st := runPipeline connectedDb 0 [tagger; thrower] inbound in
  calls st = [("agent-sec", inbound); ("agent-sum", inbound)]
  /\ agentResults st !! "agent-sec"
     = Some {| success := false; modifications := None;
               error := Some "boom" |}
  /\ agent_tasks (db st) !! 0%nat
     = Some {| task_id := 0; agentId := "agent-sec";
               emailId := Some (JStr "m-1"); action := "process";
               parameters := inbound; status := processing;
               result := None; task_error := None |}
  /\ (status <$> agent_tasks (db st) !! 1%nat) = Some completed.
Proof. vm_compute. repeat split; reflexivity. Qed.




End PipelineProofs.

(* ===================================================================== *)
(** * The caller's email and the copies *)
(* ===================================================================== *)

Module SharedEmailProofs.
Import Orchestrator SharedEmail.

Lemma store_other h ws l :
  l ∉ map fst ws -> store h ws !! l = h !! l.
Proof.
  revert h. induction ws as [|[k c] ws IH]; intros h Hl; simpl in *;
    [reflexivity|].
  apply not_elem_of_cons in Hl as [Hk Hl].
  rewrite IH by exact Hl. by apply lookup_insert_ne.
Qed.

Lemma store_dom h ws : dom h ⊆ dom (store h ws).
Proof.
  revert h. induction ws as [|[k c] ws IH]; intros h; simpl; [done|].
  etrans; [|apply IH]. rewrite dom_insert. set_solver.
Qed.

Lemma alloc_fresh h c : (alloc h c).1 ∉ dom h.
Proof. apply is_fresh. Qed.

Lemma alloc_other h c l :
  l ∈ dom h -> (alloc h c).2 !! l = h !! l.
Proof.
  intros Hl. unfold alloc. simpl. apply lookup_insert_ne.
  intros E. apply (is_fresh (dom h)). by rewrite E.
Qed.

Lemma alloc_dom h c : dom h ⊆ dom (alloc h c).2.
Proof. unfold alloc. simpl. rewrite dom_insert. set_solver. Qed.

Lemma alloc_fields h f : fieldsOf (alloc h (Object f)).2 (alloc h (Object f)).1 = f.
Proof. unfold alloc, fieldsOf. simpl. by rewrite lookup_insert_eq. Qed.

(** ** What one turn keeps *)

Lemma runShared_turns e st a :
  exists added, turns (runShared e st a) = turns st ++ added
    /\ forall l, (forall t, t ∈ added -> l ∉ written t) ->
         l ∈ dom (heap st) ->
         heap (runShared e st a) !! l = heap st !! l.
Proof.
  unfold runShared. destruct (saveTask _ (ledger st)) as [l1|msg].
  - destruct (settles _) as [r|m] eqn:Es.
    + destruct (saveTask _ l1) as [l2|msg];
        (eexists; split; [reflexivity|]; intros l Hw Hl; simpl;
         assert (Hs : store (heap st)
                        (writes (s_process a (working st) (heap st))) !! l
                      = heap st !! l)
           by (apply store_other, (Hw _ (list_elem_of_here _ _)));
         destruct (if s_success r then s_modifications r else None);
         simpl; [|exact Hs];
         rewrite lookup_insert_ne; [exact Hs|];
         intros E; apply (is_fresh (dom (store (heap st)
           (writes (s_process a (working st) (heap st))))));
         rewrite E; by apply (store_dom (heap st))).
    + eexists. split; [reflexivity|]. intros l Hw Hl. simpl.
      apply store_other, (Hw _ (list_elem_of_here _ _)).
  - exists []. rewrite app_nil_r. split; [reflexivity|]. reflexivity.
Qed.

Lemma runShared_dom e st a (X : gset nat) :
  X ⊆ dom (heap st) -> working st ∉ X ->
  X ⊆ dom (heap (runShared e st a))
  /\ (working (runShared e st a) ∉ X)
  /\ forall t, t ∈ turns (runShared e st a) ->
       t ∈ turns st \/ handed t = working st.
Proof.
  intros HX Hw. unfold runShared.
  destruct (saveTask _ (ledger st)) as [l1|msg]; [|simpl; auto].
  pose proof (store_dom (heap st)
    (writes (s_process a (working st) (heap st)))) as Hd.
  assert (Ht : forall t,
    t ∈ turns st ++ [ {| turn_agent := s_id a; handed := working st;
                         effect := s_process a (working st) (heap st) |} ] ->
    t ∈ turns st \/ handed t = working st).
  { intros t Ht. apply elem_of_app in Ht as [Ht|Ht]; [by left|].
    apply list_elem_of_singleton in Ht as ->. by right. }
  destruct (settles _) as [r|m].
  - assert (Hm :
      X ⊆ dom (match (if s_success r then s_modifications r else None) with
               | Some m =>
                   alloc (store (heap st)
                            (writes (s_process a (working st) (heap st))))
                     (Object (m ∪ fieldsOf (store (heap st)
                        (writes (s_process a (working st) (heap st))))
                        (working st)))
               | None => (working st, store (heap st)
                            (writes (s_process a (working st) (heap st))))
               end).2
      /\ (match (if s_success r then s_modifications r else None) with
          | Some m =>
              alloc (store (heap st)
                       (writes (s_process a (working st) (heap st))))
                (Object (m ∪ fieldsOf (store (heap st)
                   (writes (s_process a (working st) (heap st))))
                   (working st)))
          | None => (working st, store (heap st)
                       (writes (s_process a (working st) (heap st))))
          end).1 ∉ X).
    { destruct (if s_success r then s_modifications r else None) as [m|].
      - split.
        + etrans; [exact HX|]. etrans; [exact Hd|]. apply alloc_dom.
        + intros Hin. eapply alloc_fresh. apply Hd, HX. exact Hin.
      - simpl. split; [by etrans|exact Hw]. }
    destruct Hm as [Hm1 Hm2].
    destruct (saveTask _ l1); simpl; auto.
  - simpl. split; [by etrans|]. auto.
Qed.

(** ** The whole loop *)

Lemma foldl_runShared_turns e l : forall st,
  exists added, turns (foldl (runShared e) st l) = turns st ++ added.
Proof.
  induction l as [|a l IH]; intros st; simpl.
  - exists []. by rewrite app_nil_r.
  - destruct (IH (runShared e st a)) as (n2 & ->).
    destruct (runShared_turns e st a) as (n1 & -> & _).
    exists (n1 ++ n2). by rewrite app_assoc.
Qed.

Lemma foldl_runShared_dom e (X : gset nat) l : forall st,
  X ⊆ dom (heap st) -> working st ∉ X ->
  (forall t, t ∈ turns st -> handed t ∉ X) ->
  X ⊆ dom (heap (foldl (runShared e) st l))
  /\ (working (foldl (runShared e) st l) ∉ X)
  /\ forall t, t ∈ turns (foldl (runShared e) st l) -> handed t ∉ X.
Proof.
  induction l as [|a l IH]; intros st HX Hw Ht; simpl; [auto|].
  destruct (runShared_dom e st a X HX Hw) as (H1 & H2 & H3).
  apply IH; [exact H1|exact H2|].
  intros t Hin. destruct (H3 t Hin) as [Hold | ->]; [by apply Ht|exact Hw].
Qed.

Lemma foldl_runShared_frame e k c l : forall st,
  heap st !! k = Some c ->
  (forall t, t ∈ turns (foldl (runShared e) st l) -> k ∉ written t) ->
  heap (foldl (runShared e) st l) !! k = Some c.
Proof.
  induction l as [|a l IH]; intros st Hk Hw; simpl in *; [exact Hk|].
  destruct (runShared_turns e st a) as (added & En & Hkeep).
  destruct (foldl_runShared_turns e l (runShared e st a)) as (rest & Er).
  apply IH; [|exact Hw].
  rewrite Hkeep; [exact Hk| |by apply elem_of_dom].
  intros t Ht. apply Hw. rewrite Er, En.
  apply elem_of_app. left. apply elem_of_app. by right.
Qed.

(** ** The agents of the pure model *)

Lemma readEmail_prim (m : Email) : readEmail (Prim <$> m) = m.
Proof.
  apply map_eq. intros k. unfold readEmail.
  rewrite lookup_omap, lookup_fmap. by destruct (m !! k).
Qed.

Section Maps.
Context {A B : Type} (tA : A -> string) (tB : B -> string) (g : A -> B).
Hypothesis same_type : forall x, tB (g x) = tA x.

Lemma insertByType_fmap a l :
  insertByType tB (g a) (map g l) = map g (insertByType tA a l).
Proof.
  induction l as [|b l IH]; simpl; [reflexivity|].
  rewrite !same_type. destruct (_ <=? _); simpl; [reflexivity|].
  by rewrite IH.
Qed.

Lemma sortByType_fmap l :
  sortByType tB (map g l) = map g (sortByType tA l).
Proof.
  induction l as [|a l IH]; simpl; [reflexivity|].
  rewrite IH. apply insertByType_fmap.
Qed.
End Maps.

Lemma runShared_lift email e st sh a :
  alike st sh -> alike (runAgent email st a) (runShared e sh (lift a)).
Proof.
  intros (Hc & Hf & Hr). unfold alike, runAgent, runShared, saveAgentTask,
    saveTask. rewrite <- Hc. destruct (connected (db st)) eqn:Ed; simpl.
  - rewrite Hf, readEmail_prim.
    destruct (process a (processedEmail st)) as [r|m]; simpl.
    + split; [reflexivity|]. split.
      * unfold merge. destruct (success r); simpl; [|exact Hf].
        destruct (modifications r) as [m|]; simpl; [|exact Hf].
        unfold fieldsOf. rewrite lookup_insert_eq. by rewrite map_fmap_union.
      * rewrite Hr. by rewrite fmap_insert.
    + split; [reflexivity|]. split; [exact Hf|].
      rewrite Hr. by rewrite fmap_insert.
  - split; [congruence|]. split; [exact Hf|].
    rewrite Hr. by rewrite fmap_insert.
Qed.

Lemma foldl_runShared_lift email e l : forall st sh,
  alike st sh ->
  alike (foldl (runAgent email) st l)
        (foldl (runShared e) sh (map lift l)).
Proof.
  induction l as [|a l IH]; intros st sh H; simpl; [exact H|].
  apply IH. by apply runShared_lift.
Qed.

(** ** The caller's email *)



End SharedEmailProofs.

(* ===================================================================== *)
(** * Properties of the campaign service *)
(* ===================================================================== *)

Module CampaignProofs.
Import Campaigns.

(** A method that finds nothing under the id it was given: its frame, the
    lookup, and the early exit. *)
Ltac unknown_id H :=
  unfold scheduleCampaign, pauseCampaign, resumeCampaign, deleteCampaign,
         approveDraft, rejectDraft, rethrow, await, getCampaign, getDraft;
  rewrite H; reflexivity.

(** ** Store updates and execution *)

Lemma updateCampaign_found now i u s c :
  campaigns s !! i = Some c ->
  updateCampaign now i u s
  = (Resolved (spread c u now),
     withCampaigns s (<[i := spread c u now]> (campaigns s))).
Proof.
  intros H. unfold updateCampaign, rethrow, await, getCampaign.
  rewrite H. reflexivity.
Qed.

Lemma executeCampaign_found now i s c :
  campaigns s !! i = Some c ->
  let c2 := withSent (withStatus c st_active) (sent c + 100) in
  executeCampaign now i s
  = (Resolved tt,
     withExecutions (withCampaigns s (<[i := spread c2 c2 now]> (campaigns s)))
       (executions s ++ [i])).
Proof.
  intros H c2. unfold executeCampaign, await at 1, getCampaign. rewrite H.
  unfold await at 1, setCampaign.
  unfold await at 1.
  erewrite updateCampaign_found by (simpl; apply lookup_insert_eq).
  unfold await at 1, logExecution. unfold await at 1, bumpStoredSent.
  unfold await at 1.
  erewrite updateCampaign_found
    by (simpl; rewrite lookup_alter_eq, lookup_insert_eq; reflexivity).
  unfold resolve, withExecutions, withCampaigns. simpl.
  rewrite insert_alter_eq, !insert_insert_eq.
  do 3 f_equal. subst c2. unfold spread; simpl.
  destruct (approvalStatus c); reflexivity.
Qed.

Lemma queueCall_up {A} (f : Queue -> A * Queue) s :
  fault (campaignQueue s) = None ->
  queueCall f s
  = (Resolved (fst (f (campaignQueue s))),
     withQueue s (snd (f (campaignQueue s)))).
Proof.
  intros H. unfold queueCall. rewrite H. destruct (f _); reflexivity.
Qed.

Lemma queueCall_down {A} (f : Queue -> A * Queue) s e :
  fault (campaignQueue s) = Some e ->
  queueCall f s = (Rejected e, s).
Proof. intros H. unfold queueCall. rewrite H. reflexivity. Qed.

Lemma withCampaigns_insert_twice s i (a b : EmailCampaign) :
  withCampaigns (withCampaigns s (<[i := a]> (campaigns s)))
    (<[i := b]> (<[i := a]> (campaigns s)))
  = withCampaigns s (<[i := b]> (campaigns s)).
Proof. unfold withCampaigns. simpl. rewrite insert_insert_eq. reflexivity. Qed.

Lemma scheduleCampaign_found now i sch s c :
  campaigns s !! i = Some c ->
  scheduleCampaign now i sch s
  = rethrow "Failed to schedule campaign: "
      (match frequency sch with
       | Some _ => scheduleRecurringCampaign i sch
       | None => scheduleOneTimeCampaign now i sch
       end) (scheduledState now i sch c s).
Proof.
  intros H. unfold scheduleCampaign, rethrow, await at 1, getCampaign.
  rewrite H. unfold await at 1, setCampaign. unfold await at 1.
  erewrite updateCampaign_found by (simpl; apply lookup_insert_eq).
  simpl campaigns. rewrite withCampaigns_insert_twice. reflexivity.
Qed.

Lemma scheduleCampaign_missing now i sch s :
  campaigns s !! i = None ->
  scheduleCampaign now i sch s
  = (Rejected ("Failed to schedule campaign: " +:+ notFound i), s).
Proof.
  intros H. unknown_id H.
Qed.

Lemma scheduledState_lookup now i sch c s :
  campaigns (scheduledState now i sch c s) !! i
  = Some (let c1 := withStatus (withSchedule c sch) st_scheduled in
          spread c1 c1 now).
Proof. unfold scheduledState. simpl. apply lookup_insert_eq. Qed.

(** A scheduled one-time campaign, start date not in the future. *)
Lemma scheduleCampaign_past now i sch s c :
  campaigns s !! i = Some c ->
  frequency sch = None ->
  startDate sch <= now ->
  let c2 := withSent (withStatus (withSchedule c sch) st_active) (sent c + 100) in
  scheduleCampaign now i sch s
  = (Resolved tt,
     withExecutions (withCampaigns s (<[i := spread c2 c2 now]> (campaigns s)))
       (executions s ++ [i])).
Proof.
  intros H Hf Hd c2. rewrite (scheduleCampaign_found now i sch s c H), Hf.
  unfold rethrow, scheduleOneTimeCampaign.
  destruct (Z.ltb_spec 0 (startDate sch - now)) as [Hlt|_]; [lia|].
  erewrite executeCampaign_found by apply scheduledState_lookup.
  unfold scheduledState, withExecutions, withCampaigns. simpl.
  rewrite insert_insert_eq. do 3 f_equal.
  subst c2. unfold spread. simpl. destruct (approvalStatus c); reflexivity.
Qed.

Lemma scheduleCampaign_future now i sch s c :
  campaigns s !! i = Some c ->
  frequency sch = None ->
  now < startDate sch ->
  fault (campaignQueue s) = None ->
  scheduleCampaign now i sch s
  = (Resolved tt,
     withQueue (scheduledState now i sch c s)
       (withJobs (campaignQueue s)
          (jobs (campaignQueue s)
           ++ [delayedJob (next_job (campaignQueue s)) i
                 (startDate sch - now)])
          (S (next_job (campaignQueue s))))).
Proof.
  intros H Hf Hd Hq. rewrite (scheduleCampaign_found now i sch s c H), Hf.
  unfold rethrow, scheduleOneTimeCampaign.
  destruct (Z.ltb_spec 0 (startDate sch - now)) as [Hlt|?]; [|lia].
  unfold queueAdd. rewrite queueCall_up by exact Hq. simpl.
  unfold appendJob, delayedJob, initialState. simpl.
  destruct (Z.ltb_spec 0 (startDate sch - now)); [reflexivity|lia].
Qed.

(** ** Loops over the jobs *)

Lemma withQueue_same s : withQueue s (campaignQueue s) = s.
Proof. destruct s; reflexivity. Qed.

Lemma jobRemove_queueOnly j : queueOnly (jobRemove j).
Proof.
  intros s Hq. unfold jobRemove. rewrite queueCall_up by exact Hq.
  eexists. split; [reflexivity|exact Hq].
Qed.

Lemma forMatching_queueOnly cid f l :
  (forall j, queueOnly (f j)) -> queueOnly (forMatching cid f l).
Proof.
  intros Hf. induction l as [|j l IH]; intros s Hq; simpl.
  - exists (campaignQueue s). rewrite withQueue_same. split; [reflexivity|exact Hq].
  - unfold await. case_bool_decide.
    + destruct (Hf j s Hq) as (q1 & -> & Hq1).
      destruct (IH (withQueue s q1) Hq1) as (q2 & -> & Hq2).
      exists q2. split; [reflexivity|exact Hq2].
    + unfold resolve. exact (IH s Hq).
Qed.

Lemma getJobs_up states s :
  fault (campaignQueue s) = None ->
  getJobs states s
  = (Resolved (filter (fun j => state j ∈ states) (jobs (campaignQueue s))), s).
Proof.
  intros Hq. unfold getJobs. rewrite queueCall_up by exact Hq. simpl.
  rewrite withQueue_same. reflexivity.
Qed.

Lemma getJobs_down states s e :
  fault (campaignQueue s) = Some e -> getJobs states s = (Rejected e, s).
Proof. apply queueCall_down. Qed.

(** The jobs left by the loop of [cancelScheduledJobs]. *)
Lemma forMatching_remove cid l : forall s,
  fault (campaignQueue s) = None ->
  exists q,
    forMatching cid jobRemove l s = (Resolved tt, withQueue s q)
    /\ fault q = None
    /\ forall x, x ∈ jobs q ->
         x ∈ jobs (campaignQueue s)
         /\ forall j, j ∈ l -> job_campaignId j = cid -> job_id x ≠ job_id j.
Proof.
  induction l as [|j l IH]; intros s Hq; simpl.
  - exists (campaignQueue s). rewrite withQueue_same.
    split; [reflexivity|]. split; [exact Hq|].
    intros x Hx. split; [exact Hx|]. intros j Hj. by apply elem_of_nil in Hj.
  - unfold await. case_bool_decide as Hm.
    + unfold jobRemove at 1. rewrite queueCall_up by exact Hq. simpl.
      destruct (IH (withQueue s
        (withJobs (campaignQueue s)
           (filter (fun x => job_id x ≠ job_id j) (jobs (campaignQueue s)))
           (next_job (campaignQueue s)))) Hq) as (q & -> & Hq' & Hin).
      exists q. split; [reflexivity|]. split; [exact Hq'|].
      intros x Hx. destruct (Hin x Hx) as [Hx' Hrest]. simpl in Hx'.
      apply list_elem_of_filter in Hx' as [Hne Hx'].
      split; [exact Hx'|]. intros j' Hj' Hc.
      apply elem_of_cons in Hj' as [->|Hj']; [exact Hne|by apply Hrest].
    + unfold resolve. destruct (IH s Hq) as (q & -> & Hq' & Hin).
      exists q. split; [reflexivity|]. split; [exact Hq'|].
      intros x Hx. destruct (Hin x Hx) as [Hx' Hrest].
      split; [exact Hx'|]. intros j' Hj' Hc.
      apply elem_of_cons in Hj' as [->|Hj']; [congruence|by apply Hrest].
Qed.

Lemma cancelScheduledJobs_clears cid s :
  fault (campaignQueue s) = None ->
  exists q,
    cancelScheduledJobs cid s = (Resolved tt, withQueue s q)
    /\ fault q = None
    /\ pendingJobsFor cid q = [].
Proof.
  intros Hq. unfold cancelScheduledJobs, await. rewrite getJobs_up by exact Hq.
  destruct (forMatching_remove cid
    (filter (fun j => state j ∈ [waiting; delayed]) (jobs (campaignQueue s)))
    s Hq) as (q & -> & Hq' & Hin).
  exists q. split; [reflexivity|]. split; [exact Hq'|].
  unfold pendingJobsFor.
  destruct (filter _ (jobs q)) as [|x rest] eqn:E; [reflexivity|exfalso].
  assert (Hx : x ∈ filter (fun j => state j ∈ [waiting; delayed]
                                     ∧ job_campaignId j = cid) (jobs q))
    by (rewrite E; left).
  apply list_elem_of_filter in Hx as [[Hst Hc] Hx].
  destruct (Hin x Hx) as [Hx' Hrest].
  apply (Hrest x); [|exact Hc|reflexivity].
  apply list_elem_of_filter. split; [exact Hst|exact Hx'].
Qed.

Lemma cancelScheduledJobs_down cid s e :
  fault (campaignQueue s) = Some e ->
  cancelScheduledJobs cid s = (Rejected e, s).
Proof.
  intros Hq. unfold cancelScheduledJobs, await.
  rewrite (getJobs_down _ _ _ Hq). reflexivity.
Qed.

(** ** Delete *)

Lemma deleteCampaign_missing i s :
  campaigns s !! i = None -> deleteCampaign i s = (Resolved false, s).
Proof.
  intros H. unknown_id H.
Qed.

Lemma deleteCampaign_scheduled i s c :
  campaigns s !! i = Some c ->
  status c = st_scheduled ->
  fault (campaignQueue s) = None ->
  exists q,
    deleteCampaign i s
    = (Resolved true, withCampaigns (withQueue s q) (delete i (campaigns s)))
    /\ pendingJobsFor i q = [].
Proof.
  intros H Hst Hq. unfold deleteCampaign, rethrow, await at 1, getCampaign.
  rewrite H, Hst. simpl.
  destruct (cancelScheduledJobs_clears i s Hq) as (q & E & _ & Hp).
  exists q. split; [|exact Hp].
  unfold await. rewrite E. reflexivity.
Qed.

Lemma deleteCampaign_unscheduled i s c :
  campaigns s !! i = Some c ->
  status c ≠ st_scheduled ->
  deleteCampaign i s
  = (Resolved true, withCampaigns s (delete i (campaigns s))).
Proof.
  intros H Hst. unfold deleteCampaign, rethrow, await at 1, getCampaign.
  rewrite H. simpl. rewrite bool_decide_eq_false_2 by exact Hst. reflexivity.
Qed.

Lemma deleteCampaign_rejected i s e s' :
  deleteCampaign i s = (Rejected e, s') -> s' = s.
Proof.
  destruct (campaigns s !! i) as [c|] eqn:H.
  - destruct (decide (status c = st_scheduled)) as [Hst|Hst].
    + destruct (fault (campaignQueue s)) as [m|] eqn:Hq.
      * unfold deleteCampaign, rethrow, await at 1, getCampaign.
        rewrite H, Hst. simpl. unfold await.
        rewrite (cancelScheduledJobs_down i s m Hq). congruence.
      * destruct (deleteCampaign_scheduled i s c H Hst Hq) as (q & -> & _).
        discriminate.
    + rewrite (deleteCampaign_unscheduled i s c H Hst). discriminate.
  - rewrite (deleteCampaign_missing i s H). discriminate.
Qed.

(** ** What the queue answers to [scheduleCampaign] *)

Lemma queueAdd_settles nm cid o s :
  match addError (campaignQueue s) o with
  | Some e => queueAdd nm cid o s = (Rejected e, s)
  | None =>
      exists q, queueAdd nm cid o s = (Resolved tt, withQueue s q)
  end.
Proof.
  unfold addError, queueAdd. destruct o as [d n b|cron tz from to].
  - unfold queueCall. destruct (fault (campaignQueue s)); [reflexivity|].
    eexists. reflexivity.
  - destruct (admits (campaignQueue s) _).
    + unfold queueCall. destruct (fault (campaignQueue s)); [reflexivity|].
      eexists. reflexivity.
    + exists (campaignQueue s). by rewrite withQueue_same.
    + reflexivity.
Qed.

(** A schedule that goes to the queue: a recurring one, or a one-time one
    whose start date is ahead. *)
Lemma scheduleCampaign_submits now i sch s c :
  campaigns s !! i = Some c ->
  is_Some (frequency sch) \/ now < startDate sch ->
  scheduleCampaign now i sch s
  = rethrow "Failed to schedule campaign: "
      (queueAdd "send-campaign" i (submitted now sch))
      (scheduledState now i sch c s).
Proof.
  intros H Hgo. rewrite (scheduleCampaign_found now i sch s c H).
  unfold submitted, scheduleRecurringCampaign, scheduleOneTimeCampaign.
  destruct (frequency sch) as [f|]; [reflexivity|].
  destruct Hgo as [[? ?]|Hd]; [discriminate|].
  destruct (Z.ltb_spec 0 (startDate sch - now)); [reflexivity|lia].
Qed.

(** A rejected [scheduleCampaign] on a stored campaign has written the
    status [scheduled]. *)
Lemma scheduleCampaign_rejected now i sch s c e s' :
  campaigns s !! i = Some c ->
  scheduleCampaign now i sch s = (Rejected e, s') ->
  s' = scheduledState now i sch c s.
Proof.
  intros H E.
  destruct (decide (is_Some (frequency sch) \/ now < startDate sch))
    as [Hgo|Hno].
  - rewrite (scheduleCampaign_submits now i sch s c H Hgo) in E.
    unfold rethrow in E.
    pose proof (queueAdd_settles "send-campaign" i (submitted now sch)
                  (scheduledState now i sch c s)) as Hq.
    destruct (addError _ _).
    + rewrite Hq in E. congruence.
    + destruct Hq as (q & Hq). rewrite Hq in E. discriminate.
  - assert (Hf : frequency sch = None).
    { destruct (frequency sch); [|reflexivity]. exfalso. apply Hno. left.
      by eexists. }
    rewrite (scheduleCampaign_past now i sch s c H Hf) in E by lia.
    discriminate.
Qed.

(** ** Pause *)

Lemma pauseCampaign_missing now i s :
  campaigns s !! i = None ->
  pauseCampaign now i s
  = (Rejected ("Failed to pause campaign: " +:+ notFound i), s).
Proof.
  intros H. unknown_id H.
Qed.

(** What [pauseCampaign] has written when it turns to the queue. *)
Lemma pauseCampaign_found now i s c :
  campaigns s !! i = Some c ->
  pauseCampaign now i s
  = rethrow "Failed to pause campaign: "
      (let* js := getJobs [waiting; delayed] in
       forMatching i (fun j => jobMoveToFailed j "Campaign paused") js)
      (withCampaigns s
         (<[i := spread (withStatus c st_paused) (withStatus c st_paused) now]>
            (campaigns s))).
Proof.
  intros H. unfold pauseCampaign, rethrow, await at 1, getCampaign.
  rewrite H. unfold await at 1, setCampaign. unfold await at 1.
  erewrite updateCampaign_found by (simpl; apply lookup_insert_eq).
  simpl campaigns. rewrite withCampaigns_insert_twice. reflexivity.
Qed.

(** The calls of the queue leave the campaigns alone. *)
Lemma jobMoveToFailed_campaigns j r s :
  campaigns (snd (jobMoveToFailed j r s)) = campaigns s.
Proof.
  unfold jobMoveToFailed.
  destruct (onMoveToFailed _ _ _); [|reflexivity].
  unfold queueCall. destruct (fault (campaignQueue s)); reflexivity.
Qed.

Lemma forMatching_campaigns cid f l :
  (forall j s, campaigns (snd (f j s)) = campaigns s) ->
  forall s, campaigns (snd (forMatching cid f l s)) = campaigns s.
Proof.
  intros Hf. induction l as [|j l IH]; intros s; simpl; [reflexivity|].
  unfold await. case_bool_decide.
  - pose proof (Hf j s) as Hj. destruct (f j s) as [[[]|e] s1]; simpl in *.
    + by rewrite IH.
    + exact Hj.
  - unfold resolve. apply IH.
Qed.

Lemma pauseCampaign_status now i s c :
  campaigns s !! i = Some c ->
  campaigns (snd (pauseCampaign now i s))
  = <[i := spread (withStatus c st_paused) (withStatus c st_paused) now]>
      (campaigns s).
Proof.
  intros H. rewrite (pauseCampaign_found now i s c H).
  unfold rethrow, await at 1, getJobs, queueCall. simpl.
  destruct (fault (campaignQueue s)); [reflexivity|]. simpl.
  match goal with
  | |- campaigns (snd (let (_, _) := ?m in _)) = _ =>
      pose proof (forMatching_campaigns i
        (fun j => jobMoveToFailed j "Campaign paused")
        (filter (fun j => state j ∈ [waiting; delayed])
                (jobs (campaignQueue s)))
        (fun j s => jobMoveToFailed_campaigns j "Campaign paused" s)) as Hk
  end.
  match goal with
  | |- context [forMatching i ?f ?l ?s0] =>
      specialize (Hk s0); destruct (forMatching i f l s0) as [[[]|e] s1]
  end; simpl in *; exact Hk.
Qed.

(** ** Resume *)

Lemma resumeCampaign_missing now i s :
  campaigns s !! i = None ->
  resumeCampaign now i s
  = (Rejected ("Failed to resume campaign: " +:+ notFound i), s).
Proof.
  intros H. unknown_id H.
Qed.

Lemma resumeCampaign_not_paused now i s c :
  campaigns s !! i = Some c ->
  status c ≠ st_paused ->
  resumeCampaign now i s
  = (Rejected "Failed to resume campaign: Campaign is not paused", s).
Proof.
  intros H Hst. unfold resumeCampaign, rethrow, await, getCampaign.
  rewrite H. rewrite bool_decide_eq_true_2 by exact Hst. reflexivity.
Qed.

Lemma resumeCampaign_paused now i s c :
  campaigns s !! i = Some c ->
  status c = st_paused ->
  resumeCampaign now i s
  = rethrow "Failed to resume campaign: "
      (scheduleCampaign now i (schedule c))
      (withCampaigns s
         (<[i := spread (withStatus c st_active) (withStatus c st_active) now]>
            (campaigns s))).
Proof.
  intros H Hst. unfold resumeCampaign, rethrow at 1, await at 1, getCampaign.
  rewrite H. rewrite bool_decide_eq_false_2 by (rewrite Hst; auto).
  unfold await at 1, setCampaign. unfold await at 1.
  erewrite updateCampaign_found by (simpl; apply lookup_insert_eq).
  simpl campaigns. rewrite withCampaigns_insert_twice. reflexivity.
Qed.

(** ** Failures *)

(** Where a rejected operation leaves the campaign. *)
Lemma perform_rejected_store now i op s e s' :
  perform now i op s = (Rejected e, s') ->
  match op, campaigns s !! i with
  | OpDelete, _ => s' = s
  | _, None => s' = s
  | OpSchedule _, Some _ => statusOf i s' = Some st_scheduled
  | OpPause, Some _ => statusOf i s' = Some st_paused
  | OpResume, Some c =>
      if bool_decide (status c = st_paused)
      then statusOf i s' = Some st_scheduled
      else s' = s
  end.
Proof.
  intros E. destruct op as [sch| | |]; simpl in E.
  - destruct (campaigns s !! i) as [c|] eqn:H.
    + rewrite (scheduleCampaign_rejected now i sch s c e s' H E).
      unfold statusOf. by rewrite scheduledState_lookup.
    + rewrite (scheduleCampaign_missing now i sch s H) in E. congruence.
  - destruct (campaigns s !! i) as [c|] eqn:H.
    + pose proof (pauseCampaign_status now i s c H) as Hs.
      rewrite E in Hs. simpl in Hs. unfold statusOf.
      by rewrite Hs, lookup_insert_eq.
    + rewrite (pauseCampaign_missing now i s H) in E. congruence.
  - destruct (campaigns s !! i) as [c|] eqn:H.
    + case_bool_decide as Hst.
      * rewrite (resumeCampaign_paused now i s c H Hst) in E.
        unfold rethrow in E.
        destruct (scheduleCampaign now i (schedule c) _) as [[[]|m] s1] eqn:E1;
          [discriminate|].
        apply scheduleCampaign_rejected
          with (c := spread (withStatus c st_active) (withStatus c st_active)
                       now) in E1.
        -- injection E as _ <-. rewrite E1. unfold statusOf.
           by rewrite scheduledState_lookup.
        -- simpl. apply lookup_insert_eq.
      * rewrite (resumeCampaign_not_paused now i s c H Hst) in E. congruence.
    + rewrite (resumeCampaign_missing now i s H) in E. congruence.
  - unfold await in E. destruct (deleteCampaign i s) as [[b|m] s1] eqn:E1.
    + discriminate.
    + apply deleteCampaign_rejected in E1. congruence.
Qed.

(** ** Drafts *)

Lemma approveDraft_found now i who s d :
  drafts s !! i = Some d ->
  exists s',
    approveDraft now i who s = (Resolved tt, s')
    /\ drafts s' = <[i := decided d ds_approved now]> (drafts s).
Proof.
  intros H. unfold approveDraft, rethrow, await at 1, getDraft. rewrite H.
  unfold await at 1, setDraft. destruct (linkedCampaign d) as [cid|].
  - unfold await at 1, getCampaign. cbn [campaigns withDrafts].
    destruct (campaigns s !! cid) as [c|] eqn:Hc.
    + unfold await at 1, setCampaign. unfold await at 1.
      erewrite updateCampaign_found by (simpl; apply lookup_insert_eq).
      eexists. split; reflexivity.
    + eexists. split; reflexivity.
  - eexists. split; reflexivity.
Qed.

Lemma rejectDraft_found now i why s d :
  drafts s !! i = Some d ->
  rejectDraft now i why s
  = (Resolved tt, withDrafts s (<[i := decided d ds_rejected now]> (drafts s))).
Proof.
  intros H. unfold rejectDraft, rethrow, await, getDraft. rewrite H.
  reflexivity.
Qed.

Lemma approveDraft_missing now i who s :
  drafts s !! i = None ->
  approveDraft now i who s
  = (Rejected ("Failed to approve draft: " +:+ draftNotFound i), s).
Proof.
  intros H. unknown_id H.
Qed.

Lemma rejectDraft_missing now i why s :
  drafts s !! i = None ->
  rejectDraft now i why s
  = (Rejected ("Failed to reject draft: " +:+ draftNotFound i), s).
Proof.
  intros H. unfold rejectDraft, rethrow, await, getDraft. rewrite H.
  reflexivity.
Qed.

(** ** Resume *)

(** C4.  A campaign scheduled for 5000 and paused is resumed at 3000.  The
    call resolves and a delayed job is submitted again from the stored
    schedule, but the status written last is [scheduled]: the [active]
    written by [resumeCampaign] is overwritten by the [scheduleCampaign] it
    calls.  Resuming the same campaign before it was paused is rejected and
    changes nothing. *)
Theorem resume_leaves_scheduled :
  statusOf "c-1" pausedService = Some st_paused
  /\ fst (resumeCampaign 3000 "c-1" pausedService) = Resolved tt
  /\ statusOf "c-1" (after pausedService (resumeCampaign 3000 "c-1"))
     = Some st_scheduled
  /\ pendingJobsFor "c-1"
       (campaignQueue (after pausedService (resumeCampaign 3000 "c-1")))
     = [delayedJob 1 "c-1" 2000]
  /\ resumeCampaign 3000 "c-1" scheduledService
     = (Rejected "Failed to resume campaign: Campaign is not paused",
        scheduledService).
Proof. vm_compute. repeat split; reflexivity. Qed.

(** ** One-time schedules *)



(** ** Recurrence rules *)

(** The constants used when the schedule leaves a part out: send time 10:00,
    weekday 1, day of month 1, and the rule [0 10 * * *]. *)
Lemma cronPattern_defaults sch f :
  frequency sch = Some f ->
  sendTime sch = None ->
  match freq_type f with
  | daily => cronPattern sch = "0 10:00 * * *"
  | weekly => daysOfWeek f = None -> cronPattern sch = "0 10:00 * * 1"
  | monthly => dayOfMonth f = None -> cronPattern sch = "0 10:00 1 * *"
  | custom => customCron f = None -> cronPattern sch = "0 10 * * *"
  end.
Proof.
  intros Hf Ht. unfold cronPattern. rewrite Hf, Ht.
  destruct (freq_type f); try intros ->; reflexivity.
Qed.

(** C6.  For the weekly schedule on days 1, 3 and 5 at 09:00, New York time,
    the rule derived and submitted is [0 09:00 * * 1,3,5]: the send time is
    pasted whole where the hour goes, and [09:00] is not an hour field.  The
    rule that fires at 09:00 on those days is [0 9 * * 1,3,5].  Whatever
    the state, this rule is what [scheduleCampaign] hands to [add] once it
    has stored the schedule and the status; a library that refuses it, as
    cron-parser does, leaves the call rejected, the campaign [scheduled] and
    no job in the queue. *)
Theorem weekly_rule_has_malformed_hour :
  cronPattern weeklyExample = "0 09:00 * * 1,3,5"
  /\ cronFields (cronPattern weeklyExample)
     = ["0"; "09:00"; "*"; "*"; "1,3,5"]
  /\ forallb wellFormedHourField ["09:00"; "10:00"] = false
  /\ wellFormedHourField "9" = true
  /\ (forall s c,
        campaigns s !! "c-1" = Some c ->
        scheduleCampaign 500 "c-1" weeklyExample s
        = rethrow "Failed to schedule campaign: "
            (queueAdd "send-campaign" "c-1"
               (RepeatOpts "0 09:00 * * 1,3,5" "America/New_York" 1000 None))
            (scheduledState 500 "c-1" weeklyExample c s))
  /\ fst (scheduleCampaign 500 "c-1" weeklyExample draftService)
     = Rejected
         "Failed to schedule campaign: Invalid characters, got value: 09:00"
  /\ statusOf "c-1"
       (after draftService (scheduleCampaign 500 "c-1" weeklyExample))
     = Some st_scheduled
  /\ jobs (campaignQueue
             (after draftService (scheduleCampaign 500 "c-1" weeklyExample)))
     = [].
Proof.
  split; [reflexivity|]. split; [reflexivity|]. split; [reflexivity|].
  split; [reflexivity|]. split.
  - intros s c H.
    rewrite (scheduleCampaign_submits 500 "c-1" weeklyExample s c H);
      [reflexivity|]. left. by eexists.
  - vm_compute. repeat split; reflexivity.
Qed.

(** ** Delete *)




(** ** Draft decisions *)

(** C8, counterexample.  A draft that is approved is then rejected: the call
    resolves and the stored status goes from [approved] to [rejected];
    approving it a second time resolves as well. *)
Lemma reject_after_approve_overwrites :
  draftStatusOf "d-1" approvedDraftService = Some ds_approved
  /\ fst (rejectDraft 20 "d-1" "late" approvedDraftService) = Resolved tt
  /\ draftStatusOf "d-1"
       (after approvedDraftService (rejectDraft 20 "d-1" "late"))
     = Some ds_rejected
  /\ fst (approveDraft 20 "d-1" "lead@example.com" approvedDraftService)
     = Resolved tt.
Proof. vm_compute. repeat split; reflexivity. Qed.

(** C8, amended.  On a stored draft, whatever its status, [approveDraft]
    resolves and leaves the status [approved], and [rejectDraft] resolves and
    leaves the status [rejected]; on an unknown draft id both are rejected
    and change nothing. *)
Theorem draft_decision_overwrites_status now i x s :
  match drafts s !! i with
  | Some d =>
      fst (approveDraft now i x s) = Resolved tt
      /\ draftStatusOf i (after s (approveDraft now i x)) = Some ds_approved
      /\ fst (rejectDraft now i x s) = Resolved tt
      /\ draftStatusOf i (after s (rejectDraft now i x)) = Some ds_rejected
  | None =>
      approveDraft now i x s
      = (Rejected ("Failed to approve draft: " +:+ draftNotFound i), s)
      /\ rejectDraft now i x s
         = (Rejected ("Failed to reject draft: " +:+ draftNotFound i), s)
  end.
Proof.
  destruct (drafts s !! i) as [d|] eqn:H.
  - destruct (approveDraft_found now i x s d H) as (s' & E & Hd).
    unfold after, draftStatusOf.
    rewrite E, (rejectDraft_found now i x s d H). simpl.
    rewrite Hd, !lookup_insert_eq. repeat split; reflexivity.
  - split; [by apply approveDraft_missing|by apply rejectDraft_missing].
Qed.

(** ** Failed operations *)

(** C9, counterexample.  A draft campaign is given the weekly schedule at
    09:00, with Redis answering and a library that refuses the rule as
    cron-parser does: the call is rejected, and the stored status has gone
    from [draft] to [scheduled]. *)
Lemma failed_schedule_keeps_status_change :
  statusOf "c-1" draftService = Some st_draft
  /\ fault (campaignQueue draftService) = None
  /\ fst (perform 1000 "c-1" (OpSchedule weeklyExample) draftService)
     = Rejected
         "Failed to schedule campaign: Invalid characters, got value: 09:00"
  /\ statusOf "c-1"
       (after draftService (perform 1000 "c-1" (OpSchedule weeklyExample)))
     = Some st_scheduled.
Proof. vm_compute. repeat split; reflexivity. Qed.

(** C9, amended.  An operation rejected before its first write (the
    campaign is unknown, or a resume finds it not paused) leaves the whole
    service state as it was, and a rejected delete leaves every campaign and
    draft as it was.  A schedule, pause or resume of a stored campaign that
    is rejected later, at the queue, has stored its status by then and keeps
    it: [scheduled], [paused], and [scheduled] for a resume. *)
Theorem failed_operation_leaves_store now i op s e s' :
  perform now i op s = (Rejected e, s') ->
  match op, campaigns s !! i with
  | OpDelete, _ => campaigns s' = campaigns s /\ drafts s' = drafts s
  | _, None => s' = s
  | OpSchedule _, Some _ => statusOf i s' = Some st_scheduled
  | OpPause, Some _ => statusOf i s' = Some st_paused
  | OpResume, Some c =>
      if bool_decide (status c = st_paused)
      then statusOf i s' = Some st_scheduled
      else s' = s
  end.
Proof.
  intros E. pose proof (perform_rejected_store now i op s e s' E) as H.
  destruct op; try exact H. by subst.
Qed.

Lemma failed_operation_leaves_store_witness :
  perform 3000 "c-1" OpResume scheduledService
  = (Rejected "Failed to resume campaign: Campaign is not paused",
     scheduledService)
  /\ fst (perform 1000 "c-1" (OpSchedule weeklyExample) draftService)
     = Rejected
         "Failed to schedule campaign: Invalid characters, got value: 09:00"
  /\ statusOf "c-1"
       (after draftService (perform 1000 "c-1" (OpSchedule weeklyExample)))
     = Some st_scheduled.
Proof.
  split; [reflexivity|]. split; [reflexivity|].
  exact (failed_operation_leaves_store 1000 "c-1" (OpSchedule weeklyExample)
           draftService
           "Failed to schedule campaign: Invalid characters, got value: 09:00"
           (after draftService (perform 1000 "c-1" (OpSchedule weeklyExample)))
           eq_refl).
Defined.

End CampaignProofs.

(* ===================================================================== *)
(** * Further properties of the agent pipeline *)
(* ===================================================================== *)

Module PipelineExtras.
Import Orchestrator Registry.

Lemma has_agent_spec i reg : has_agent i reg = true <-> i ∈ map id reg.
Proof.
  unfold has_agent. rewrite existsb_exists. split.
  - intros (a & Ha & Hi). apply bool_decide_eq_true in Hi as <-.
    apply list_elem_of_In in Ha. by apply list_elem_of_fmap_2.
  - intros Hi. apply list_elem_of_fmap in Hi as (a & -> & Ha).
    exists a. split; [by apply list_elem_of_In|by apply bool_decide_eq_true].
Qed.

Lemma has_agent_false i reg : has_agent i reg = false <-> i ∉ map id reg.
Proof.
  rewrite <- has_agent_spec. destruct (has_agent i reg); split; congruence.
Qed.

Lemma ids_filter_out i (reg : list IAgent) :
  map id (filter (fun a => id a ≠ i) reg) = filter (fun j => j ≠ i) (map id reg).
Proof.
  induction reg as [|a reg IH]; [reflexivity|]. simpl.
  rewrite !filter_cons. destruct (decide (id a ≠ i)); simpl; by rewrite IH.
Qed.

(** X1. After any sequence of registerAgent and unregisterAgent calls, the
    ones that throw included, no two registered agents share an id. *)
Theorem registry_ids_distinct (cs : list RegistryCall) :
  NoDup (map id (foldl afterCall [] cs)).
Proof.
  assert (H : forall reg, NoDup (map id reg) ->
                          NoDup (map id (foldl afterCall reg cs))).
  { induction cs as [|c cs IH]; intros reg Hreg; simpl; [exact Hreg|].
    apply IH. destruct c as [a|i]; simpl.
    - unfold registerAgent. destruct (has_agent (id a) reg) eqn:E; [exact Hreg|].
      rewrite map_app. simpl. apply NoDup_app. split; [exact Hreg|]. split.
      + intros j Hj Hj'. apply list_elem_of_singleton in Hj' as ->.
        by apply has_agent_false in E.
      + apply NoDup_singleton.
    - unfold unregisterAgent. destruct (has_agent i reg); [|exact Hreg].
      rewrite ids_filter_out. by apply NoDup_filter. }
  apply H. constructor.
Qed.

(** X2. Registering an agent whose id is free appends it to the registry,
    where it is found under its id; registering again under that id throws
    'Agent <id> is already registered'. Unregistering it gives the registry
    back as it was, and unregistering an id that is not registered throws
    'Agent <id> not found'. *)
Theorem register_unregister_round_trip a reg :
  has_agent (id a) reg = false ->
  registerAgent a reg = inl (reg ++ [a])
  /\ getAgent (id a) (reg ++ [a]) = Some a
  /\ (forall b, id b = id a ->
        registerAgent b (reg ++ [a])
        = inr ("Agent " +:+ id a +:+ " is already registered"))
  /\ unregisterAgent (id a) (reg ++ [a]) = inl reg
  /\ unregisterAgent (id a) reg = inr ("Agent " +:+ id a +:+ " not found").
Proof.
  intros H.
  assert (Hin : has_agent (id a) (reg ++ [a]) = true).
  { apply has_agent_spec. rewrite map_app. apply elem_of_app. right.
    simpl. left. }
  assert (Hno : forall x, x ∈ reg -> id x ≠ id a).
  { intros x Hx E. apply has_agent_false in H. apply H. rewrite <- E.
    by apply list_elem_of_fmap_2. }
  split; [unfold registerAgent; by rewrite H|]. split.
  - unfold getAgent. clear H Hin. induction reg as [|x reg IH]; simpl.
    + by rewrite bool_decide_eq_true_2.
    + rewrite bool_decide_eq_false_2 by (apply Hno; left).
      apply IH. intros y Hy. apply Hno. by right.
  - split.
    + intros b Hb. unfold registerAgent. rewrite Hb, Hin. reflexivity.
    + split.
      * unfold unregisterAgent. rewrite Hin. f_equal.
        rewrite filter_app. simpl. rewrite filter_cons.
        destruct (decide (id a ≠ id a)) as [?|_]; [congruence|].
        rewrite filter_nil, app_nil_r. clear H Hin.
        induction reg as [|x reg IH]; [reflexivity|].
        rewrite filter_cons. destruct (decide (id x ≠ id a)) as [_|E].
        -- f_equal. apply IH. intros y Hy. apply Hno. by right.
        -- exfalso. apply E, Hno. left.
      * unfold unregisterAgent. by rewrite H.
Qed.

Lemma register_unregister_round_trip_witness :
  has_agent (id tagger) [thrower] = false
  /\ registerAgent tagger [thrower] = inl [thrower; tagger]
  /\ unregisterAgent (id tagger) [thrower; tagger] = inl [thrower]
  /\ unregisterAgent (id tagger) [thrower]
     = inr "Agent agent-sum not found".
Proof.
  split; [reflexivity|].
  destruct (register_unregister_round_trip tagger [thrower] eq_refl)
    as (H1 & _ & _ & H2 & H3).
  split; [exact H1|]. split; [exact H2|exact H3].
Defined.

(** ** Stability of the sort *)

(** X3. Agents whose types have the same priority in the table of
    getAgentPriority (two of one type, or several of unlisted types) run in
    the order they were registered, when no type is the name of an inherited
    member of Object.prototype. *)
Theorem sortAgents_stable p l :
  ownTypes l ->
  filter (fun x => getAgentPriority x = p) (sortAgents l)
  = filter (fun x => getAgentPriority x = p) l.
Proof.
  intros _. induction l as [|a l IH]; simpl; [reflexivity|].
  rewrite PipelineProofs.insertByType_filter, !filter_cons, IH;
    [reflexivity|].
  intros x y Hx Hy. unfold comparePriority.
  unfold getAgentPriority in Hx, Hy. rewrite Hx, Hy.
  destruct p; simpl; [lia|reflexivity].
Qed.

Lemma sortAgents_stable_witness :
  ownTypes [quiet "a" "summarizer"; thrower; quiet "b" "summarizer"]
  /\ filter (fun x => getAgentPriority x = Numeric 60)
       (sortAgents [quiet "a" "summarizer"; thrower; quiet "b" "summarizer"])
     = [quiet "a" "summarizer"; quiet "b" "summarizer"].
Proof.
  assert (Hown : ownTypes [quiet "a" "summarizer"; thrower;
                           quiet "b" "summarizer"]).
  { refine (bool_decide_unpack _ _). vm_compute. exact I. }
  split; [exact Hown|].
  rewrite (sortAgents_stable (Numeric 60) _ Hown). reflexivity.
Defined.

(** ** The result map and the ledger *)

Lemma runAgent_results email st a :
  connected (db st) = true ->
  agentResults (runAgent email st a)
  = <[id a := recorded (process a (processedEmail st))]> (agentResults st).
Proof.
  intros Hc. unfold runAgent, saveAgentTask. rewrite Hc. simpl.
  destruct (process a (processedEmail st)); reflexivity.
Qed.

Lemma runAgent_results_dom email st a :
  dom (agentResults (runAgent email st a)) = {[ id a ]} ∪ dom (agentResults st).
Proof.
  unfold runAgent, saveAgentTask. destruct (connected (db st)); simpl.
  - destruct (process a (processedEmail st)); simpl; by rewrite dom_insert_L.
  - by rewrite dom_insert_L.
Qed.

Lemma foldl_results_dom email l : forall st,
  dom (agentResults (foldl (runAgent email) st l))
  = list_to_set (map id l) ∪ dom (agentResults st).
Proof.
  induction l as [|a l IH]; intros st; simpl.
  - by rewrite union_empty_l_L.
  - rewrite IH, runAgent_results_dom. apply set_eq. intros i.
    rewrite !elem_of_union, elem_of_singleton. tauto.
Qed.

Lemma foldl_results_other email l : forall st i,
  i ∉ map id l ->
  agentResults (foldl (runAgent email) st l) !! i = agentResults st !! i.
Proof.
  induction l as [|a l IH]; intros st i Hi; simpl; [reflexivity|].
  simpl in Hi. apply not_elem_of_cons in Hi as [Hne Hi].
  rewrite IH by exact Hi.
  unfold runAgent, saveAgentTask. destruct (connected (db st)); simpl.
  - destruct (process a (processedEmail st)); simpl;
      by rewrite lookup_insert_ne.
  - by rewrite lookup_insert_ne.
Qed.

(** X4. The keys of agentResults in the returned ProcessingResult are exactly
    the ids of the registered agents, whether an agent succeeded, failed or
    threw, and whether or not the database could be written. *)
Theorem one_result_per_agent d u agents email :
  dom (pr_agentResults (processEmailInternal d u agents email))
  = list_to_set (map id agents).
Proof.
  unfold processEmailInternal, runPipeline. simpl.
  rewrite foldl_results_dom. simpl. rewrite dom_empty_L, union_empty_r_L.
  apply set_eq. intros i. rewrite !elem_of_list_to_set.
  by rewrite (PipelineProofs.sortAgents_perm agents).
Qed.

Lemma foldl_runAgent_uuids email l : forall st,
  uuids (foldl (runAgent email) st l) = (uuids st + List.length l)%nat.
Proof.
  induction l as [|a l IH]; intros st; simpl; [lia|].
  rewrite IH, PipelineProofs.runAgent_uuids. lia.
Qed.

Lemma runAgent_ledger email st a :
  connected (db st) = true ->
  agent_tasks (db (runAgent email st a)) !! uuids st
  = Some (ledgerEntry (uuids st) a email (processedEmail st)).
Proof.
  intros Hc. unfold runAgent, saveAgentTask, ledgerEntry. rewrite Hc. simpl.
  destruct (process a (processedEmail st)); simpl; by rewrite lookup_insert_eq.
Qed.

(** The state of the loop when the turn of [a] comes. *)
Lemma pipeline_split d u email s1 a s2 :
  connected d = true ->
  exists st,
    foldl (runAgent email)
      {| db := d; uuids := u; agentResults := ∅;
         processedEmail := email; calls := [] |} (s1 ++ a :: s2)
    = foldl (runAgent email) (runAgent email st a) s2
    /\ connected (db st) = true
    /\ processedEmail st = sequential_application s1 email
    /\ uuids st = (u + List.length s1)%nat.
Proof.
  intros Hc. rewrite foldl_app. simpl. eexists. split; [reflexivity|].
  destruct (PipelineProofs.foldl_runAgent email s1
    {| db := d; uuids := u; agentResults := ∅;
       processedEmail := email; calls := [] |} Hc) as (H1 & H2 & _).
  split; [exact H1|]. split; [exact H2|]. by rewrite foldl_runAgent_uuids.
Qed.

(** X5. With the database connected and agent ids distinct, the entry of an
    agent in agentResults is the result its process() returned on the email
    accumulated from the agents that ran before it, or {success: false, error:
    message} when it threw. *)
Theorem result_map_records_outcome d u agents email s1 a s2 :
  connected d = true ->
  NoDup (map id agents) ->
  sortAgents agents = s1 ++ a :: s2 ->
  pr_agentResults (processEmailInternal d u agents email) !! id a
  = Some (recorded (process a (sequential_application s1 email))).
Proof.
  intros Hc Hnd Hs. unfold processEmailInternal, runPipeline. simpl.
  rewrite Hs. destruct (pipeline_split d u email s1 a s2 Hc)
    as (st & -> & Hst & He & _).
  assert (Hids : NoDup (map id (s1 ++ a :: s2))).
  { rewrite <- Hs. by rewrite (PipelineProofs.sortAgents_perm agents). }
  rewrite map_app in Hids. apply NoDup_app in Hids as (_ & _ & Hids).
  simpl in Hids. apply NoDup_cons in Hids as [Hnot _].
  rewrite foldl_results_other by exact Hnot.
  rewrite runAgent_results by exact Hst. rewrite lookup_insert_eq, He.
  reflexivity.
Qed.

Lemma result_map_records_outcome_witness :
  connected connectedDb = true
  /\ sortAgents [tagger; thrower] = [thrower] ++ tagger :: []
  /\ pr_agentResults (processEmailInternal connectedDb 0 [tagger; thrower]
                        inbound) !! id tagger
     = Some (recorded (process tagger (sequential_application [thrower]
                                         inbound))).
Proof.
  split; [reflexivity|]. split; [reflexivity|].
  apply (result_map_records_outcome connectedDb 0 [tagger; thrower] inbound
           [thrower] tagger []); [reflexivity| |reflexivity].
  refine (bool_decide_unpack _ _). vm_compute. exact I.
Defined.

Lemma runPipeline_ledger d u agents email s1 a s2 :
  connected d = true ->
  sortAgents agents = s1 ++ a :: s2 ->
  agent_tasks (db (runPipeline d u agents email)) !! (u + List.length s1)%nat
  = Some (ledgerEntry (u + List.length s1) a email
            (sequential_application s1 email)).
Proof.
  intros Hc Hs. unfold runPipeline. rewrite Hs.
  destruct (pipeline_split d u email s1 a s2 Hc) as (st & -> & Hst & He & Hu).
  rewrite PipelineProofs.foldl_runAgent_older_tasks
    by (rewrite PipelineProofs.runAgent_uuids; lia).
  rewrite <- Hu, <- He. by apply runAgent_ledger.
Qed.

(** X6. With the database connected, the task stored under the identifier
    drawn for an agent's turn carries that agent's id, the id of the caller's
    email and the accumulated email the agent was given; it is completed or
    failed with the result when process() returned, and still processing with
    no result when it threw. *)
Theorem ledger_records_turn d u agents email s1 a s2 :
  connected d = true ->
  sortAgents agents = s1 ++ a :: s2 ->
  agent_tasks (db (runPipeline d u agents email)) !! (u + List.length s1)%nat
  = Some (ledgerEntry (u + List.length s1) a email
            (sequential_application s1 email)).
Proof. exact (runPipeline_ledger d u agents email s1 a s2). Qed.

(** ** Without a database *)

Lemma runAgent_offline email st a :
  connected (db st) = false ->
  db (runAgent email st a) = db st
  /\ agentResults (runAgent email st a)
     = <[id a := caught (Some "Database not connected")]> (agentResults st).
Proof.
  intros Hc. unfold runAgent, saveAgentTask. rewrite Hc. simpl. auto.
Qed.

Lemma ledger_records_turn_witness :
  connected connectedDb = true
  /\ agent_tasks (db (runPipeline connectedDb 7 [tagger; thrower] inbound))
       !! 8%nat
     = Some (ledgerEntry 8 tagger inbound
               (sequential_application [thrower] inbound)).
Proof.
  split; [reflexivity|].
  exact (ledger_records_turn connectedDb 7 [tagger; thrower] inbound
           [thrower] tagger [] eq_refl eq_refl).
Defined.

Lemma foldl_runAgent_offline email l : forall st,
  connected (db st) = false ->
  db (foldl (runAgent email) st l) = db st
  /\ forall a, a ∈ l ->
       agentResults (foldl (runAgent email) st l) !! id a
       = Some (caught (Some "Database not connected")).
Proof.
  induction l as [|a l IH]; intros st Hc; simpl.
  - split; [reflexivity|]. intros a Ha. by apply elem_of_nil in Ha.
  - destruct (runAgent_offline email st a Hc) as [Hd Hr].
    destruct (IH (runAgent email st a)) as [Hd' Hr']; [by rewrite Hd|].
    split; [by rewrite Hd'|]. intros b Hb.
    destruct (decide (id b ∈ map id l)) as [Hin|Hout].
    + apply list_elem_of_fmap in Hin as (c & Hc' & Hin).
      rewrite Hc'. by apply Hr'.
    + rewrite foldl_results_other by exact Hout. rewrite Hr.
      apply elem_of_cons in Hb as [->|Hb].
      * by rewrite lookup_insert_eq.
      * exfalso. apply Hout. by apply list_elem_of_fmap_2.
Qed.

(** X7. When the database is not connected, saveAgentTask throws before any
    agent is called: no process() runs, the final email is the caller's email,
    the database is unchanged, and every agent's entry in agentResults is
    {success: false, error: 'Database not connected'}. *)
Theorem pipeline_without_database d u agents email :
  connected d = false ->
  calls (runPipeline d u agents email) = []
  /\ finalEmail (processEmailInternal d u agents email) = email
  /\ db (runPipeline d u agents email) = d
  /\ forall a, a ∈ agents ->
       pr_agentResults (processEmailInternal d u agents email) !! id a
       = Some {| success := false; modifications := None;
                 error := Some "Database not connected" |}.
Proof.
  intros Hc.
  destruct (PipelineProofs.pipeline_disconnected d u agents email Hc) as [H1 H2].
  split; [exact H1|]. split; [exact H2|].
  unfold processEmailInternal, runPipeline. simpl.
  destruct (foldl_runAgent_offline email (sortAgents agents)
    {| db := d; uuids := u; agentResults := ∅;
       processedEmail := email; calls := [] |} Hc) as [Hd Hr].
  split; [exact Hd|]. intros a Ha. apply Hr.
  by rewrite (PipelineProofs.sortAgents_perm agents).
Qed.

Lemma pipeline_without_database_witness :
  connected offlineDb = false
  /\ calls (runPipeline offlineDb 0 [tagger; thrower] inbound) = []
  /\ finalEmail (processEmailInternal offlineDb 0 [tagger; thrower] inbound)
     = inbound.
Proof.
  split; [reflexivity|].
  destruct (pipeline_without_database offlineDb 0 [tagger; thrower] inbound
              eq_refl) as (H1 & H2 & _).
  split; [exact H1|exact H2].
Defined.

(** ** Fields *)

Lemma sequential_application_frame k l : forall e,
  (forall a x m, a ∈ l -> successful_modifications a x = Some m ->
                 m !! k = None) ->
  sequential_application l e !! k = e !! k.
Proof.
  induction l as [|a l IH]; intros e H; simpl; [reflexivity|].
  unfold sequential_application in *. simpl. rewrite IH.
  - unfold apply_unit.
    destruct (successful_modifications a e) as [m|] eqn:E; [|reflexivity].
    apply lookup_union_r. apply (H a e m); [left|exact E].
  - intros b x m Hb. apply H. by right.
Qed.

Lemma pipeline_final d u agents email :
  finalEmail (processEmailInternal d u agents email)
  = if connected d then sequential_application (sortAgents agents) email
    else email.
Proof.
  destruct (connected d) eqn:Hc.
  - by destruct (PipelineProofs.pipeline_order_aux d u agents email Hc).
  - by destruct (PipelineProofs.pipeline_disconnected d u agents email Hc).
Qed.

(** X8. A field that no registered agent mentions in the modifications of a
    successful result has, in the final email, the value it had in the
    caller's email (or is absent as it was there). *)
Theorem untouched_field_kept d u agents email k :
  (forall a x m, a ∈ agents -> successful_modifications a x = Some m ->
                 m !! k = None) ->
  finalEmail (processEmailInternal d u agents email) !! k = email !! k.
Proof.
  intros H. rewrite pipeline_final. destruct (connected d); [|reflexivity].
  apply sequential_application_frame. intros a x m Ha. apply H.
  by rewrite <- (PipelineProofs.sortAgents_perm agents).
Qed.

Lemma untouched_field_kept_witness :
  finalEmail (processEmailInternal connectedDb 0 [tagger; thrower] inbound)
    !! "subject"
  = inbound !! "subject".
Proof.
  apply (untouched_field_kept connectedDb 0 [tagger; thrower] inbound).
  intros a x m Ha Hm.
  apply elem_of_cons in Ha as [->|Ha].
  - injection Hm as <-. reflexivity.
  - apply list_elem_of_singleton in Ha as ->. discriminate Hm.
Defined.

(** X9. When an agent's successful result sets a field and no agent that runs
    after it mentions that field, the final email holds that agent's value for
    it, whatever earlier agents or the caller's email said. *)
Theorem last_writer_decides d u agents email s1 a s2 m k v :
  connected d = true ->
  sortAgents agents = s1 ++ a :: s2 ->
  successful_modifications a (sequential_application s1 email) = Some m ->
  m !! k = Some v ->
  (forall b x n, b ∈ s2 -> successful_modifications b x = Some n ->
                 n !! k = None) ->
  finalEmail (processEmailInternal d u agents email) !! k = Some v.
Proof.
  intros Hc Hs Hm Hk Hrest. rewrite pipeline_final, Hc, Hs.
  unfold sequential_application. rewrite foldl_app. simpl.
  fold (sequential_application s1 email).
  fold (sequential_application s2
          (apply_unit (sequential_application s1 email) a)).
  rewrite sequential_application_frame by exact Hrest.
  unfold apply_unit. rewrite Hm. by apply lookup_union_Some_l.
Qed.

Lemma last_writer_decides_witness :
  connected connectedDb = true
  /\ finalEmail (processEmailInternal connectedDb 0 [tagger; thrower] inbound)
       !! "snippet"
     = Some (JStr "Q3").
Proof.
  split; [reflexivity|].
  apply (last_writer_decides connectedDb 0 [tagger; thrower] inbound
           [thrower] tagger [] {[ "snippet" := JStr "Q3" ]});
    [reflexivity|reflexivity|reflexivity|reflexivity|].
  intros b x n Hb. by apply elem_of_nil in Hb.
Defined.

End PipelineExtras.

(* ===================================================================== *)
(** * Further properties of the campaign service *)
(* ===================================================================== *)

Module CampaignExtras.
Import Campaigns Relations CampaignProofs.

(** ** What a call leaves related to the state it started from *)

Section Preserved.
Variable R : Service -> Service -> Prop.
Hypothesis R_refl : forall s, R s s.
Hypothesis R_trans : forall s1 s2 s3, R s1 s2 -> R s2 s3 -> R s1 s3.

Lemma keeps_resolve {A} (a : A) : keeps R (resolve a).
Proof. intros s. apply R_refl. Qed.

Lemma keeps_throw {A} e : keeps R (@throw A e).
Proof. intros s. apply R_refl. Qed.

Lemma keeps_await {A B} (m : Async A) (k : A -> Async B) :
  keeps R m -> (forall a, keeps R (k a)) -> keeps R (await m k).
Proof.
  intros Hm Hk s. unfold await. specialize (Hm s).
  destruct (m s) as [[a|e] s1]; simpl in *; [|exact Hm].
  eapply R_trans; [exact Hm|apply Hk].
Qed.

Lemma keeps_rethrow {A} p (m : Async A) : keeps R m -> keeps R (rethrow p m).
Proof.
  intros Hm s. unfold rethrow. specialize (Hm s).
  destruct (m s) as [[a|e] s1]; exact Hm.
Qed.

Lemma keeps_getCampaign i : keeps R (getCampaign i).
Proof. intros s. apply R_refl. Qed.

Lemma keeps_getDraft i : keeps R (getDraft i).
Proof. intros s. apply R_refl. Qed.

Lemma keeps_forMatching cid f l :
  (forall j, keeps R (f j)) -> keeps R (forMatching cid f l).
Proof.
  intros Hf. induction l as [|j l IH]; simpl; [apply keeps_resolve|].
  apply keeps_await; [|intros _; exact IH].
  case_bool_decide; [apply Hf|apply keeps_resolve].
Qed.

(** The methods of the service, given that its writes keep [R]. *)
Section Writes.
Variable i : string.
Hypothesis keeps_set : forall c, keeps R (setCampaign i c).
Hypothesis keeps_remove : keeps R (removeCampaign i).
Hypothesis keeps_bump : keeps R (bumpStoredSent i).
Hypothesis keeps_log : keeps R (logExecution i).
Hypothesis keeps_add : forall nm o, keeps R (queueAdd nm i o).
Hypothesis keeps_list : forall sts, keeps R (getJobs sts).
Hypothesis keeps_jobRemove : forall j, keeps R (jobRemove j).
Hypothesis keeps_jobFail : forall j r, keeps R (jobMoveToFailed j r).

Lemma keeps_updateCampaign now u : keeps R (updateCampaign now i u).
Proof.
  apply keeps_rethrow, keeps_await; [apply keeps_getCampaign|].
  intros [c|]; [|apply keeps_throw].
  apply keeps_await; [apply keeps_set|intros _; apply keeps_resolve].
Qed.

Lemma keeps_executeCampaign now : keeps R (executeCampaign now i).
Proof.
  apply keeps_await; [apply keeps_getCampaign|].
  intros [c|]; [|apply keeps_throw].
  repeat (apply keeps_await; [|intros _]);
    auto using keeps_updateCampaign, keeps_resolve.
Qed.

Lemma keeps_scheduleCampaign now sch : keeps R (scheduleCampaign now i sch).
Proof.
  apply keeps_rethrow, keeps_await; [apply keeps_getCampaign|].
  intros [c|]; [|apply keeps_throw].
  repeat (apply keeps_await; [|intros _]);
    auto using keeps_updateCampaign.
  destruct (frequency sch).
  - apply keeps_add.
  - unfold scheduleOneTimeCampaign. destruct (0 <? _).
    + apply keeps_add.
    + apply keeps_executeCampaign.
Qed.

Lemma keeps_pauseCampaign now : keeps R (pauseCampaign now i).
Proof.
  apply keeps_rethrow, keeps_await; [apply keeps_getCampaign|].
  intros [c|]; [|apply keeps_throw].
  repeat (apply keeps_await; [|intros ?]);
    auto using keeps_updateCampaign.
  apply keeps_forMatching. intros j. apply keeps_jobFail.
Qed.

Lemma keeps_resumeCampaign now : keeps R (resumeCampaign now i).
Proof.
  apply keeps_rethrow, keeps_await; [apply keeps_getCampaign|].
  intros [c|]; [|apply keeps_throw].
  case_bool_decide; [apply keeps_throw|].
  repeat (apply keeps_await; [|intros ?]);
    auto using keeps_updateCampaign, keeps_scheduleCampaign.
Qed.

Lemma keeps_deleteCampaign : keeps R (deleteCampaign i).
Proof.
  apply keeps_rethrow, keeps_await; [apply keeps_getCampaign|].
  intros [c|]; [|apply keeps_resolve].
  apply keeps_await.
  - case_bool_decide; [|apply keeps_resolve].
    apply keeps_await; [apply keeps_list|].
    intros js. apply keeps_forMatching. intros j. apply keeps_jobRemove.
  - intros _. apply keeps_await; [apply keeps_remove|].
    intros _. apply keeps_resolve.
Qed.

Lemma keeps_perform now op : keeps R (perform now i op).
Proof.
  destruct op; simpl;
    auto using keeps_scheduleCampaign, keeps_pauseCampaign,
               keeps_resumeCampaign.
  apply keeps_await; [apply keeps_deleteCampaign|].
  intros _. apply keeps_resolve.
Qed.
End Writes.
End Preserved.

Lemma keeps_queueCall_untouched (R : Service -> Service -> Prop) :
  (forall s, R s s) -> (forall s q, R s (withQueue s q)) ->
  forall A (f : Queue -> A * Queue), keeps R (queueCall f).
Proof.
  intros Hr Hq A f s. unfold queueCall.
  destruct (fault (campaignQueue s)); [apply Hr|].
  destruct (f _). apply Hq.
Qed.

(** [add] and [moveToFailed] keep what every call to Redis keeps. *)
Lemma keeps_queueAdd_via (R : Service -> Service -> Prop) :
  (forall s, R s s) ->
  (forall A (f : Queue -> A * Queue), keeps R (queueCall f)) ->
  forall i nm o, keeps R (queueAdd nm i o).
Proof.
  intros Hr Hq i nm o s. unfold queueAdd. destruct o; [apply Hq|].
  destruct (admits _ _); [apply Hq|apply Hr|apply Hr].
Qed.

Lemma keeps_jobMoveToFailed_via (R : Service -> Service -> Prop) :
  (forall s, R s s) ->
  (forall A (f : Queue -> A * Queue), keeps R (queueCall f)) ->
  forall j r, keeps R (jobMoveToFailed j r).
Proof.
  intros Hr Hq j r s. unfold jobMoveToFailed.
  destruct (onMoveToFailed _ _ _); [apply Hq|apply Hr].
Qed.

(** X10. scheduleCampaign, pauseCampaign, resumeCampaign and deleteCampaign
    called for one campaign id, resolved or rejected, leave every campaign
    stored under another id and all drafts as they were. *)
Theorem operation_leaves_other_campaigns now i op s :
  sameElsewhere i s (after s (perform now i op)).
Proof.
  assert (Hr : forall s0, sameElsewhere i s0 s0)
    by (intros s0; split; [reflexivity|intros; reflexivity]).
  assert (Hq : forall A (f : Queue -> A * Queue),
             keeps (sameElsewhere i) (queueCall f)).
  { apply keeps_queueCall_untouched; [exact Hr|].
    intros s0 q. split; [reflexivity|intros; reflexivity]. }
  apply (keeps_perform (sameElsewhere i)); try (intros; apply Hq);
    try (apply (keeps_queueAdd_via _ Hr Hq i));
    try (apply (keeps_jobMoveToFailed_via _ Hr Hq)).
  - exact Hr.
  - intros s1 s2 s3 [Hd1 Hc1] [Hd2 Hc2]. split; [congruence|].
    intros j Hj. rewrite Hc2, Hc1 by exact Hj. reflexivity.
  - intros c s0. split; [reflexivity|]. intros j Hj. simpl.
    by rewrite lookup_insert_ne.
  - intros s0. split; [reflexivity|]. intros j Hj. simpl.
    by rewrite lookup_delete_ne.
  - intros s0. split; [reflexivity|]. intros j Hj. simpl.
    by rewrite lookup_alter_ne.
  - intros s0. split; [reflexivity|]. intros; reflexivity.
Qed.

(** ** Job ids *)

Lemma distinctJobIds_add q nm cid o :
  distinctJobIds q -> distinctJobIds (appendJob nm cid o q).
Proof.
  intros [Hnd Hlt]. split; simpl.
  - rewrite map_app. apply NoDup_app. split; [exact Hnd|]. split.
    + intros n Hn Hn'. apply list_elem_of_singleton in Hn' as ->.
      apply list_elem_of_fmap in Hn as (j & Hj & Hin).
      rewrite Forall_forall in Hlt. specialize (Hlt j Hin). simpl in Hlt, Hj. lia.
    + apply NoDup_singleton.
  - apply Forall_app. split.
    + eapply Forall_impl; [exact Hlt|]. simpl. intros; lia.
    + constructor; [simpl; lia|constructor].
Qed.

Lemma ids_filter (P : Job -> Prop) `{forall x, Decision (P x)} (l : list Job) :
  sublist (map job_id (filter P l)) (map job_id l).
Proof. apply (fmap_sublist job_id), sublist_filter. Qed.

Lemma distinctJobIds_filter q (P : Job -> Prop) `{forall x, Decision (P x)} :
  distinctJobIds q ->
  distinctJobIds (withJobs q (filter P (jobs q)) (next_job q)).
Proof.
  intros [Hnd Hlt]. split; simpl.
  - eapply sublist_NoDup; [exact Hnd|apply ids_filter].
  - rewrite Forall_forall in Hlt |- *. intros x Hx.
    apply list_elem_of_filter in Hx as [_ Hx]. by apply Hlt.
Qed.

Lemma distinctJobIds_map q (g : Job -> Job) :
  (forall x, job_id (g x) = job_id x) ->
  distinctJobIds q ->
  distinctJobIds (withJobs q (map g (jobs q)) (next_job q)).
Proof.
  intros Hg [Hnd Hlt]. split; simpl.
  - rewrite map_map. erewrite map_ext; [exact Hnd|]. intros x. apply Hg.
  - apply Forall_fmap. eapply Forall_impl; [exact Hlt|].
    intros x Hx. simpl in *. rewrite Hg. exact Hx.
Qed.

(** X11. If the jobs of the campaign queue have pairwise distinct ids, all
    below the next id the queue will hand out, this is still so after
    scheduleCampaign, pauseCampaign, resumeCampaign or deleteCampaign,
    resolved or rejected. *)
Theorem operations_keep_job_ids_distinct now i op s :
  distinctJobIds (campaignQueue s) ->
  distinctJobIds (campaignQueue (after s (perform now i op))).
Proof.
  set (R := fun s0 s1 : Service =>
              distinctJobIds (campaignQueue s0) ->
              distinctJobIds (campaignQueue s1)).
  assert (Hr : forall s0, R s0 s0) by (intros s0 H; exact H).
  assert (Hcall : forall A (f : Queue -> A * Queue),
             (forall q, distinctJobIds q -> distinctJobIds (snd (f q))) ->
             keeps R (queueCall f)).
  { intros A f Hf s0 H. unfold queueCall.
    destruct (fault (campaignQueue s0)); [exact H|].
    specialize (Hf _ H). destruct (f _). exact Hf. }
  assert (Hsame : forall A (m : Async A),
             (forall s0, campaignQueue (snd (m s0)) = campaignQueue s0) ->
             keeps R m).
  { intros A m Hm s0 H. by rewrite Hm. }
  apply (keeps_perform R); try (intros; apply Hsame; reflexivity).
  - exact Hr.
  - intros s1 s2 s3 H12 H23 H. apply H23, H12, H.
  - intros nm o s0. unfold queueAdd.
    assert (Ha : keeps R (queueCall (fun q => (tt, appendJob nm i o q))))
      by (apply Hcall; intros q; apply distinctJobIds_add).
    destruct o; [apply Ha|].
    destruct (admits _ _); [apply Ha|apply Hr|apply Hr].
  - intros sts. apply Hcall. intros q H. exact H.
  - intros j. apply Hcall. intros q. simpl. apply distinctJobIds_filter.
  - intros j r s0. unfold jobMoveToFailed.
    destruct (onMoveToFailed _ _ _) as [st m|e]; [|apply Hr].
    apply Hcall. intros q. simpl. apply distinctJobIds_map.
    intros x. case_bool_decide; reflexivity.
Qed.

Lemma operations_keep_job_ids_distinct_witness :
  distinctJobIds (campaignQueue scheduledService)
  /\ distinctJobIds
       (campaignQueue (after scheduledService (perform 2000 "c-1" OpPause))).
Proof.
  assert (H : distinctJobIds (campaignQueue scheduledService)).
  { split.
    - refine (bool_decide_unpack _ _). vm_compute. exact I.
    - repeat constructor. }
  split; [exact H|].
  exact (operations_keep_job_ids_distinct 2000 "c-1" OpPause scheduledService H).
Defined.

(** ** The loops of pause and delete, job by job *)

Lemma idsOf_cons cid j l :
  idsOf cid (j :: l)
  = if bool_decide (job_campaignId j = cid) then job_id j :: idsOf cid l
    else idsOf cid l.
Proof.
  unfold idsOf. rewrite filter_cons.
  destruct (decide (job_campaignId j = cid)).
  - by rewrite bool_decide_eq_true_2.
  - by rewrite bool_decide_eq_false_2.
Qed.

Lemma filter_all {A} (P : A -> Prop) `{forall x, Decision (P x)} (l : list A) :
  (forall x, x ∈ l -> P x) -> filter P l = l.
Proof.
  induction l as [|x l IH]; intros Hall; [reflexivity|].
  rewrite filter_cons. destruct (decide (P x)) as [_|Hn].
  - f_equal. apply IH. intros y Hy. apply Hall. by right.
  - exfalso. apply Hn, Hall. left.
Qed.

Lemma map_same {A} (g : A -> A) (l : list A) :
  (forall x, g x = x) -> map g l = l.
Proof.
  intros Hg. induction l as [|x l IH]; simpl; [reflexivity|].
  by rewrite Hg, IH.
Qed.

Lemma withJobs_same q : withJobs q (jobs q) (next_job q) = q.
Proof. destruct q; reflexivity. Qed.

Lemma forMatching_remove_jobs cid l : forall s,
  fault (campaignQueue s) = None ->
  forMatching cid jobRemove l s
  = (Resolved tt,
     withQueue s
       (withJobs (campaignQueue s)
          (filter (fun x => job_id x ∉ idsOf cid l) (jobs (campaignQueue s)))
          (next_job (campaignQueue s)))).
Proof.
  induction l as [|j l IH]; intros s Hq; simpl.
  - unfold resolve. f_equal. rewrite <- (withQueue_same s) at 1.
    f_equal. rewrite filter_all; [by rewrite withJobs_same|].
    intros x _. apply not_elem_of_nil.
  - unfold await. rewrite idsOf_cons. case_bool_decide.
    + unfold jobRemove at 1. rewrite queueCall_up by exact Hq. simpl.
      rewrite IH by exact Hq. simpl. unfold withQueue, withJobs. simpl.
      do 3 f_equal.
      rewrite list_filter_filter. apply list_filter_iff. intros x.
      rewrite not_elem_of_cons. tauto.
    + unfold resolve. by apply IH.
Qed.

(** The loop of [pauseCampaign]: whatever [moveToFailed] does and wherever
    the loop stops, every job is where it was, and only a job the loop
    reaches can have moved. *)
Lemma forMatching_move cid r l : forall s,
  exists out q,
    forMatching cid (fun j => jobMoveToFailed j r) l s = (out, withQueue s q)
    /\ Forall2 (moved_or_kept (fun x => job_id x ∈ idsOf cid l))
         (jobs (campaignQueue s)) (jobs q).
Proof.
  assert (Hstay : forall s0 (R : Job -> Prop),
    Forall2 (moved_or_kept R) (jobs (campaignQueue s0))
            (jobs (campaignQueue s0))).
  { intros s0 R. apply Forall_Forall2_diag, Forall_forall. intros x _.
    by left. }
  induction l as [|j l IH]; intros s; simpl.
  - exists (Resolved tt), (campaignQueue s). rewrite withQueue_same.
    split; [reflexivity|apply Hstay].
  - unfold await. rewrite idsOf_cons. case_bool_decide as Hc.
    + unfold jobMoveToFailed at 1.
      destruct (onMoveToFailed (campaignQueue s) j r) as [st m|e].
      * unfold queueCall. destruct (fault (campaignQueue s)) as [e|].
        { exists (Rejected e), (campaignQueue s). rewrite withQueue_same.
          split; [reflexivity|apply Hstay]. }
        destruct (IH (withQueue s
          (withJobs (campaignQueue s)
             (map (fun x => if bool_decide (job_id x = job_id j)
                            then movedJob st m x else x)
                  (jobs (campaignQueue s)))
             (next_job (campaignQueue s))))) as (out & q & E & HF).
        rewrite E. exists out, q. split; [reflexivity|].
        simpl in HF. rewrite Forall2_fmap_l in HF.
        eapply Forall2_impl; [exact HF|]. intros x y Hxy. simpl in Hxy.
        case_bool_decide as Hid.
        -- right. split; [rewrite Hid; left|].
           destruct Hxy as [->|(_ & st' & m' & ->)]; by eexists _, _.
        -- destruct Hxy as [->|(Hin & st' & m' & ->)]; [by left|].
           right. split; [by right|]. by eexists _, _.
      * exists (Rejected e), (campaignQueue s). rewrite withQueue_same.
        split; [reflexivity|apply Hstay].
    + unfold resolve. destruct (IH s) as (out & q & E & HF).
      exists out, q. split; [exact E|exact HF].
Qed.

(** With distinct ids, the jobs the loop reaches are the pending jobs of the
    campaign. *)
Lemma idsOf_pending cid q x :
  NoDup (map job_id (jobs q)) ->
  x ∈ jobs q ->
  job_id x ∈ idsOf cid (filter (fun j => state j ∈ [waiting; delayed]) (jobs q))
  <-> pendingFor cid x.
Proof.
  intros Hnd Hx. unfold idsOf, pendingFor. split.
  - intros Hin. apply list_elem_of_fmap in Hin as (j & Hid & Hj).
    apply list_elem_of_filter in Hj as [Hc Hj].
    apply list_elem_of_filter in Hj as [Hst Hj].
    assert (x = j) as ->; [|by split].
    apply list_elem_of_lookup in Hx as [n Hn].
    apply list_elem_of_lookup in Hj as [k Hk].
    assert (n = k) as ->.
    { eapply NoDup_lookup; [exact Hnd| |];
        rewrite list_lookup_fmap; [by rewrite Hn|by rewrite Hk, Hid]. }
    congruence.
  - intros [Hst Hc]. apply list_elem_of_fmap_2'  with (x := x); [|reflexivity].
    apply list_elem_of_filter. split; [exact Hc|].
    apply list_elem_of_filter. by split.
Qed.


Lemma filter_none {A} (P : A -> Prop) `{forall x, Decision (P x)} (l : list A) :
  (forall x, x ∈ l -> ~ P x) -> filter P l = [].
Proof.
  induction l as [|x l IH]; intros Hall; [reflexivity|].
  rewrite filter_cons. destruct (decide (P x)) as [Hp|_].
  - exfalso. apply (Hall x); [left|exact Hp].
  - apply IH. intros y Hy. apply Hall. by right.
Qed.

Lemma map_ext_elem {A B} (f g : A -> B) (l : list A) :
  (forall x, x ∈ l -> f x = g x) -> map f l = map g l.
Proof.
  induction l as [|x l IH]; intros H; simpl; [reflexivity|].
  rewrite H by left. f_equal. apply IH. intros y Hy. apply H. by right.
Qed.

Lemma filter_ext_elem {A} (P Q : A -> Prop) `{forall x, Decision (P x)}
    `{forall x, Decision (Q x)} (l : list A) :
  (forall x, x ∈ l -> P x <-> Q x) -> filter P l = filter Q l.
Proof.
  induction l as [|x l IH]; intros H1; [reflexivity|].
  rewrite !filter_cons.
  destruct (decide (P x)) as [Hp|Hp], (decide (Q x)) as [Hq|Hq].
  - f_equal. apply IH. intros y Hy. apply H1. by right.
  - exfalso. apply Hq, (H1 x); [left|exact Hp].
  - exfalso. apply Hp, (H1 x); [left|exact Hq].
  - apply IH. intros y Hy. apply H1. by right.
Qed.

(** X12. pauseCampaign on a stored campaign, whether it resolves or is
    rejected at the queue, leaves the campaign stored with status 'paused' and
    executes nothing. Every job of the queue is where it was: a job that is
    not a waiting or delayed job of that campaign is untouched, and a waiting
    or delayed job of it is untouched or left by moveToFailed in some state,
    with its id, name, campaign and options kept. *)
Theorem pause_touches_only_pending_jobs now i s c :
  campaigns s !! i = Some c ->
  distinctJobIds (campaignQueue s) ->
  let s' := after s (pauseCampaign now i) in
  statusOf i s' = Some st_paused
  /\ executions s' = executions s
  /\ drafts s' = drafts s
  /\ Forall2 (moved_or_kept (pendingFor i))
       (jobs (campaignQueue s)) (jobs (campaignQueue s')).
Proof.
  intros H [Hnd _] s'. subst s'. unfold after.
  rewrite (pauseCampaign_found now i s c H).
  remember (withCampaigns s
    (<[i := spread (withStatus c st_paused) (withStatus c st_paused) now]>
       (campaigns s))) as s0 eqn:Es0.
  assert (Hq : campaignQueue s0 = campaignQueue s) by (by subst).
  assert (He : executions s0 = executions s) by (by subst).
  assert (Hd : drafts s0 = drafts s) by (by subst).
  assert (Hs : statusOf i s0 = Some st_paused).
  { subst s0. unfold statusOf. simpl. by rewrite lookup_insert_eq. }
  clear Es0.
  assert (Hstay : Forall2 (moved_or_kept (pendingFor i))
            (jobs (campaignQueue s)) (jobs (campaignQueue s))).
  { apply Forall_Forall2_diag, Forall_forall. intros x _. by left. }
  unfold rethrow, await, getJobs, queueCall.
  destruct (fault (campaignQueue s0)).
  { simpl. rewrite Hq. by repeat split. }
  match goal with
  | |- context [forMatching i ?f ?l ?s1] =>
      destruct (forMatching_move i "Campaign paused" l s1)
        as (out & q & E & HF); rewrite E
  end.
  assert (HF' : Forall2 (moved_or_kept (pendingFor i))
            (jobs (campaignQueue s)) (jobs q)).
  { simpl in HF. rewrite Hq in HF. apply Forall2_same_length_lookup.
    split; [by eapply Forall2_length|].
    intros k x y Hx Hy.
    pose proof (Forall2_lookup_lr _ _ _ _ _ _ HF Hx Hy) as Hxy.
    destruct Hxy as [->|(Hin & st & m & ->)]; [by left|].
    right. split; [|by eexists _, _].
    apply (idsOf_pending i (campaignQueue s) x Hnd); [|exact Hin].
    by eapply list_elem_of_lookup_2. }
  destruct out; simpl; by repeat split.
Qed.

Lemma pause_touches_only_pending_jobs_witness :
  campaigns scheduledService !! "c-1" = Some scheduledLaunch
  /\ statusOf "c-1" (after scheduledService (pauseCampaign 2000 "c-1"))
     = Some st_paused
  /\ Forall2 (moved_or_kept (pendingFor "c-1"))
       (jobs (campaignQueue scheduledService))
       (jobs (campaignQueue
                (after scheduledService (pauseCampaign 2000 "c-1")))).
Proof.
  split; [reflexivity|].
  destruct (pause_touches_only_pending_jobs 2000 "c-1" scheduledService
              scheduledLaunch eq_refl) as (H1 & _ & _ & H2).
  { split.
    - refine (bool_decide_unpack _ _). vm_compute. exact I.
    - repeat constructor. }
  split; [exact H1|exact H2].
Defined.

(** X13. deleteCampaign on a stored campaign in status 'scheduled' with the
    queue reachable resolves with true and removes from the queue exactly the
    waiting and delayed jobs of that campaign; the jobs of every other
    campaign are left as they were. *)
Theorem delete_removes_only_pending_jobs i s c :
  campaigns s !! i = Some c ->
  status c = st_scheduled ->
  fault (campaignQueue s) = None ->
  distinctJobIds (campaignQueue s) ->
  exists s',
    deleteCampaign i s = (Resolved true, s')
    /\ jobs (campaignQueue s')
       = filter (fun x => ~ pendingFor i x) (jobs (campaignQueue s))
    /\ forall other, other ≠ i ->
         jobsOf other (campaignQueue s') = jobsOf other (campaignQueue s).
Proof.
  intros H Hst Hq [Hnd _].
  unfold deleteCampaign, rethrow, await at 1, getCampaign.
  rewrite H, Hst. simpl. unfold await at 1, cancelScheduledJobs, await at 1.
  rewrite getJobs_up by exact Hq.
  rewrite forMatching_remove_jobs by exact Hq.
  eexists. split; [reflexivity|]. simpl.
  assert (E : filter (fun x => job_id x ∉ idsOf i
                (filter (fun j => state j ∈ [waiting; delayed])
                        (jobs (campaignQueue s)))) (jobs (campaignQueue s))
            = filter (fun x => ~ pendingFor i x) (jobs (campaignQueue s))).
  { apply filter_ext_elem. intros x Hx.
    by rewrite (idsOf_pending i (campaignQueue s) x Hnd Hx). }
  split; [exact E|]. intros other Hne. unfold jobsOf. simpl. rewrite E.
  rewrite list_filter_filter. apply filter_ext_elem. intros x _.
  unfold pendingFor. split; [tauto|]. intros Hc. split; [exact Hc|].
  intros [_ Hi]. congruence.
Qed.

Lemma delete_removes_only_pending_jobs_witness :
  campaigns scheduledService !! "c-1" = Some scheduledLaunch
  /\ status scheduledLaunch = st_scheduled
  /\ fault (campaignQueue scheduledService) = None
  /\ exists s',
       deleteCampaign "c-1" scheduledService = (Resolved true, s')
       /\ jobs (campaignQueue s')
          = filter (fun x => ~ pendingFor "c-1" x)
                   (jobs (campaignQueue scheduledService)).
Proof.
  split; [reflexivity|]. split; [reflexivity|]. split; [reflexivity|].
  destruct (delete_removes_only_pending_jobs "c-1" scheduledService
              scheduledLaunch eq_refl eq_refl eq_refl)
    as (s' & H1 & H2 & _).
  { split.
    - refine (bool_decide_unpack _ _). vm_compute. exact I.
    - repeat constructor. }
  exists s'. split; [exact H1|exact H2].
Defined.



(** ** Create and delete *)

Lemma withCampaigns_same s : withCampaigns s (campaigns s) = s.
Proof. destruct s; reflexivity. Qed.

(** X14. createCampaign under an id not yet stored resolves with a campaign of
    that id in status 'draft' with sent count 0, which getCampaign then
    returns; deleteCampaign of that id resolves with true and gives back the
    state before the creation. *)
Theorem create_then_delete now uuid nm sch s :
  campaigns s !! uuid = None ->
  exists c,
    createCampaign now uuid nm sch s
    = (Resolved c, after s (createCampaign now uuid nm sch))
    /\ id c = uuid /\ status c = st_draft /\ sent c = 0
    /\ getCampaign uuid (after s (createCampaign now uuid nm sch))
       = (Resolved (Some c), after s (createCampaign now uuid nm sch))
    /\ deleteCampaign uuid (after s (createCampaign now uuid nm sch))
       = (Resolved true, s).
Proof.
  intros H. eexists. split; [reflexivity|].
  split; [reflexivity|]. split; [reflexivity|]. split; [reflexivity|].
  unfold after. simpl. split.
  - unfold getCampaign. simpl. by rewrite lookup_insert_eq.
  - erewrite deleteCampaign_unscheduled;
      [|simpl; apply lookup_insert_eq|simpl; discriminate].
    simpl. f_equal. unfold withCampaigns. simpl.
    rewrite delete_insert_eq by exact H.
    rewrite delete_id by exact H. apply withCampaigns_same.
Qed.

Lemma create_then_delete_witness :
  campaigns emptyService !! "c-1" = None
  /\ deleteCampaign "c-1"
       (after emptyService (createCampaign 0 "c-1" (Some "Launch") None))
     = (Resolved true, emptyService).
Proof.
  split; [reflexivity|].
  destruct (create_then_delete 0 "c-1" (Some "Launch") None emptyService
              eq_refl) as (c & _ & _ & _ & _ & _ & H).
  exact H.
Defined.

(** The second delete of a campaign resolves with [false] and changes
    nothing. *)
Lemma delete_twice i s s1 :
  deleteCampaign i s = (Resolved true, s1) ->
  deleteCampaign i s1 = (Resolved false, s1).
Proof.
  intros E. apply deleteCampaign_missing.
  destruct (campaigns s !! i) as [c|] eqn:H.
  - destruct (decide (status c = st_scheduled)) as [Hst|Hst].
    + destruct (fault (campaignQueue s)) as [m|] eqn:Hq.
      * unfold deleteCampaign, rethrow, await at 1, getCampaign in E.
        rewrite H, Hst in E. simpl in E. unfold await in E.
        rewrite (cancelScheduledJobs_down i s m Hq) in E. discriminate.
      * destruct (deleteCampaign_scheduled i s c H Hst Hq) as (q & E' & _).
        rewrite E' in E. inversion E; subst. simpl. apply lookup_delete_eq.
    + rewrite (deleteCampaign_unscheduled i s c H Hst) in E.
      inversion E; subst. simpl. apply lookup_delete_eq.
  - rewrite (deleteCampaign_missing i s H) in E. discriminate.
Qed.

(** ** Recurring schedules *)

(** X15. scheduleCampaign with a schedule that has a frequency, on a stored
    campaign, when the library takes the repeat rule and queues its next
    occurrence and Redis answers: the schedule is stored with status
    'scheduled', one 'send-campaign' repeat job is appended (cron rule,
    timezone, start and end date of the schedule) and nothing is executed,
    also when the start date has passed. *)
Theorem recurring_schedule_submits_repeat_job now i sch s c f :
  campaigns s !! i = Some c ->
  frequency sch = Some f ->
  fault (campaignQueue s) = None ->
  admits (campaignQueue s) (submitted now sch) = Queues ->
  exists s',
    scheduleCampaign now i sch s = (Resolved tt, s')
    /\ jobs (campaignQueue s')
       = jobs (campaignQueue s)
         ++ [ {| job_id := next_job (campaignQueue s);
                 job_name := "send-campaign"; job_campaignId := i;
                 opts := RepeatOpts (cronPattern sch) (timezone sch)
                           (startDate sch) (endDate sch);
                 state := delayed; failedReason := None |} ]
    /\ executions s' = executions s
    /\ statusOf i s' = Some st_scheduled
    /\ (schedule <$> campaigns s' !! i) = Some sch.
Proof.
  intros H Hf Hq Ha.
  rewrite (scheduleCampaign_submits now i sch s c H)
    by (left; rewrite Hf; by eexists).
  unfold submitted in *. rewrite Hf in *.
  unfold rethrow, queueAdd. simpl. rewrite Ha.
  rewrite queueCall_up by exact Hq. simpl.
  eexists. split; [reflexivity|]. unfold statusOf. simpl.
  rewrite lookup_insert_eq. repeat split; reflexivity.
Qed.

Lemma recurring_schedule_submits_repeat_job_witness :
  campaigns draftService !! "c-1" = Some draftLaunch
  /\ fault (campaignQueue draftService) = None
  /\ admits (campaignQueue draftService) (submitted 5000 customExample)
     = Queues
  /\ exists s',
       scheduleCampaign 5000 "c-1" customExample draftService
       = (Resolved tt, s')
       /\ executions s' = executions draftService
       /\ statusOf "c-1" s' = Some st_scheduled.
Proof.
  split; [reflexivity|]. split; [reflexivity|]. split; [reflexivity|].
  destruct (recurring_schedule_submits_repeat_job 5000 "c-1" customExample
              draftService draftLaunch _ eq_refl eq_refl eq_refl eq_refl)
    as (s' & H1 & _ & H2 & H3 & _).
  exists s'. split; [exact H1|]. split; [exact H2|exact H3].
Defined.

(** An empty send time, an empty list of weekdays, day of month 0 and an
    empty rule count as absent. *)
Lemma blank_schedule_parts_default t start stop zone iv :
  cronPattern
    {| startDate := start; endDate := stop; timezone := zone;
       sendTime := Some "";
       frequency := Some {| freq_type := t; interval := iv;
                            daysOfWeek := Some []; dayOfMonth := Some 0;
                            customCron := Some "" |} |}
  = cronPattern
      {| startDate := start; endDate := stop; timezone := zone;
         sendTime := None;
         frequency := Some {| freq_type := t; interval := iv;
                              daysOfWeek := None; dayOfMonth := None;
                              customCron := None |} |}
  /\ cronPattern
       {| startDate := start; endDate := stop; timezone := zone;
          sendTime := None;
          frequency := Some {| freq_type := t; interval := iv;
                               daysOfWeek := None; dayOfMonth := None;
                               customCron := None |} |}
     = match t with
       | daily => "0 10:00 * * *"
       | weekly => "0 10:00 * * 1"
       | monthly => "0 10:00 1 * *"
       | custom => "0 10 * * *"
       end.
Proof. destruct t; split; reflexivity. Qed.

(** ** The queue says no *)

(** X16. When add rejects the job of a recurring schedule or of a one-time
    schedule with a start date ahead (Redis answers with an error, or the
    library refuses the repeat rule), scheduleCampaign is rejected with
    'Failed to schedule campaign: ' followed by that error, and the campaign
    stays stored with the new schedule and status 'scheduled' although no job
    was added for it. *)
Theorem schedule_rejected_by_queue now i sch s c e :
  campaigns s !! i = Some c ->
  addError (campaignQueue s) (submitted now sch) = Some e ->
  (is_Some (frequency sch) \/ now < startDate sch) ->
  scheduleCampaign now i sch s
  = (Rejected ("Failed to schedule campaign: " +:+ e),
     scheduledState now i sch c s)
  /\ statusOf i (scheduledState now i sch c s) = Some st_scheduled
  /\ campaignQueue (scheduledState now i sch c s) = campaignQueue s.
Proof.
  intros H Hq Hneed. rewrite (scheduleCampaign_submits now i sch s c H Hneed).
  split; [|split; [unfold statusOf, scheduledState; simpl;
                   by rewrite lookup_insert_eq|reflexivity]].
  unfold rethrow.
  pose proof (queueAdd_settles "send-campaign" i (submitted now sch)
                (scheduledState now i sch c s)) as Hs.
  simpl in Hs. rewrite Hq in Hs. by rewrite Hs.
Qed.

Lemma schedule_rejected_by_queue_witness :
  campaigns draftService !! "c-1" = Some draftLaunch
  /\ addError (campaignQueue draftService) (submitted 500 weeklyExample)
     = Some "Invalid characters, got value: 09:00"
  /\ campaigns offlineDraftService !! "c-1" = Some draftLaunch
  /\ addError (campaignQueue offlineDraftService)
       (submitted 1000 (oneTimeAt 5000))
     = Some "NOAUTH Authentication required."
  /\ statusOf "c-1"
       (after draftService (scheduleCampaign 500 "c-1" weeklyExample))
     = Some st_scheduled
  /\ statusOf "c-1"
       (after offlineDraftService (scheduleCampaign 1000 "c-1" (oneTimeAt 5000)))
     = Some st_scheduled.
Proof.
  split; [reflexivity|]. split; [reflexivity|]. split; [reflexivity|].
  split; [reflexivity|].
  destruct (schedule_rejected_by_queue 500 "c-1" weeklyExample
              draftService draftLaunch _ eq_refl eq_refl)
    as (H1 & H2 & _).
  { left. by eexists. }
  destruct (schedule_rejected_by_queue 1000 "c-1" (oneTimeAt 5000)
              offlineDraftService draftLaunch _ eq_refl eq_refl)
    as (H3 & H4 & _).
  { right. simpl. lia. }
  unfold after. rewrite H1, H3. split; [exact H2|exact H4].
Defined.

(** Pausing while Redis answers with an error is rejected, the campaign
    is stored as paused, and its jobs are still pending. *)
Lemma pause_rejected_by_queue now i s c e :
  campaigns s !! i = Some c ->
  fault (campaignQueue s) = Some e ->
  exists s',
    pauseCampaign now i s = (Rejected ("Failed to pause campaign: " +:+ e), s')
    /\ statusOf i s' = Some st_paused
    /\ campaignQueue s' = campaignQueue s.
Proof.
  intros H Hq. unfold pauseCampaign, rethrow, await at 1, getCampaign.
  rewrite H. unfold await at 1, setCampaign. unfold await at 1.
  erewrite updateCampaign_found by (simpl; apply lookup_insert_eq).
  simpl campaigns. rewrite withCampaigns_insert_twice.
  unfold await at 1. rewrite (getJobs_down _ _ e) by exact Hq.
  eexists. split; [reflexivity|]. unfold statusOf. simpl.
  by rewrite lookup_insert_eq.
Qed.

(** ** Repeated execution *)

Lemma executeCampaign_sent now i s c :
  campaigns s !! i = Some c ->
  exists s' c',
    executeCampaign now i s = (Resolved tt, s')
    /\ campaigns s' !! i = Some c'
    /\ sent c' = sent c + 100 /\ status c' = st_active
    /\ schedule c' = schedule c
    /\ executions s' = executions s ++ [i]
    /\ campaignQueue s' = campaignQueue s.
Proof.
  intros H. rewrite (executeCampaign_found now i s c H).
  eexists _, _. split; [reflexivity|]. simpl. rewrite lookup_insert_eq.
  repeat split; reflexivity.
Qed.

(** X17. k executions of a stored campaign all resolve and leave it with its
    sent count raised by 100 times k, its schedule unchanged, k entries added
    to the execution log and the queue untouched. *)
Theorem repeated_execution_accumulates now i k : forall s c,
  campaigns s !! i = Some c ->
  exists s' c',
    times k (executeCampaign now i) s = (Resolved tt, s')
    /\ campaigns s' !! i = Some c'
    /\ sent c' = sent c + 100 * Z.of_nat k
    /\ schedule c' = schedule c
    /\ executions s' = executions s ++ replicate k i
    /\ campaignQueue s' = campaignQueue s.
Proof.
  induction k as [|k IH]; intros s c H.
  - exists s, c. simpl. rewrite app_nil_r.
    repeat split; try reflexivity; [exact H|lia].
  - destruct (executeCampaign_sent now i s c H)
      as (s1 & c1 & E1 & H1 & Hs1 & _ & Hsch1 & Hx1 & Hq1).
    destruct (IH s1 c1 H1) as (s2 & c2 & E2 & H2 & Hs2 & Hsch2 & Hx2 & Hq2).
    exists s2, c2. simpl. unfold await. rewrite E1, E2.
    split; [reflexivity|]. split; [exact H2|]. split; [lia|].
    split; [congruence|]. split; [|congruence].
    rewrite Hx2, Hx1, <- app_assoc. reflexivity.
Qed.

Lemma repeated_execution_accumulates_witness :
  campaigns draftService !! "c-1" = Some draftLaunch
  /\ exists s' c',
       times 3 (executeCampaign 2000 "c-1") draftService = (Resolved tt, s')
       /\ campaigns s' !! "c-1" = Some c'
       /\ sent c' = 300
       /\ executions s' = ["c-1"; "c-1"; "c-1"].
Proof.
  split; [reflexivity|].
  destruct (repeated_execution_accumulates 2000 "c-1" 3 draftService
              draftLaunch eq_refl)
    as (s' & c' & H1 & H2 & H3 & _ & H4 & _).
  exists s', c'. split; [exact H1|]. split; [exact H2|].
  split; [exact H3|exact H4].
Defined.



(** ** Approval *)

(** X19. approveDraft on a stored draft whose campaignId names a stored
    campaign resolves, marks the draft approved and writes approvalStatus
    {required: true, approved: true, approvedBy, approvedAt} on the campaign
    with a new updatedAt; the campaign's status, schedule, sent count and the
    queue are left as they were. *)
Theorem approve_records_on_campaign now d who s dr cid c :
  drafts s !! d = Some dr ->
  linkedCampaign dr = Some cid ->
  campaigns s !! cid = Some c ->
  exists s' c',
    approveDraft now d who s = (Resolved tt, s')
    /\ campaigns s' !! cid = Some c'
    /\ approvalStatus c'
       = Some {| required := true; approved := true; approvedBy := who;
                 approvedAt := now |}
    /\ status c' = status c /\ schedule c' = schedule c /\ sent c' = sent c
    /\ updatedAt c' = now
    /\ campaignQueue s' = campaignQueue s
    /\ draftStatusOf d s' = Some ds_approved.
Proof.
  intros Hd Hl Hc. unfold approveDraft, rethrow, await at 1, getDraft.
  rewrite Hd. unfold await at 1, setDraft. rewrite Hl.
  unfold await at 1, getCampaign. cbn [campaigns withDrafts]. rewrite Hc.
  unfold await at 1, setCampaign. unfold await at 1.
  erewrite updateCampaign_found by (simpl; apply lookup_insert_eq).
  eexists _, _. split; [reflexivity|]. unfold draftStatusOf. simpl.
  rewrite !lookup_insert_eq. repeat split; reflexivity.
Qed.

Lemma approve_records_on_campaign_witness :
  drafts linkedDraftService !! "d-1" = Some linkedDraft
  /\ linkedCampaign linkedDraft = Some "c-1"
  /\ campaigns linkedDraftService !! "c-1" = Some draftLaunch
  /\ exists s' c',
       approveDraft 10 "d-1" "lead@example.com" linkedDraftService
       = (Resolved tt, s')
       /\ campaigns s' !! "c-1" = Some c'
       /\ approvalStatus c'
          = Some {| required := true; approved := true;
                    approvedBy := "lead@example.com"; approvedAt := 10 |}
       /\ status c' = st_draft.
Proof.
  split; [reflexivity|]. split; [reflexivity|]. split; [reflexivity|].
  destruct (approve_records_on_campaign 10 "d-1" "lead@example.com"
              linkedDraftService linkedDraft "c-1" draftLaunch
              eq_refl eq_refl eq_refl)
    as (s' & c' & H1 & H2 & H3 & H4 & _).
  exists s', c'. split; [exact H1|]. split; [exact H2|].
  split; [exact H3|exact H4].
Defined.

(** Approving a draft with no stored campaign behind it touches no
    campaign. *)
Lemma approve_without_campaign now d who s dr :
  drafts s !! d = Some dr ->
  match linkedCampaign dr with
  | Some cid => campaigns s !! cid = None
  | None => True
  end ->
  approveDraft now d who s
  = (Resolved tt, withDrafts s (<[d := decided dr ds_approved now]> (drafts s))).
Proof.
  intros Hd Hl. unfold approveDraft, rethrow, await at 1, getDraft.
  rewrite Hd. unfold await at 1, setDraft.
  destruct (linkedCampaign dr) as [cid|]; [|reflexivity].
  unfold await at 1, getCampaign. cbn [campaigns withDrafts]. rewrite Hl.
  reflexivity.
Qed.

End CampaignExtras.

(** * Properties of the listing *)

Module ListingProofs.
Import Campaigns Listing.

Section Collation.
Variable localeCompare : string -> string -> comparison.

Lemma insertBy_perm cmp a l : insertBy cmp a l ≡ₚ a :: l.
Proof.
  induction l as [|b l IH]; simpl; [reflexivity|].
  destruct (cmp a b); try reflexivity.
  rewrite IH. apply perm_swap.
Qed.

Lemma sortCampaigns_perm cmp l : sortCampaigns cmp l ≡ₚ l.
Proof.
  induction l as [|a l IH]; simpl; [reflexivity|].
  rewrite insertBy_perm. by constructor.
Qed.

Lemma sorted_perm f l : sorted localeCompare f l ≡ₚ l.
Proof.
  unfold sorted. destruct (sortBy f); [apply sortCampaigns_perm|reflexivity].
Qed.

Ltac skipped_filter :=
  split; [intros H; split; [exact H|intros; discriminate]|tauto].

Lemma byStatus_elem f l c :
  c ∈ byStatus f l
  <-> c ∈ l /\ forall x xs, f_status f = Some (x :: xs) ->
                            status (campaign c) ∈ x :: xs.
Proof.
  unfold byStatus. destruct (f_status f) as [[|x xs]|]; try skipped_filter.
  rewrite list_elem_of_filter. split.
  - intros [H1 H2]. split; [exact H2|]. intros ? ? [= <- <-]. exact H1.
  - intros [H1 H2]. split; [by apply H2|exact H1].
Qed.

Lemma byType_elem f l c :
  c ∈ byType f l
  <-> c ∈ l /\ forall x xs, f_type f = Some (x :: xs) -> ctype c ∈ x :: xs.
Proof.
  unfold byType. destruct (f_type f) as [[|x xs]|]; try skipped_filter.
  rewrite list_elem_of_filter. split.
  - intros [H1 H2]. split; [exact H2|]. intros ? ? [= <- <-]. exact H1.
  - intros [H1 H2]. split; [by apply H2|exact H1].
Qed.

Lemma byCreator_elem f l c :
  c ∈ byCreator f l
  <-> c ∈ l /\ forall who, f_createdBy f = Some who -> who ≠ "" ->
                           createdBy c = who.
Proof.
  unfold byCreator. destruct (f_createdBy f) as [who|]; try skipped_filter.
  case_bool_decide as Hw.
  - split; [intros H; split; [exact H|]|tauto].
    intros ? [= <-] Hn. congruence.
  - rewrite list_elem_of_filter. split.
    + intros [H1 H2]. split; [exact H2|]. intros ? [= <-] _. exact H1.
    + intros [H1 H2]. split; [by apply H2|exact H1].
Qed.

Lemma byDateFrom_elem f l c :
  c ∈ byDateFrom f l
  <-> c ∈ l /\ forall d, dateFrom f = Some d -> d <= createdAt c.
Proof.
  unfold byDateFrom. destruct (dateFrom f) as [d|]; try skipped_filter.
  rewrite list_elem_of_filter. split.
  - intros [H1 H2]. split; [exact H2|]. intros ? [= <-]. exact H1.
  - intros [H1 H2]. split; [by apply H2|exact H1].
Qed.

Lemma byDateTo_elem f l c :
  c ∈ byDateTo f l
  <-> c ∈ l /\ forall d, dateTo f = Some d -> createdAt c <= d.
Proof.
  unfold byDateTo. destruct (dateTo f) as [d|]; try skipped_filter.
  rewrite list_elem_of_filter. split.
  - intros [H1 H2]. split; [exact H2|]. intros ? [= <-]. exact H1.
  - intros [H1 H2]. split; [by apply H2|exact H1].
Qed.

Lemma byTags_elem f l c :
  c ∈ byTags f l
  <-> c ∈ l /\ forall x xs, f_tags f = Some (x :: xs) ->
                 exists t, t ∈ x :: xs /\ t ∈ audienceTags c.
Proof.
  unfold byTags. destruct (f_tags f) as [[|x xs]|]; try skipped_filter.
  rewrite list_elem_of_filter, Exists_exists. split.
  - intros [H1 H2]. split; [exact H2|]. intros ? ? [= <- <-]. exact H1.
  - intros [H1 H2]. split; [by apply H2|exact H1].
Qed.

Lemma filtered_elem f l c : c ∈ filtered f l <-> c ∈ l /\ passes f c.
Proof.
  unfold filtered, passes.
  rewrite byTags_elem, byDateTo_elem, byDateFrom_elem, byCreator_elem,
    byType_elem, byStatus_elem. tauto.
Qed.

Lemma slice_sublist {A} o n (l : list A) : sublist (slice o n l) l.
Proof.
  unfold slice. etransitivity; [apply sublist_take|apply sublist_drop].
Qed.

Lemma paged_sublist f l : sublist (paged f l) l.
Proof.
  unfold paged. destruct (offset f), (limit f); try reflexivity.
  apply slice_sublist.
Qed.

(** X20. Every campaign that listCampaigns(filter) returns is a stored
    campaign and passes each filter in force: status, type, createdBy,
    dateFrom, dateTo and tags (an empty status, type or tags list and an empty
    createdBy are not in force). *)
Theorem listed_campaigns_pass_filters f all c :
  c ∈ listCampaigns localeCompare (Some f) all ->
  c ∈ all /\ passes f c.
Proof.
  unfold listCampaigns. intros H.
  apply (fun H0 => elem_of_sublist _ _ _ H0 (paged_sublist _ _)) in H.
  rewrite sorted_perm in H. by apply filtered_elem.
Qed.

(** X21. When limit or offset is missing, listCampaigns(filter) returns a
    permutation of the stored campaigns that pass the filters, so every such
    campaign is listed; without a sort key it returns them in store order, and
    without a filter it returns all stored campaigns. *)
Theorem unpaged_listing_complete f all :
  limit f = None \/ offset f = None ->
  listCampaigns localeCompare (Some f) all ≡ₚ filtered f all
  /\ (forall c, c ∈ all -> passes f c ->
        c ∈ listCampaigns localeCompare (Some f) all)
  /\ (sortBy f = None ->
        listCampaigns localeCompare (Some f) all = filtered f all)
  /\ listCampaigns localeCompare None all = all.
Proof.
  intros Hp.
  assert (E : listCampaigns localeCompare (Some f) all
              = sorted localeCompare f (filtered f all)).
  { unfold listCampaigns, paged.
    destruct Hp as [-> | ->]; [by destruct (offset f)|reflexivity]. }
  rewrite E. split; [apply sorted_perm|]. split.
  - intros c Hc Hpass. rewrite sorted_perm. by apply filtered_elem.
  - split; [|reflexivity]. intros Hs. unfold sorted. by rewrite Hs.
Qed.

Lemma length_slice {A} o n (l : list A) :
  0 <= n ->
  (List.length (slice o (o + n) l) <= Z.to_nat n)%nat.
Proof.
  intros Hn. unfold slice, sliceIndex. rewrite length_take.
  destruct (Z.ltb_spec o 0), (Z.ltb_spec (o + n) 0); lia.
Qed.

Lemma slice_nonneg {A} o n (l : list A) :
  0 <= o -> 0 <= n ->
  slice o (o + n) l = take (Z.to_nat n) (drop (Z.to_nat o) l).
Proof.
  intros Ho Hn. unfold slice, sliceIndex.
  pose (len := Z.of_nat (List.length l)).
  assert (Hlen : len = Z.of_nat (List.length l)) by reflexivity.
  rewrite <- !Hlen. clearbody len.
  destruct (Z.ltb_spec o 0); [lia|]. destruct (Z.ltb_spec (o + n) 0); [lia|].
  destruct (Z.le_gt_cases o len) as [Hle|Hgt].
  - rewrite (Z.min_l o len) by exact Hle.
    destruct (Z.le_gt_cases (o + n) len) as [Hle'|Hgt'].
    + rewrite Z.min_l by exact Hle'. f_equal. lia.
    + rewrite Z.min_r by lia.
      rewrite !take_ge; [reflexivity| |]; rewrite length_drop; lia.
  - rewrite (Z.min_r o len) by lia.
    rewrite !drop_ge by lia. by rewrite !take_nil.
Qed.

(** X22. With offset and a limit that is not negative, listCampaigns returns
    at most limit campaigns; for an offset that is not negative either, they
    are the next limit campaigns after skipping offset campaigns of the
    listing without a page. *)
Theorem page_of_listing f all o n :
  offset f = Some o ->
  limit f = Some n ->
  0 <= n ->
  (List.length (listCampaigns localeCompare (Some f) all) <= Z.to_nat n)%nat
  /\ (0 <= o ->
      listCampaigns localeCompare (Some f) all
      = take (Z.to_nat n)
          (drop (Z.to_nat o)
             (listCampaigns localeCompare (Some (unpaged f)) all))).
Proof.
  intros Ho Hn Hn0.
  assert (E : listCampaigns localeCompare (Some f) all
              = slice o (o + n)
                  (listCampaigns localeCompare (Some (unpaged f)) all)).
  { unfold listCampaigns, paged. rewrite Ho, Hn. reflexivity. }
  rewrite E. split; [by apply length_slice|]. intros H0.
  by apply slice_nonneg.
Qed.

(** ** The sort *)

Lemma StronglySorted_sublist {A} (R : A -> A -> Prop) k l :
  sublist k l -> StronglySorted R l -> StronglySorted R k.
Proof.
  induction 1 as [|x k l Hs IH|x k l Hs IH]; intros Hl.
  - constructor.
  - inversion Hl as [|? ? Hl' Hall]; subst. constructor; [by apply IH|].
    rewrite Forall_forall in Hall |- *. intros y Hy. apply Hall.
    by eapply elem_of_sublist.
  - inversion Hl; subst. by apply IH.
Qed.

Lemma insertBy_sorted (key : ListedCampaign -> Z) (down : bool) a l :
  let cmp := fun x y => if down then CompOpp (key x ?= key y)
                        else key x ?= key y in
  let R := fun x y => if down then key y <= key x else key x <= key y in
  StronglySorted R l -> StronglySorted R (insertBy cmp a l).
Proof.
  intros cmp R. induction 1 as [|b l Hs IH Hall]; simpl.
  - repeat constructor.
  - unfold cmp, R in *. clear cmp R.
    destruct down; destruct (Z.compare_spec (key a) (key b)); simpl;
      try (constructor; [by constructor|]; constructor; [lia|];
           eapply Forall_impl; [exact Hall|]; simpl; intros; lia);
      (constructor; [exact IH|]; rewrite insertBy_perm;
       constructor; [lia|exact Hall]).
Qed.

Lemma sortCampaigns_sorted (key : ListedCampaign -> Z) (down : bool) l :
  StronglySorted
    (fun x y => if down then key y <= key x else key x <= key y)
    (sortCampaigns (fun x y => if down then CompOpp (key x ?= key y)
                               else key x ?= key y) l).
Proof.
  induction l as [|a l IH]; simpl; [constructor|].
  by apply (insertBy_sorted key down).
Qed.

(** X23. With sortBy 'created', the campaigns listCampaigns returns are in
    order of creation date, ascending unless sortOrder is 'desc' and then
    descending, with or without a page. *)
Theorem listing_sorted_by_creation f all :
  sortBy f = Some created ->
  StronglySorted
    (fun x y => match sortOrder f with
                | Some desc => createdAt y <= createdAt x
                | _ => createdAt x <= createdAt y
                end)
    (listCampaigns localeCompare (Some f) all).
Proof.
  intros Hs. unfold listCampaigns.
  eapply StronglySorted_sublist; [apply paged_sublist|].
  unfold sorted. rewrite Hs. unfold comparator, compareValue.
  destruct (sortOrder f) as [[|]|]; simpl.
  - apply (sortCampaigns_sorted createdAt false).
  - apply (sortCampaigns_sorted createdAt true).
  - apply (sortCampaigns_sorted createdAt false).
Qed.
End Collation.

Lemma listed_campaigns_pass_filters_witness :
  listedLaunch
    ∈ listCampaigns String.compare (Some draftsFirstPage)
        [listedDigest; listedLaunch]
  /\ passes draftsFirstPage listedLaunch.
Proof.
  assert (H : listedLaunch
                ∈ listCampaigns String.compare (Some draftsFirstPage)
                    [listedDigest; listedLaunch]).
  { assert (E : listCampaigns String.compare (Some draftsFirstPage)
                  [listedDigest; listedLaunch] = [listedLaunch])
      by reflexivity.
    rewrite E. left. }
  split; [exact H|].
  exact (proj2 (listed_campaigns_pass_filters String.compare draftsFirstPage
                  [listedDigest; listedLaunch] listedLaunch H)).
Defined.

Lemma unpaged_listing_complete_witness :
  limit (unpaged draftsFirstPage) = None
  /\ listCampaigns String.compare (Some (unpaged draftsFirstPage))
       [listedDigest; listedLaunch]
     ≡ₚ filtered (unpaged draftsFirstPage) [listedDigest; listedLaunch].
Proof.
  split; [reflexivity|].
  exact (proj1 (unpaged_listing_complete String.compare
                  (unpaged draftsFirstPage) [listedDigest; listedLaunch]
                  (or_introl eq_refl))).
Defined.

Lemma page_of_listing_witness :
  offset draftsFirstPage = Some 0
  /\ limit draftsFirstPage = Some 1
  /\ (List.length (listCampaigns String.compare (Some draftsFirstPage)
                     [listedDigest; listedLaunch]) <= 1)%nat.
Proof.
  split; [reflexivity|]. split; [reflexivity|].
  refine (proj1 (page_of_listing String.compare draftsFirstPage
                   [listedDigest; listedLaunch] 0 1 eq_refl eq_refl _)).
  lia.
Defined.

Lemma listing_sorted_by_creation_witness :
  sortBy draftsFirstPage = Some created
  /\ StronglySorted (fun x y => createdAt x <= createdAt y)
       (listCampaigns String.compare (Some draftsFirstPage)
          [listedDigest; listedLaunch]).
Proof.
  split; [reflexivity|].
  exact (listing_sorted_by_creation String.compare draftsFirstPage
           [listedDigest; listedLaunch] eq_refl).
Defined.

(** ** Mock recipients *)

Lemma string_length_app (s t : string) :
  String.length (s +:+ t) = (String.length s + String.length t)%nat.
Proof. induction s as [|c s IH]; simpl; [reflexivity|by rewrite IH]. Qed.

Lemma string_app_inj_r (s1 s2 t : string) : s1 +:+ t = s2 +:+ t -> s1 = s2.
Proof.
  revert s2. induction s1 as [|c s1 IH]; intros [|d s2] E; simpl in E.
  - reflexivity.
  - apply (f_equal String.length) in E. simpl in E.
    rewrite !string_length_app in E. simpl in E. lia.
  - apply (f_equal String.length) in E. simpl in E.
    rewrite !string_length_app in E. simpl in E. lia.
  - inversion E; subst. f_equal. by apply IH.
Qed.

Lemma mock_email_inj i j : r_email (mockRecipient i) = r_email (mockRecipient j) -> i = j.
Proof.
  unfold mockRecipient. cbn [r_email]. intros E.
  apply (inj (String.app "user")) in E.
  apply string_app_inj_r in E. by apply (inj pretty) in E.
Qed.

(** X24. generateMockRecipients(count) returns count recipients (none when
    count is below one), the i-th built from i, with pairwise distinct email
    addresses. *)
Theorem mock_recipients_distinct count :
  List.length (generateMockRecipients count) = Z.to_nat count
  /\ NoDup (map r_email (generateMockRecipients count))
  /\ forall i, (i < Z.to_nat count)%nat ->
       generateMockRecipients count !! i = Some (mockRecipient i).
Proof.
  unfold generateMockRecipients. split; [by rewrite length_map, length_seq|].
  split.
  - rewrite map_map. apply NoDup_fmap_2_strong; [|apply NoDup_seq].
    intros i j _ _. apply mock_email_inj.
  - intros i Hi. rewrite list_lookup_fmap, lookup_seq_lt by exact Hi.
    reflexivity.
Qed.

End ListingProofs.

(** * Properties of the agents *)

Module AgentProofs.
Import Orchestrator Agents Registry.

(** ** Counters *)

Lemma measurePerformance_result {A} task t0 t1 (op : Attempt A) st :
  fst (measurePerformance task t0 t1 op st) = op.
Proof. destruct op; reflexivity. Qed.

(** X25. After any sequence of operations run under measurePerformance,
    processedCount has grown by the number that resolved, errorCount by the
    number that threw, totalTime by the durations of those that resolved;
    isActive is unchanged and, after at least one run, currentTask is cleared. *)
Theorem measured_runs_counted {A} task (runs : list (Measured A)) : forall st,
  let st' := foldl (measure task) st runs in
  processedCount (metrics st')
  = processedCount (metrics st) + countIf resolved runs
  /\ errorCount (metrics st')
     = errorCount (metrics st) + countIf (fun m => negb (resolved m)) runs
  /\ totalTime (metrics st') = totalTime (metrics st) + resolvedTime runs
  /\ isActive st' = isActive st
  /\ (runs <> [] -> currentTask st' = None).
Proof.
  induction runs as [|m runs IH]; intros st; simpl.
  - unfold countIf, resolvedTime. simpl.
    repeat split; try lia. congruence.
  - destruct (IH (measure task st m)) as (H1 & H2 & H3 & H4 & H5).
    unfold countIf, resolvedTime, resolved, measure, measurePerformance in *.
    simpl. destruct (gave m); simpl in *;
      (split; [rewrite H1; simpl; lia|]);
      (split; [rewrite H2; simpl; lia|]);
      (split; [rewrite H3; simpl; lia|]);
      (split; [rewrite H4; reflexivity|]); intros _;
      (destruct runs; [reflexivity|apply H5; discriminate]).
Qed.

(** ** Labels *)

Lemma setAdd_elem x l y : y ∈ setAdd x l <-> y = x \/ y ∈ l.
Proof.
  unfold setAdd. case_bool_decide.
  - split; [tauto|]. intros [->|H']; assumption.
  - rewrite elem_of_app, list_elem_of_singleton. tauto.
Qed.

Lemma setAdd_NoDup x l : NoDup l -> NoDup (setAdd x l).
Proof.
  intros H. unfold setAdd. case_bool_decide; [exact H|].
  apply NoDup_app. split; [exact H|]. split; [|apply NoDup_singleton].
  intros y Hy Hy'. apply list_elem_of_singleton in Hy' as ->. contradiction.
Qed.

Lemma foldl_setAdd l : forall acc,
  NoDup acc ->
  NoDup (foldl (fun a x => setAdd x a) acc l)
  /\ (forall y, y ∈ foldl (fun a x => setAdd x a) acc l <-> y ∈ acc \/ y ∈ l)
  /\ (NoDup (acc ++ l) -> foldl (fun a x => setAdd x a) acc l = acc ++ l).
Proof.
  induction l as [|x l IH]; intros acc Hacc; simpl.
  - split; [exact Hacc|]. split.
    + intros y. rewrite elem_of_nil. tauto.
    + intros _. by rewrite app_nil_r.
  - destruct (IH (setAdd x acc) (setAdd_NoDup x acc Hacc)) as (H1 & H2 & H3).
    split; [exact H1|]. split.
    + intros y. rewrite H2, setAdd_elem, elem_of_cons. tauto.
    + intros Hnd. apply NoDup_app in Hnd as (_ & Hdisj & Hxl).
      assert (Hx : x ∉ acc) by (intros Hx; apply (Hdisj x Hx); left).
      assert (E : setAdd x acc = acc ++ [x])
        by (unfold setAdd; by rewrite bool_decide_eq_false_2).
      rewrite E in *. rewrite H3; [by rewrite <- app_assoc|].
      rewrite <- app_assoc. simpl. apply NoDup_app.
      split; [exact Hacc|]. split; [exact Hdisj|exact Hxl].
Qed.

Lemma newSet_spec l :
  NoDup (newSet l) /\ (forall y, y ∈ newSet l <-> y ∈ l)
  /\ (NoDup l -> newSet l = l).
Proof.
  destruct (foldl_setAdd l [] (NoDup_nil_2)) as (H1 & H2 & H3).
  split; [exact H1|]. split.
  - intros y. unfold newSet. rewrite H2, elem_of_nil. tauto.
  - exact H3.
Qed.

(** X26. updateLabels(labels, category) returns the labels without repeats:
    the category and every current label, except 'inbox' when the category is
    'spam'; applying it again with the same category changes nothing. *)
Theorem updateLabels_spec l c :
  NoDup (updateLabels l c)
  /\ (forall x, x ∈ updateLabels l c
        <-> (x = c \/ x ∈ l) /\ ~ (c = "spam" /\ x = "inbox"))
  /\ updateLabels (updateLabels l c) c = updateLabels l c.
Proof.
  destruct (newSet_spec l) as (Hnd & Hel & _).
  assert (Hnd' : NoDup (updateLabels l c)).
  { unfold updateLabels. case_bool_decide.
    - by apply NoDup_filter, setAdd_NoDup.
    - by apply setAdd_NoDup. }
  assert (Hel' : forall x, x ∈ updateLabels l c
            <-> (x = c \/ x ∈ l) /\ ~ (c = "spam" /\ x = "inbox")).
  { intros x. unfold updateLabels, setDelete. case_bool_decide as Hc.
    - rewrite list_elem_of_filter, setAdd_elem, Hel. tauto.
    - rewrite setAdd_elem, Hel. tauto. }
  split; [exact Hnd'|]. split; [exact Hel'|].
  destruct (newSet_spec (updateLabels l c)) as (_ & _ & Hid).
  specialize (Hid Hnd').
  assert (Hc : c ∈ updateLabels l c).
  { apply Hel'. split; [by left|]. intros [-> ?]. discriminate. }
  unfold updateLabels at 1. rewrite Hid.
  unfold setAdd. rewrite (bool_decide_eq_true_2 (c ∈ _)) by exact Hc.
  case_bool_decide as Hs; [|reflexivity].
  unfold setDelete. apply CampaignExtras.filter_all.
  intros x Hx. apply Hel' in Hx as [_ Hx]. intros ->. by apply Hx.
Qed.


(** ** The categorizer in the pipeline *)

Lemma categorizer_process i n p cat e :
  process (categorizerAgent i n p cat) e = Returned (categorize cat e).
Proof. reflexivity. Qed.

(** X27. In the pipeline, a categorizer that finds a category sets the email's
    category to it; when it differs from the current one the labels become
    updateLabels of the current labels, otherwise the email is unchanged;
    every other field keeps its value. When categorizeEmail throws, the email
    is unchanged. *)
Theorem categorizer_turn i n p cat e :
  match cat e with
  | Done c =>
      apply_unit e (categorizerAgent i n p cat) !! "category" = Some (JStr c)
      /\ (e !! "category" ≠ Some (JStr c) ->
          apply_unit e (categorizerAgent i n p cat) !! "labels"
          = Some (JStrs (updateLabels (labelsOf e) c)))
      /\ (e !! "category" = Some (JStr c) ->
          apply_unit e (categorizerAgent i n p cat) = e)
      /\ (forall k, k ≠ "category" -> k ≠ "labels" ->
          apply_unit e (categorizerAgent i n p cat) !! k = e !! k)
  | Raised _ => apply_unit e (categorizerAgent i n p cat) = e
  end.
Proof.
  unfold apply_unit, successful_modifications.
  rewrite categorizer_process. unfold categorize.
  destruct (cat e) as [c|m]; [|reflexivity].
  case_bool_decide as Hc; simpl.
  - split; [apply lookup_union_Some_l; by simplify_map_eq|].
    split; [intros _; apply lookup_union_Some_l; by simplify_map_eq|].
    split; [intros E; congruence|].
    intros k Hk1 Hk2. apply lookup_union_r. by simplify_map_eq.
  - assert (E : e !! "category" = Some (JStr c)).
    { destruct (decide (Some (JStr c) = e !! "category")); [done|contradiction]. }
    split; [exact E|]. split; [intros; contradiction|].
    split; [reflexivity|]. intros; reflexivity.
Qed.

(** X28. With the database connected, the task of a categorizer's turn is
    always finalized: completed when categorizeEmail gave a category, failed
    when it threw, with the error message of the throw ('Unknown error' for a
    thrown non-Error) unless that message is empty; it is never left
    processing. *)
Theorem categorizer_task_finalized d u agents email s1 s2 i n p cat :
  connected d = true ->
  sortAgents agents = s1 ++ categorizerAgent i n p cat :: s2 ->
  exists t,
    agent_tasks (db (runPipeline d u agents email)) !! (u + List.length s1)%nat
    = Some t
    /\ agentId t = i
    /\ status t = match cat (sequential_application s1 email) with
                  | Done _ => completed
                  | Raised _ => failed
                  end
    /\ task_error t = match cat (sequential_application s1 email) with
                      | Done _ => None
                      | Raised (Some "") => None
                      | Raised m => Some (default "Unknown error" m)
                      end.
Proof.
  intros Hc Hs.
  rewrite (PipelineExtras.runPipeline_ledger d u agents email s1 _ s2 Hc Hs).
  eexists. split; [reflexivity|]. unfold ledgerEntry.
  rewrite categorizer_process. unfold categorize.
  destruct (cat (sequential_application s1 email)) as [c|[m|]].
  - case_bool_decide; simpl; repeat split; reflexivity.
  - simpl. split; [reflexivity|]. split; [reflexivity|].
    unfold finalError. simpl. case_bool_decide as E; [by rewrite E|].
    destruct m; [congruence|reflexivity].
  - simpl. repeat split; reflexivity.
Qed.

Lemma categorizer_task_finalized_witness :
  connected connectedDb = true
  /\ sortAgents [sorter; thrower] = [thrower] ++ sorter :: []
  /\ exists t,
       agent_tasks (db (runPipeline connectedDb 0 [sorter; thrower] inbound))
         !! 1%nat = Some t
       /\ agentId t = "agent-cat"
       /\ Orchestrator.status t = Orchestrator.completed.
Proof.
  split; [reflexivity|]. split; [reflexivity|].
  destruct (categorizer_task_finalized connectedDb 0 [sorter; thrower]
              inbound [thrower] [] "agent-cat" "sorter" 5
              (fun _ => Done "work") eq_refl eq_refl)
    as (t & H1 & H2 & H3 & _).
  exists t. split; [exact H1|]. split; [exact H2|exact H3].
Defined.

End AgentProofs.

(** * Properties of bulk generation *)

Module DraftingProofs.
Import Campaigns Listing Agents DraftGeneratorService Drafting.

Lemma promiseAll_app {A} (l1 l2 : list (Attempt A)) :
  promiseAll (l1 ++ l2)
  = match promiseAll l1 with
    | Done x => match promiseAll l2 with
                | Done y => Done (x ++ y)
                | Raised m => Raised m
                end
    | Raised m => Raised m
    end.
Proof.
  induction l1 as [|[a|m] l1 IH]; simpl.
  - by destruct (promiseAll l2).
  - rewrite IH. destruct (promiseAll l1); [|reflexivity].
    by destruct (promiseAll l2).
  - reflexivity.
Qed.

Lemma promiseAll_all {A B} (g : A -> Attempt B) (h : A -> B) l :
  (forall x, x ∈ l -> g x = Done (h x)) ->
  promiseAll (map g l) = Done (map h l).
Proof.
  induction l as [|x l IH]; intros H; simpl; [reflexivity|].
  rewrite (H x) by left. rewrite IH; [reflexivity|].
  intros y Hy. apply H. by right.
Qed.

Lemma promiseAll_some {A B} (g : A -> Attempt B) l x m :
  x ∈ l -> g x = Raised m -> exists m', promiseAll (map g l) = Raised m'.
Proof.
  induction l as [|y l IH]; intros Hx Hg; [by apply elem_of_nil in Hx|].
  simpl. destruct (g y) as [b|m0] eqn:E; [|by eexists].
  apply elem_of_cons in Hx as [->|Hx]; [congruence|].
  destruct (IH Hx Hg) as [m' ->]. by eexists.
Qed.

Section Generator.
Variable generateDraft : EmailCampaign -> MockRecipient -> Attempt EmailDraft.

(** The loop in batches is one [Promise.all] over what is left. *)
Lemma bulkLoop_ends c rs fuel : forall i ds,
  (List.length rs <= i + 10 * fuel)%nat ->
  bulkLoop generateDraft (S fuel) c rs i ds
  = Some (match promiseAll (map (generateDraft c) (drop i rs)) with
          | Done rest => Done (ds ++ rest)
          | Raised m => Raised m
          end).
Proof.
  induction fuel as [|fuel IH]; intros i ds Hf.
  - simpl. destruct (Nat.ltb_spec i (List.length rs)) as [Hi|Hi]; [lia|].
    rewrite drop_ge by lia. simpl. by rewrite app_nil_r.
  - change (bulkLoop generateDraft (S (S fuel)) c rs i ds)
      with (if (i <? List.length rs)%nat
            then match promiseAll (map (generateDraft c)
                                     (take 10 (drop i rs))) with
                 | Done batchDrafts =>
                     bulkLoop generateDraft (S fuel) c rs (i + 10)
                       (ds ++ batchDrafts)
                 | Raised m => Some (Raised m)
                 end
            else Some (Done ds)).
    destruct (Nat.ltb_spec i (List.length rs)) as [Hi|Hi].
    + rewrite <- (take_drop 10 (drop i rs)) at 2.
      rewrite map_app, promiseAll_app.
      destruct (promiseAll (map (generateDraft c) (take 10 (drop i rs))))
        as [batch|m]; [|reflexivity].
      rewrite IH by lia. rewrite drop_drop.
      destruct (promiseAll _); [by rewrite app_assoc|reflexivity].
    + rewrite drop_ge by lia. simpl. by rewrite app_nil_r.
Qed.

Lemma generateBulkDrafts_all c rs :
  generateBulkDrafts generateDraft c rs
  = match promiseAll (map (generateDraft c) rs) with
    | Done ds => Done ds
    | Raised m => Raised (Some ("Failed to generate bulk drafts: "
                                +:+ default "Unknown error" m))
    end.
Proof.
  unfold generateBulkDrafts. rewrite bulkLoop_ends by lia.
  rewrite drop_0. by destruct (promiseAll _).
Qed.

(** X30. When the campaign is not stored, or generateDraft fails for one of
    the mock recipients, generateDrafts is rejected and stores no draft at
    all, also none of the batches generated before the failure. *)
Theorem generateDrafts_all_or_nothing i count s :
  (campaigns s !! i = None
   \/ exists c r m, campaigns s !! i = Some c
        /\ r ∈ generateMockRecipients count
        /\ generateDraft c r = Raised m) ->
  exists e, generateDrafts generateDraft i count s = (Rejected e, s).
Proof.
  intros [H|(c & r & m & H & Hr & Hg)];
    unfold generateDrafts, rethrow, await at 1, getCampaign; rewrite H.
  - by eexists.
  - rewrite generateBulkDrafts_all.
    destruct (promiseAll_some (generateDraft c) _ r m Hr Hg) as [m' ->].
    by eexists.
Qed.
End Generator.

(** ** The generator of the source *)

Section Services.
Variable Fetched : Type.
Variable fetchProfile : string -> Attempt Fetched.
Variable generateInsights : Fetched -> Attempt Fetched.
Variable fetchArticles : list string -> Attempt Fetched.
Variable generateDigest : Fetched -> Z -> Attempt Fetched.
Variable firstFive : Fetched -> Fetched.
Variable regExpError : string -> option string.
Variable replaceKey : string -> Datum Fetched -> string -> string.
Variable replaceFirst : string -> string -> string -> string.
Variable cleanUp : string -> string.
Variable campaignType : EmailCampaign -> string.
Variable mainContent : EmailCampaign -> string.
Variable compose :
  EmailCampaign -> MockRecipient -> GenerationOptions -> Data Fetched ->
  string -> Attempt EmailDraft.

(** The loop over the keys throws nothing but the errors of the engine,
    and nothing when the engine takes every pattern. *)
Lemma replaceKeys_settles data : forall content,
  (exists e, replaceKeys Fetched regExpError replaceKey data content
             = Raised (Some e))
  \/ (exists c, replaceKeys Fetched regExpError replaceKey data content
                = Done c).
Proof.
  induction data as [|[k v] data IH]; intros content; simpl.
  - right. by eexists.
  - destruct (regExpError _) as [m|]; [left; by eexists|apply IH].
Qed.

Lemma replaceKeys_compiles data : forall content,
  (forall k, regExpError k = None) ->
  exists c, replaceKeys Fetched regExpError replaceKey data content = Done c.
Proof.
  induction data as [|[k v] data IH]; intros content Hk; simpl.
  - by eexists.
  - rewrite Hk. by apply IH.
Qed.

(** No text comes out of [applyPersonalizations]. *)
Lemma applyPersonalizations_raises t b d o :
  exists e,
    applyPersonalizations Fetched regExpError replaceKey replaceFirst
      cleanUp t b d o = Raised (Some e)
    /\ ((forall k, regExpError k = None) -> e = "data is not defined").
Proof.
  unfold applyPersonalizations.
  destruct (replaceKeys_settles d t) as [[e He]|[c Hc]].
  - rewrite He. exists e. split; [reflexivity|]. intros Hk.
    destruct (replaceKeys_compiles d t Hk) as [c Hc]. congruence.
  - rewrite Hc. simpl. by eexists.
Qed.

(** Nor a draft out of [generateDraft]. *)
Lemma generateDraft_raises c r o :
  exists e,
    generateDraft Fetched fetchProfile generateInsights fetchArticles
      generateDigest firstFive regExpError replaceKey replaceFirst cleanUp
      campaignType mainContent compose c r o
    = Raised (Some ("Failed to generate draft: " +:+ e))
    /\ ((forall k, regExpError k = None) -> e = "data is not defined").
Proof.
  unfold generateDraft.
  destruct (applyPersonalizations_raises (templateFor (campaignType c))
              (mainContent c)
              (gatherPersonalizationData Fetched fetchProfile generateInsights
                 fetchArticles generateDigest firstFive r o) o)
    as (e & -> & He).
  by exists e.
Qed.

(** X29. With the generateDraft of the source, whatever the integrations
    answer, generateDrafts(campaignId, count) on a stored campaign with a
    count of one or more is rejected with 'Failed to generate drafts: Failed
    to generate bulk drafts: Failed to generate draft: ' followed by an error
    message, and stores no draft; the message is 'data is not defined' (the
    name read in generatePersonalizedIntro) unless the engine refuses the
    pattern of a key first. *)
Theorem generateDrafts_never_stores i count s c :
  campaigns s !! i = Some c ->
  0 < count ->
  exists e,
    generateDrafts
      (fun c r =>
         generateDraft Fetched fetchProfile generateInsights fetchArticles
           generateDigest firstFive regExpError replaceKey replaceFirst
           cleanUp campaignType mainContent compose c r draftsOptions)
      i count s
    = (Rejected ("Failed to generate drafts: "
                 +:+ ("Failed to generate bulk drafts: "
                      +:+ ("Failed to generate draft: " +:+ e))), s)
    /\ ((forall k, regExpError k = None) -> e = "data is not defined").
Proof.
  intros H Hn.
  unfold generateDrafts, rethrow, await at 1, getCampaign. rewrite H.
  rewrite generateBulkDrafts_all.
  unfold generateMockRecipients.
  destruct (Z.to_nat count) as [|n] eqn:En; [lia|].
  destruct (generateDraft_raises c (mockRecipient 0) draftsOptions)
    as (e & He0 & He).
  cbn [seq map promiseAll]. cbv beta. rewrite He0. simpl. by exists e.
Qed.
End Services.

Lemma generateDrafts_never_stores_witness :
  campaigns draftService !! "c-1" = Some draftLaunch
  /\ generateDrafts sampleGenerateDraft "c-1" 12 draftService
     = (Rejected ("Failed to generate drafts: "
                  +:+ ("Failed to generate bulk drafts: "
                       +:+ ("Failed to generate draft: "
                            +:+ "data is not defined"))),
        draftService).
Proof.
  split; [reflexivity|].
  destruct (generateDrafts_never_stores unit
              (fun _ => Raised None) (fun _ => Raised None)
              (fun _ => Raised None) (fun _ _ => Raised None) (fun x => x)
              (fun _ => None) (fun _ _ s => s) (fun _ _ s => s) (fun s => s)
              (fun _ => "one-time") (fun _ => "")
              (fun c r _ _ _ =>
                 Done {| draft_id := "draft-" +:+ r_email r;
                         campaignId := Some (id c);
                         draft_status := ds_draft; draft_updatedAt := 0 |})
              "c-1" 12 draftService draftLaunch eq_refl eq_refl)
    as (e & H & He).
  rewrite (He (fun _ => eq_refl)) in H. exact H.
Defined.

Lemma generateDrafts_all_or_nothing_witness :
  campaigns emptyService !! "c-1" = None
  /\ exists e,
       generateDrafts (fun _ r => Done (draftFor r)) "c-1" 12 emptyService
       = (Rejected e, emptyService).
Proof.
  split; [reflexivity|].
  exact (generateDrafts_all_or_nothing (fun _ r => Done (draftFor r)) "c-1" 12
           emptyService (or_introl eq_refl)).
Defined.

End DraftingProofs.
